(** * Mutex-protected parallel reductions with pthreads (TP5, norms and dot products)

    Shallow embedding of the four C programs of the repository

      - [2_norms/max.c]        max-norm of a matrix            (module [MaxNorm])
      - [2_norms/frobenius.c]  Frobenius norm of a matrix      (module [Frobenius])
      - per-element dot product, [dotprod_pairs]               (module [DotPairs])
      - block dot product, [dotprod_blocks]                    (module [DotBlocks])

    and the properties of their reductions.

    Modelling choices, all read off the sources:

      - [double] is an instance of the class [Double]: the programs are written
        once over the class and read at two instances, the real numbers
        (exact arithmetic, used by the general theorems) and IEEE binary64
        (primitive floats, used to run the programs on their own data);
      - [size_t] indices are [nat]: every index the programs compute is bounded
        by a buffer length, so no wrap-around can happen;
      - a C array is a flat buffer [list T]; [load] and [store] return [None]
        outside the buffer, and every function propagates that [None];
      - a matrix [double A[m][n]] is the row-major buffer of length [m * n];
        the row workers see it through [ThreadData]'s field
        [double ( *A)[N]], whose rows have the compile-time width [N];
      - a worker thread reads shared data that nobody writes, then performs one
        read-modify-write of the shared accumulator while holding the mutex.
        The mutex makes these critical sections atomic, so a run of the [m]
        workers is fixed by the order in which they enter it: a permutation
        of [0 .. m-1], given to the parallel functions as an argument
        ([run_threads]). The relation [step] spells the lock out, and
        [joined_run_is_schedule], [schedule_is_joined_run] and
        [runs_progress] relate the two: the runs of the threads that reach
        the join are exactly the schedules, and none of them blocks;
      - that the lock and the unlock of the workers make the critical
        sections atomic is itself proved, on a machine that runs the workers
        one instruction at a time ([istep], [fire]): there any thread may
        read and write the shared variable at any time, and only
        [pthread_mutex_lock] waits ([iruns_inv], [run_threads_replay]). *)

From Stdlib Require Import String.
From Stdlib Require Import List Arith Lia ZArith Bool Permutation.
From Stdlib Require Import Reals Lra.
From Stdlib Require Floats.
Import ListNotations.

(** ** The type [double] *)

Class Double (T : Type) := {
  dzero : T;                    (* the literal 0.0 *)
  dunit : T;                     (* the literal 1.0 *)
  dtol : T;                     (* the literal 0.0001 *)
  dadd : T -> T -> T;           (* a + b *)
  dsub : T -> T -> T;           (* a - b *)
  dmul : T -> T -> T;           (* a * b *)
  fabs : T -> T;                (* fabs(a) *)
  dsqrt : T -> T;               (* sqrt(a) *)
  dgt : T -> T -> bool;         (* a > b *)
  dlt : T -> T -> bool;         (* a < b *)
  deq : T -> T -> bool          (* a == b *)
}.

(** Exact arithmetic: the real numbers. *)
#[export] Instance Double_R : Double R := {
  dzero := 0%R;
  dunit := 1%R;
  dtol := (1 / 10000)%R;
  dadd := Rplus;
  dsub := Rminus;
  dmul := Rmult;
  fabs := Rabs;
  dsqrt := sqrt;
  dgt := fun a b => if Rgt_dec a b then true else false;
  dlt := fun a b => if Rlt_dec a b then true else false;
  deq := fun a b => if Req_dec_T a b then true else false
}.

(** IEEE 754 binary64, the [double] of the compiled programs. *)
Module B64.
Import Floats.

#[export] Instance Double_b64 : Double float := {
  dzero := 0%float;
  dunit := 1%float;
  dtol := 0x1.a36e2eb1c432dp-14%float;   (* the binary64 nearest to 0.0001 *)
  dadd := PrimFloat.add;
  dsub := PrimFloat.sub;
  dmul := PrimFloat.mul;
  fabs := PrimFloat.abs;
  dsqrt := PrimFloat.sqrt;
  dgt := fun a b => PrimFloat.ltb b a;
  dlt := PrimFloat.ltb;
  deq := PrimFloat.eqb
}.
End B64.

(** ** Buffers, loops and threads *)

Declare Scope c_scope.
Delimit Scope c_scope with c.
Notation "x <- e ;; k" :=
  (match e with Some x => k | None => None end)
  (at level 61, e at next level, right associativity) : c_scope.
Notation "' p <- e ;; k" :=
  (match e with Some p => k | None => None end)
  (at level 61, p pattern, e at next level, right associativity) : c_scope.
Open Scope c_scope.

Section Memory.
Context {T : Type}.

(** [buf[k]] as an rvalue. *)
Definition load (buf : list T) (k : nat) : option T := nth_error buf k.

(** [buf[k] = v]. *)
Fixpoint store (buf : list T) (k : nat) (v : T) : option (list T) :=
  match buf, k with
  | [], _ => None
  | _ :: tl, O => Some (v :: tl)
  | x :: tl, S k' => tl' <- store tl k' v ;; Some (x :: tl')
  end.

(** [A[i][j]] for [A] seen with rows of [width] elements. *)
Definition load2 (width : nat) (A : list T) (i j : nat) : option T :=
  load A (i * width + j).

Definition store2 (width : nat) (A : list T) (i j : nat) (v : T)
  : option (list T) :=
  store A (i * width + j) v.

(** [cnt] iterations of a loop body, the index starting at [i]. *)
Fixpoint iterate {S : Type} (body : nat -> S -> option S)
         (i cnt : nat) (s : S) : option S :=
  match cnt with
  | O => Some s
  | Datatypes.S c => s' <- body i s ;; iterate body (Datatypes.S i) c s'
  end.

(** [for (size_t i = lo; i < hi; ++i) body]. *)
Definition for_loop {S : Type} (lo hi : nat) (body : nat -> S -> option S)
           (s : S) : option S :=
  iterate body lo (hi - lo) s.

(** [pthread_create] of one thread per cell of [thread_data], running
    [start_routine] on it, followed by [pthread_join] of all of them: the
    critical sections run one after the other on the shared variable, thread
    [i] taking its turn where [i] stands in [order]. *)
Definition run_threads {D S : Type} (start_routine : D -> S -> option S)
           (thread_data : list D) (order : list nat) (shared : S)
  : option S :=
  fold_left
    (fun acc i =>
       s <- acc ;; data <- nth_error thread_data i ;; start_routine data s)
    order (Some shared).

(** An order is a run of [m] workers when each enters exactly once. *)
Definition schedule (m : nat) (order : list nat) : Prop :=
  Permutation order (seq 0 m).
End Memory.

(** *** The threads and the mutex, step by step

    The same run of the workers with the lock made explicit. A thread is
    [Created], then holds the mutex ([Locked]), then has written the shared
    variable and still holds the mutex ([Updated]), then has unlocked and
    returned ([Returned]). What a worker computes before it takes the lock
    depends on data that no thread writes, so it is counted with its update. *)
Inductive phase : Type :=
| Created
| Locked
| Updated
| Returned.

Record pool (S : Type) : Type := {
  owner : option nat;        (* the thread that holds the mutex *)
  value : option S;          (* the shared variable; [None] after a failed read *)
  phase_of : nat -> phase
}.
Arguments owner {S} _.
Arguments value {S} _.
Arguments phase_of {S} _ _.

Definition set_phase (i : nat) (p : phase) (f : nat -> phase) : nat -> phase :=
  fun j => if j =? i then p else f j.

Section Threads.
Context {D S : Type}.
Variable start_routine : D -> S -> option S.
Variable thread_data : list D.
Variable shared0 : S.

(** After the creation loop: the mutex is free, nobody has written. *)
Definition pool_init : pool S :=
  {| owner := None; value := Some shared0; phase_of := fun _ => Created |}.

(** [pthread_mutex_lock] returns in thread [i]. *)
Definition lock (i : nat) (w : pool S) : pool S :=
  {| owner := Some i; value := value w;
     phase_of := set_phase i Locked (phase_of w) |}.

(** The body of the critical section of thread [i]. *)
Definition update (i : nat) (data : D) (w : pool S) : pool S :=
  {| owner := owner w; value := (s <- value w ;; start_routine data s);
     phase_of := set_phase i Updated (phase_of w) |}.

(** [pthread_mutex_unlock] in thread [i], which then returns. *)
Definition unlock (i : nat) (w : pool S) : pool S :=
  {| owner := None; value := value w;
     phase_of := set_phase i Returned (phase_of w) |}.

(** One step of one thread. The list is the log of the critical sections
    executed so far, in order. *)
Inductive step : list nat * pool S -> list nat * pool S -> Prop :=
| step_lock log w i :
    owner w = None -> phase_of w i = Created -> i < length thread_data ->
    step (log, w) (log, lock i w)
| step_update log w i data :
    owner w = Some i -> phase_of w i = Locked ->
    nth_error thread_data i = Some data ->
    step (log, w) (log ++ [i], update i data w)
| step_unlock log w i :
    owner w = Some i -> phase_of w i = Updated ->
    step (log, w) (log, unlock i w).

(** The states the threads can reach, with their log. *)
Inductive runs : list nat -> pool S -> Prop :=
| runs_init : runs [] pool_init
| runs_step log w log' w' :
    runs log w -> step (log, w) (log', w') -> runs log' w'.

(** Every [pthread_join] has returned. *)
Definition joined (w : pool S) : Prop :=
  forall i, i < length thread_data -> phase_of w i = Returned.
(** What holds in every reachable state: the shared variable is the fold of
    the logged critical sections; a thread is in the log once, when it has
    written; the mutex has the owner that the phases say. *)
Definition pool_inv (log : list nat) (w : pool S) : Prop :=
  value w = run_threads start_routine thread_data log shared0 /\
  NoDup log /\
  (forall i, In i log <-> phase_of w i = Updated \/ phase_of w i = Returned) /\
  (forall i, owner w = Some i
             <-> phase_of w i = Locked \/ phase_of w i = Updated) /\
  (forall i, phase_of w i <> Created -> i < length thread_data).
End Threads.

(** *** The critical section, instruction by instruction

    The workers once more, with their lock and unlock calls as instructions
    and the read-modify-write of the shared variable in two steps. A worker
    first runs its own loop over data that nobody writes ([Local]), then
    calls [pthread_mutex_lock] ([Lock]), reads the shared variable
    ([Load]), writes it, or not, from the value read ([Store f]), and calls
    [pthread_mutex_unlock] ([Unlock]). [Load] and [Store] can be executed
    by any thread at any time: only [Lock] waits, for the mutex to be
    free. *)
Inductive instr (V : Type) : Type :=
| Local
| Lock
| Load
| Store (f : V -> option V)
| Unlock.
Arguments Local {V}.
Arguments Lock {V}.
Arguments Load {V}.
Arguments Store {V} f.
Arguments Unlock {V}.

(** What the four workers do once their local result is known. *)
Definition worker_code {V : Type} (f : V -> option V) : list (instr V) :=
  [Local; Lock; Load; Store f; Unlock].

(** [if (local_max > *shared_max) *shared_max = local_max;] *)
Definition max_store {T} `{Double T} (local_max : T) : T -> option T :=
  fun shared => if dgt local_max shared then Some local_max else None.

(** [*shared_sum += part;] *)
Definition sum_store {T} `{Double T} (part : T) : T -> option T :=
  fun shared => Some (dadd shared part).

(** The shared variable after a store computed from the value [s]. *)
Definition stored {V : Type} (f : V -> option V) (s : V) : V :=
  match f s with Some v => v | None => s end.

Record machine (V : Type) : Type := {
  mtx : option nat;            (* the thread that holds the mutex *)
  cell : V;                    (* the shared variable *)
  pc_of : nat -> nat;          (* the next instruction of each thread *)
  reg_of : nat -> option V     (* the value each thread has read *)
}.
Arguments mtx {V} _.
Arguments cell {V} _.
Arguments pc_of {V} _ _.
Arguments reg_of {V} _ _.

Definition set_at {X : Type} (i : nat) (x : X) (f : nat -> X) : nat -> X :=
  fun j => if j =? i then x else f j.

Definition machine_init {V : Type} (s0 : V) : machine V :=
  {| mtx := None; cell := s0; pc_of := fun _ => 0; reg_of := fun _ => None |}.

Definition next {V : Type} (i : nat) (w : machine V) : nat -> nat :=
  set_at i (Datatypes.S (pc_of w i)) (pc_of w).

Definition do_local {V : Type} (i : nat) (w : machine V) : machine V :=
  {| mtx := mtx w; cell := cell w; pc_of := next i w; reg_of := reg_of w |}.

Definition do_lock {V : Type} (i : nat) (w : machine V) : machine V :=
  {| mtx := Some i; cell := cell w; pc_of := next i w; reg_of := reg_of w |}.

Definition do_load {V : Type} (i : nat) (w : machine V) : machine V :=
  {| mtx := mtx w; cell := cell w; pc_of := next i w;
     reg_of := set_at i (Some (cell w)) (reg_of w) |}.

Definition do_store {V : Type} (i : nat) (f : V -> option V) (t : V)
           (w : machine V) : machine V :=
  {| mtx := mtx w;
     cell := match f t with Some v => v | None => cell w end;
     pc_of := next i w; reg_of := reg_of w |}.

Definition do_unlock {V : Type} (i : nat) (w : machine V) : machine V :=
  {| mtx := None; cell := cell w; pc_of := next i w; reg_of := reg_of w |}.

(** One instruction of thread [i], whose code is the [i]-th of [progs]. The
    list is the log of the stores executed so far. *)
Inductive istep {V : Type} (progs : list (list (instr V)))
  : list nat * machine V -> list nat * machine V -> Prop :=
| istep_local log w i p :
    nth_error progs i = Some p -> nth_error p (pc_of w i) = Some Local ->
    istep progs (log, w) (log, do_local i w)
| istep_lock log w i p :
    nth_error progs i = Some p -> nth_error p (pc_of w i) = Some Lock ->
    mtx w = None ->
    istep progs (log, w) (log, do_lock i w)
| istep_load log w i p :
    nth_error progs i = Some p -> nth_error p (pc_of w i) = Some Load ->
    istep progs (log, w) (log, do_load i w)
| istep_store log w i p f t :
    nth_error progs i = Some p -> nth_error p (pc_of w i) = Some (Store f) ->
    reg_of w i = Some t ->
    istep progs (log, w) (log ++ [i], do_store i f t w)
| istep_unlock log w i p :
    nth_error progs i = Some p -> nth_error p (pc_of w i) = Some Unlock ->
    mtx w = Some i ->
    istep progs (log, w) (log, do_unlock i w).

Inductive iruns {V : Type} (progs : list (list (instr V))) (s0 : V)
  : list nat -> machine V -> Prop :=
| iruns_init : iruns progs s0 [] (machine_init s0)
| iruns_step log w log' w' :
    iruns progs s0 log w -> istep progs (log, w) (log', w') ->
    iruns progs s0 log' w'.

(** Every thread has run its code to the end. *)
Definition finished {V : Type} (progs : list (list (instr V)))
           (w : machine V) : Prop :=
  forall i p, nth_error progs i = Some p -> pc_of w i = length p.

(** Thread [i] is between its [Lock] and the end of its [Unlock]. *)
Definition inside {V : Type} (w : machine V) (i : nat) : Prop :=
  2 <= pc_of w i <= 4.

(** The stores [fs] applied one after the other in the order [log]. *)
Definition replay {V : Type} (fs : list (V -> option V)) (log : list nat)
           (s0 : V) : V :=
  fold_left
    (fun s i => match nth_error fs i with Some f => stored f s | None => s end)
    log s0.

(** What holds in every state the workers [map worker_code fs] reach. *)
Definition machine_inv {V : Type} (fs : list (V -> option V)) (s0 : V)
           (log : list nat) (w : machine V) : Prop :=
  (forall i, pc_of w i <= 5 /\ (length fs <= i -> pc_of w i = 0)) /\
  (forall i, mtx w = Some i <-> inside w i) /\
  (forall i, pc_of w i = 3 -> reg_of w i = Some (cell w)) /\
  cell w = replay fs log s0 /\
  NoDup log /\
  (forall i, In i log <-> 4 <= pc_of w i).

(** The instruction of thread [i] executed, when it can be: [None] when the
    thread has returned, or waits at its [Lock] for the mutex. *)
Definition fire {V : Type} (progs : list (list (instr V))) (i : nat)
           (c : list nat * machine V) : option (list nat * machine V) :=
  let (log, w) := c in
  match nth_error progs i with
  | None => None
  | Some p =>
      match nth_error p (pc_of w i) with
      | None => None
      | Some Local => Some (log, do_local i w)
      | Some Lock =>
          match mtx w with
          | None => Some (log, do_lock i w)
          | Some _ => None
          end
      | Some Load => Some (log, do_load i w)
      | Some (Store f) =>
          match reg_of w i with
          | Some t => Some (log ++ [i], do_store i f t w)
          | None => None
          end
      | Some Unlock =>
          match mtx w with
          | Some j => if j =? i then Some (log, do_unlock i w) else None
          | None => None
          end
      end
  end.

(** The threads executed one instruction at a time, in the order [sched]. *)
Definition exec {V : Type} (progs : list (list (instr V))) (sched : list nat)
           (c : list nat * machine V) : option (list nat * machine V) :=
  fold_left
    (fun acc i => match acc with Some c => fire progs i c | None => None end)
    sched (Some c).

(** The number of instructions the first [m] threads have executed. *)
Definition work {V : Type} (m : nat) (w : machine V) : nat :=
  list_sum (map (pc_of w) (seq 0 m)).

(** What a program writes on standard output: the text of the format strings
    and the values printed through [%lf]. *)
Inductive out (T : Type) : Type :=
| Str (s : string)
| Dbl (x : T).
Arguments Str {T} s.
Arguments Dbl {T} x.

(** A stack array [double a[n];] before it is written. Its contents are
    indeterminate in C; the programs overwrite every cell before reading. *)
Definition alloc {T} `{Double T} (n : nat) : list T := repeat dzero n.

(** The tolerance test; the Frobenius and the two dot-product programs each
    define this same inline function. *)
Definition isClose {T} `{Double T} (a b threshold : T) : bool :=
  dlt (fabs (dsub a b)) threshold.

(** ** max.c *)

Module MaxNorm.
Section Program.
Context {T : Type} `{Double T}.

Definition M : nat := 5.
Definition N : nat := 8.

(** The fields [shared_max] and [mutex] point to the one accumulator and its
    lock; the accumulator is the state passed through the workers. *)
Record ThreadData := {
  row : nat;
  n : nat;
  A : list T               (* double ( *A)[N] *)
}.

Definition compute_row_max (data : ThreadData) (shared_max : T) : option T :=
  a0 <- load2 N (A data) (row data) 0 ;;
  local_max <-
    for_loop 1 (n data)
      (fun j local_max =>
         x <- load2 N (A data) (row data) j ;;
         Some (if dgt (fabs x) local_max then fabs x else local_max))
      (fabs a0) ;;
  (* pthread_mutex_lock *)
  Some (if dgt local_max shared_max then local_max else shared_max).
  (* pthread_mutex_unlock *)

Definition max_ref (m n : nat) (A : list T) : option T :=
  a00 <- load2 n A 0 0 ;;
  for_loop 0 m
    (fun i maxElem =>
       for_loop 0 n
         (fun j maxElem =>
            x <- load2 n A i j ;;
            Some (if dgt (fabs x) maxElem then x else maxElem))
         maxElem)
    a00.

Definition max (m n : nat) (A : list T) (order : list nat) : option T :=
  maxElem <- load2 n A 0 0 ;;
  let thread_data :=
    map (fun i => {| row := i; n := n; A := A |}) (seq 0 m) in
  run_threads compute_row_max thread_data order maxElem.

(** [elem] is the function's [static double elem]; its value is passed in
    and returned. *)
Definition initMatrix (m n : nat) (A : list T) (elem : T)
  : option (list T * T) :=
  for_loop 0 m
    (fun i st =>
       for_loop 0 n
         (fun j '(A, elem) =>
            A' <- store2 n A i j elem ;;
            Some (A', dadd elem dunit))
         st)
    (A, elem).

Definition printMatrix (m n : nat) (A : list T) : option (list (out T)) :=
  for_loop 0 m
    (fun i o =>
       o' <- for_loop 0 n
               (fun j o => x <- load2 n A i j ;; Some (o ++ [Dbl x; Str " "]))
               o ;;
       Some (o' ++ [Str "\n"]))
    [].

Definition report (ref res : T) : list (out T) :=
  if deq ref res then [Str "OK\n"]
  else [Str "ERROR: difference between ref and res is above threshold\n"].

Definition main (order : list nat) : option (list (out T) * Z) :=
  let n := N in
  let m := M in
  '(A, _) <- initMatrix m n (alloc (m * n)) dzero ;;
  o <- printMatrix m n A ;;
  ref <- max_ref m n A ;;
  res <- max m n A order ;;
  Some ([Str "A=\n"] ++ o
        ++ [Str "\nref="; Dbl ref; Str " res="; Dbl res; Str "\n"]
        ++ report ref res,
        0%Z).
End Program.
End MaxNorm.

(** ** frobenius.c *)

Module Frobenius.
Section Program.
Context {T : Type} `{Double T}.

Definition M : nat := 5.
Definition N : nat := 8.

Record ThreadData := {
  row : nat;
  n : nat;
  A : list T               (* double ( *A)[N] *)
}.

Definition compute_row_sum (data : ThreadData) (shared_sum : T) : option T :=
  row_sum <-
    for_loop 0 (n data)
      (fun j row_sum =>
         x <- load2 N (A data) (row data) j ;;
         y <- load2 N (A data) (row data) j ;;
         Some (dadd row_sum (dmul x y)))
      dzero ;;
  (* pthread_mutex_lock *)
  Some (dadd shared_sum row_sum).
  (* pthread_mutex_unlock *)

Definition frobenius_ref (m n : nat) (A : list T) : option T :=
  frob <-
    for_loop 0 m
      (fun i frob =>
         for_loop 0 n
           (fun j frob =>
              x <- load2 n A i j ;;
              y <- load2 n A i j ;;
              Some (dadd frob (dmul x y)))
           frob)
      dzero ;;
  Some (dsqrt frob).

Definition frobenius (m n : nat) (A : list T) (order : list nat) : option T :=
  frob <-
    (let thread_data :=
       map (fun i => {| row := i; n := n; A := A |}) (seq 0 m) in
     run_threads compute_row_sum thread_data order dzero) ;;
  Some (dsqrt frob).

Definition initMatrix (m n : nat) (A : list T) (elem : T)
  : option (list T * T) :=
  for_loop 0 m
    (fun i st =>
       for_loop 0 n
         (fun j '(A, elem) =>
            A' <- store2 n A i j elem ;;
            Some (A', dadd elem dunit))
         st)
    (A, elem).

Definition printMatrix (m n : nat) (A : list T) : option (list (out T)) :=
  for_loop 0 m
    (fun i o =>
       o' <- for_loop 0 n
               (fun j o => x <- load2 n A i j ;; Some (o ++ [Dbl x; Str " "]))
               o ;;
       Some (o' ++ [Str "\n"]))
    [].

Definition report (ref res : T) : list (out T) :=
  if isClose ref res dtol then [Str "Résultat correct : OK\n"]
  else [Str "Erreur : différence entre les résultats supérieure au seuil\n"].

Definition main (order : list nat) : option (list (out T) * Z) :=
  let m := M in
  let n := N in
  '(A, _) <- initMatrix m n (alloc (m * n)) dzero ;;
  o <- printMatrix m n A ;;
  ref <- frobenius_ref m n A ;;
  res <- frobenius m n A order ;;
  Some ([Str "Matrice A =\n"] ++ o
        ++ [Str "\nNorme de Frobenius (référence) = "; Dbl ref; Str "\n";
            Str "Norme de Frobenius (parallèle) = "; Dbl res; Str "\n"]
        ++ report ref res,
        0%Z).
End Program.
End Frobenius.

(** ** The sequential dot product *)

(** Modelled from the spec: [dotprod_ref] is declared in both dot-product
    programs and defined in none of the source files ("la définition est
    supposée donnée dans un fichier séparé"). The spec describes the
    sequential reference as the identical fold computed single-threaded over
    the full buffer in one pass: the sum of the products [a[i] * b[i]],
    accumulated from 0 by increasing [i]. *)
Definition dotprod_ref {T} `{Double T} (n : nat) (a b : list T) : T :=
  fold_left
    (fun sum i => dadd sum (dmul (nth i a dzero) (nth i b dzero)))
    (seq 0 n) dzero.

(** ** The per-element dot product *)

Module DotPairs.
Section Program.
Context {T : Type} `{Double T}.

Definition N : nat := 10.

Record ThreadData := {
  index : nat;
  a : list T;
  b : list T
}.

Definition compute_product (data : ThreadData) (shared_sum : T) : option T :=
  x <- load (a data) (index data) ;;
  y <- load (b data) (index data) ;;
  let product := dmul x y in
  (* pthread_mutex_lock *)
  Some (dadd shared_sum product).
  (* pthread_mutex_unlock *)

Definition dotprod_pairs (n : nat) (a b : list T) (order : list nat)
  : option T :=
  let thread_data :=
    map (fun i => {| index := i; a := a; b := b |}) (seq 0 n) in
  run_threads compute_product thread_data order dzero.

Definition initArray (n : nat) (a : list T) (elem : T)
  : option (list T * T) :=
  for_loop 0 n
    (fun i '(a, elem) =>
       a' <- store a i elem ;;
       Some (a', dadd elem dunit))
    (a, elem).

Definition printArray (n : nat) (a : list T) : option (list (out T)) :=
  o <- for_loop 0 n
         (fun i o => x <- load a i ;; Some (o ++ [Dbl x; Str " "]))
         [] ;;
  Some (o ++ [Str "\n"]).

Definition report (ref res : T) : list (out T) :=
  if isClose ref res dtol then [Str "Résultat correct : OK\n"]
  else [Str "Erreur : différence entre les résultats supérieure au seuil\n"].

(** The two calls of [initArray] in [main]; the second starts from the value
    the first one left in the static [elem]. *)
Definition main_arrays : option (list T * list T) :=
  let n := N in
  '(a, elem) <- initArray n (alloc n) dzero ;;
  '(b, _) <- initArray n (alloc n) elem ;;
  Some (a, b).

(** [main], given the external function [dotprod_ref] it is linked with. *)
Definition main (dotprod_ref : nat -> list T -> list T -> T)
           (order : list nat) : option (list (out T) * Z) :=
  let n := N in
  '(a, b) <- main_arrays ;;
  oa <- printArray n a ;;
  ob <- printArray n b ;;
  let ref := dotprod_ref n a b in
  res <- dotprod_pairs n a b order ;;
  Some ([Str "Tableau a =\n"] ++ oa ++ [Str "Tableau b =\n"] ++ ob
        ++ [Str "\nProduit scalaire (référence) = "; Dbl ref; Str "\n";
            Str "Produit scalaire (parallèle) = "; Dbl res; Str "\n"]
        ++ report ref res,
        0%Z).
End Program.
End DotPairs.

(** ** The block dot product *)

Module DotBlocks.
Section Program.
Context {T : Type} `{Double T}.

Definition N : nat := 9.
Definition K : nat := 3.

Record ThreadData := {
  start : nat;
  end_ : nat;
  a : list T;
  b : list T
}.

Definition compute_block (data : ThreadData) (shared_sum : T) : option T :=
  block_sum <-
    for_loop (start data) (end_ data)
      (fun i block_sum =>
         x <- load (a data) i ;;
         y <- load (b data) i ;;
         Some (dadd block_sum (dmul x y)))
      dzero ;;
  (* pthread_mutex_lock *)
  Some (dadd shared_sum block_sum).
  (* pthread_mutex_unlock *)

(** [n / k] with [k = 0] has no defined result in C: [None]. With [k > n]
    the two arrays of [nb_threads] cells have no cell and both loops run
    zero times. *)
Definition dotprod_blocks (n k : nat) (a b : list T) (order : list nat)
  : option T :=
  if k =? 0 then None else
  let nb_threads := n / k in
  let thread_data :=
    map (fun i => {| start := i * k; end_ := (i + 1) * k; a := a; b := b |})
        (seq 0 nb_threads) in
  run_threads compute_block thread_data order dzero.

Definition initArray (n : nat) (a : list T) (elem : T)
  : option (list T * T) :=
  for_loop 0 n
    (fun i '(a, elem) =>
       a' <- store a i elem ;;
       Some (a', dadd elem dunit))
    (a, elem).

Definition printArray (n : nat) (a : list T) : option (list (out T)) :=
  o <- for_loop 0 n
         (fun i o => x <- load a i ;; Some (o ++ [Dbl x; Str " "]))
         [] ;;
  Some (o ++ [Str "\n"]).

Definition report (ref res : T) : list (out T) :=
  if isClose ref res dtol then [Str "Résultat correct : OK\n"]
  else [Str "Erreur : différence entre les résultats supérieure au seuil\n"].

Definition main_arrays : option (list T * list T) :=
  let n := N in
  '(a, elem) <- initArray n (alloc n) dzero ;;
  '(b, _) <- initArray n (alloc n) elem ;;
  Some (a, b).

Definition main (dotprod_ref : nat -> list T -> list T -> T)
           (order : list nat) : option (list (out T) * Z) :=
  let n := N in
  let k := K in
  '(a, b) <- main_arrays ;;
  oa <- printArray n a ;;
  ob <- printArray n b ;;
  let ref := dotprod_ref n a b in
  res <- dotprod_blocks n k a b order ;;
  Some ([Str "Tableau a =\n"] ++ oa ++ [Str "Tableau b =\n"] ++ ob
        ++ [Str "\nProduit scalaire (référence) = "; Dbl ref; Str "\n";
            Str "Produit scalaire (parallèle) = "; Dbl res; Str "\n"]
        ++ report ref res,
        0%Z).
End Program.
End DotBlocks.

(** ** Specification vocabulary *)

(** A loop and a run of threads are both a fold, over the indices they go
    through, of a step that may fail. *)
Definition ofold {S : Type} (step : nat -> S -> option S) (l : list nat)
           (s : S) : option S :=
  fold_left (fun acc i => s <- acc ;; step i s) l (Some s).

(** [n] values counted up from [elem] by repeated [elem += 1.]. *)
Definition incrementing {T} `{Double T} (elem : T) (n : nat) : list T :=
  map (fun i => Nat.iter i (fun e => dadd e dunit) elem) (seq 0 n).

(** The last [k] items a program wrote. *)
Definition last_tokens {T : Type} (k : nat) (o : list (out T)) : list (out T) :=
  skipn (length o - k) o.

(** The end of a run: the last [k] items written, and the exit code. *)
Definition run_end {T : Type} (k : nat) (r : option (list (out T) * Z))
  : option (list (out T) * Z) :=
  '(o, code) <- r ;; Some (last_tokens k o, code).

(** The reals [lo, lo+1, ..., lo+n-1]. *)
Definition count_from (lo : Z) (n : nat) : list R :=
  map (fun i => IZR (lo + Z.of_nat i)) (seq 0 n).

(** Entry [(i, j)] of the [m * n] matrix stored row-major in [A]. *)
Definition entry (n : nat) (A : list R) (i j : nat) : R :=
  nth (i * n + j) A 0%R.

(** [v] is the largest absolute value of an entry of [A]. *)
Definition is_max_abs (m n : nat) (A : list R) (v : R) : Prop :=
  (forall i j, i < m -> j < n -> (Rabs (entry n A i j) <= v)%R) /\
  (exists i j, i < m /\ j < n /\ v = Rabs (entry n A i j)).

(** The sum of a list of reals and the sum of [f] over [lo .. lo+cnt-1]. *)
Definition Rlist_sum (l : list R) : R := fold_right Rplus 0%R l.

Definition sigma (lo cnt : nat) (f : nat -> R) : R :=
  Rlist_sum (map f (seq lo cnt)).

(** The running maximum of [g] over the indices [l], started at [s]. *)
Definition Rmax_fold (s : R) (g : nat -> R) (l : list nat) : R :=
  fold_left (fun acc i => Rmax acc (g i)) l s.

(** What a row worker of [max] computes when it reads row [row] of [A] with
    rows taken [width] apart: the running maximum of the absolute values of
    [n] cells. *)
Definition row_max_cells (width n : nat) (A : list R) (row : nat) : R :=
  Rmax_fold (Rabs (nth (row * width + 0) A 0%R))
            (fun j => Rabs (nth (row * width + j) A 0%R))
            (seq 1 (n - 1)).

(** The same for a row worker of [frobenius]: a sum of [n] squares. *)
Definition row_sum_cells (width n : nat) (A : list R) (row : nat) : R :=
  sigma 0 n (fun j => (nth (row * width + j) A 0 * nth (row * width + j) A 0)%R).

(** A matrix with two rows of nine columns, zero but for its last entry. *)
Definition A_2x9 : list R := repeat 0%R 17 ++ [1%R].

(** The sum of the products [a[i] * b[i]] for [i < n]. *)
Definition dot (n : nat) (a b : list R) : R :=
  sigma 0 n (fun i => (nth i a 0 * nth i b 0)%R).

(** The sum of the squares of the entries of the [m * n] matrix [A]. *)
Definition sum_squares (m n : nat) (A : list R) : R :=
  sigma 0 m (fun i => sigma 0 n (fun j => (entry n A i j * entry n A i j)%R)).

(** What [printArray] writes for the values [l]: each one, then a space. *)
Definition printed {T : Type} (l : list T) : list (out T) :=
  concat (map (fun x => [Dbl x; Str " "]) l).

(** Row [i] of the [m * n] matrix stored row-major in [A]. *)
Definition matrix_row {T : Type} (n : nat) (A : list T) (i : nat) : list T :=
  firstn n (skipn (i * n) A).

(** The sum of the squares of the cells of a buffer. *)
Definition sum_sq (A : list R) : R := Rlist_sum (map (fun x => (x * x)%R) A).

(** Closes a goal of linear arithmetic over absolute values of constants. *)
Ltac Rabs_lra := simpl; unfold Rabs; repeat destruct (Rcase_abs _); lra.

(** ** Loops and runs as folds *)

Section Folds.
Context {S : Type}.
Implicit Types (step : nat -> S -> option S) (l : list nat) (s : S).

Lemma fold_none step l :
  fold_left (fun acc i => s <- acc ;; step i s) l None = None.
Proof. induction l as [|i l IH]; simpl; auto. Qed.

Lemma ofold_nil step s : ofold step [] s = Some s.
Proof. reflexivity. Qed.

Lemma ofold_cons step i l s :
  ofold step (i :: l) s = (s' <- step i s ;; ofold step l s').
Proof.
  unfold ofold; simpl. destruct (step i s); [reflexivity | apply fold_none].
Qed.

Lemma ofold_app step l1 l2 s :
  ofold step (l1 ++ l2) s = (s' <- ofold step l1 s ;; ofold step l2 s').
Proof.
  revert s; induction l1 as [|i l1 IH]; intros s; simpl.
  - reflexivity.
  - rewrite !ofold_cons. destruct (step i s); auto.
Qed.

Lemma iterate_ofold step lo cnt s :
  iterate step lo cnt s = ofold step (seq lo cnt) s.
Proof.
  revert lo s; induction cnt as [|c IH]; intros lo s; simpl.
  - reflexivity.
  - rewrite ofold_cons. destruct (step lo s); auto.
Qed.

Lemma for_loop_ofold step lo hi s :
  for_loop lo hi step s = ofold step (seq lo (hi - lo)) s.
Proof. apply iterate_ofold. Qed.

Lemma ofold_ext step step' l s :
  (forall i s, In i l -> step i s = step' i s) ->
  ofold step l s = ofold step' l s.
Proof.
  revert s; induction l as [|i l IH]; intros s Hext; [reflexivity|].
  rewrite !ofold_cons, Hext by (left; reflexivity).
  destruct (step' i s); [|reflexivity].
  apply IH; intros; apply Hext; right; assumption.
Qed.

(** The invariant rule: a step that preserves [P] and never fails on the
    indices of [l] makes the whole fold succeed in a state satisfying [P]. *)
Lemma ofold_inv (P : S -> Prop) step l s :
  (forall i s, In i l -> P s -> exists s', step i s = Some s' /\ P s') ->
  P s ->
  exists s', ofold step l s = Some s' /\ P s'.
Proof.
  revert s; induction l as [|i l IH]; intros s Hstep Hs.
  - exists s; split; [reflexivity | assumption].
  - destruct (Hstep i s (or_introl eq_refl) Hs) as (s1 & E1 & P1).
    rewrite ofold_cons, E1. apply IH; [|assumption].
    intros; apply Hstep; [right|]; assumption.
Qed.

Lemma run_threads_ofold {D : Type} (start_routine : D -> S -> option S)
      (thread_data : list D) order s :
  run_threads start_routine thread_data order s
  = ofold (fun i s => data <- nth_error thread_data i ;; start_routine data s)
          order s.
Proof. reflexivity. Qed.
End Folds.

(** The cell [i] of a [thread_data] array filled by the creation loop. *)
Lemma thread_data_nth {D : Type} (mk : nat -> D) (m i : nat) :
  i < m -> nth_error (map mk (seq 0 m)) i = Some (mk i).
Proof.
  intros Hi. rewrite nth_error_map, nth_error_seq.
  destruct (Nat.ltb_spec i m); [reflexivity | lia].
Qed.

Lemma schedule_lt (m : nat) (order : list nat) (i : nat) :
  schedule m order -> In i order -> i < m.
Proof.
  intros Hs Hi. apply (Permutation_in _ Hs) in Hi. apply in_seq in Hi. lia.
Qed.

(** A run of the threads of [thread_data = map mk (seq 0 m)] along a schedule
    is the fold of the workers' critical sections. *)
Lemma run_threads_schedule {D S : Type} (start_routine : D -> S -> option S)
      (mk : nat -> D) (m : nat) (order : list nat) (s : S) :
  schedule m order ->
  run_threads start_routine (map mk (seq 0 m)) order s
  = ofold (fun i s => start_routine (mk i) s) order s.
Proof.
  intros Hs. rewrite run_threads_ofold. apply ofold_ext.
  intros i s' Hi. rewrite thread_data_nth by (eapply schedule_lt; eauto).
  reflexivity.
Qed.

(** ** Runs with the mutex are schedules *)

Section Interleavings.
Context {D S : Type}.
Variable start_routine : D -> S -> option S.
Variable thread_data : list D.
Variable shared0 : S.

Local Abbreviation runs := (runs start_routine thread_data shared0).
Local Abbreviation step := (step start_routine thread_data).
Local Abbreviation joined := (joined thread_data).
Local Abbreviation pool_inv := (pool_inv start_routine thread_data shared0).

Lemma set_phase_same i p f : set_phase i p f i = p.
Proof. unfold set_phase. rewrite Nat.eqb_refl. reflexivity. Qed.

Lemma set_phase_other i j p f : j <> i -> set_phase i p f j = f j.
Proof.
  intros Hne. unfold set_phase.
  destruct (Nat.eqb_spec j i); [contradiction | reflexivity].
Qed.

Lemma run_threads_snoc (log : list nat) (i : nat) :
  run_threads start_routine thread_data (log ++ [i]) shared0
  = (s <- run_threads start_routine thread_data log shared0 ;;
     data <- nth_error thread_data i ;; start_routine data s).
Proof. unfold run_threads. rewrite fold_left_app. reflexivity. Qed.

Lemma step_inv log w log' w' :
  step (log, w) (log', w') -> pool_inv log w -> pool_inv log' w'.
Proof.
  intros Hstep (Hval & Hnd & Hlog & Hown & Hlt).
  inversion Hstep as [l0 w0 i Ho Hp Hi | l0 w0 i data Ho Hp Hdata
                     | l0 w0 i Ho Hp]; subst; clear Hstep.
  - (* lock *)
    split; [exact Hval|]. split; [exact Hnd|]. split; [|split];
      intros j; simpl; destruct (Nat.eq_dec j i) as [-> | Hne];
      rewrite ?set_phase_same, ?set_phase_other by assumption.
    + rewrite Hlog, Hp. split; intros [E | E]; discriminate.
    + apply Hlog.
    + split; [left; reflexivity | reflexivity].
    + rewrite <- Hown, Ho. split; [congruence | discriminate].
    + intros _. assumption.
    + apply Hlt.
  - (* update *)
    assert (Hnot : ~ In i log).
    { intros Hin. apply Hlog in Hin. rewrite Hp in Hin.
      destruct Hin; discriminate. }
    split; [|split; [|split; [|split]]].
    + simpl. rewrite run_threads_snoc, <- Hval, Hdata. reflexivity.
    + apply NoDup_app; [assumption | repeat constructor; intros [] |].
      intros x Hx [<- | []]. contradiction.
    + intros j; simpl; destruct (Nat.eq_dec j i) as [-> | Hne];
        rewrite ?set_phase_same, ?set_phase_other by assumption.
      * split; [left; reflexivity|]. intros _.
        apply in_or_app. right; left; reflexivity.
      * rewrite <- Hlog, in_app_iff. simpl. intuition congruence.
    + intros j; simpl; destruct (Nat.eq_dec j i) as [-> | Hne];
        rewrite ?set_phase_same, ?set_phase_other by assumption.
      * split; [right; reflexivity | intros _; assumption].
      * apply Hown.
    + intros j; simpl; destruct (Nat.eq_dec j i) as [-> | Hne];
        rewrite ?set_phase_same, ?set_phase_other by assumption.
      * intros _. apply nth_error_Some. congruence.
      * apply Hlt.
  - (* unlock *)
    split; [exact Hval|]. split; [exact Hnd|]. split; [|split];
      intros j; simpl; destruct (Nat.eq_dec j i) as [-> | Hne];
      rewrite ?set_phase_same, ?set_phase_other by assumption.
    + rewrite Hlog, Hp. split; [right; reflexivity | left; reflexivity].
    + apply Hlog.
    + split; [discriminate | intros [E | E]; discriminate].
    + rewrite <- Hown, Ho. split; [discriminate | congruence].
    + intros _. apply Hlt. rewrite Hp. discriminate.
    + apply Hlt.
Qed.

Lemma runs_inv log w : runs log w -> pool_inv log w.
Proof.
  induction 1 as [|log w log' w' _ IH Hstep].
  - split; [reflexivity|]. split; [constructor|]. split; [|split];
      intros i; simpl.
    + split; [intros [] | intros [E | E]; discriminate].
    + split; [discriminate | intros [E | E]; discriminate].
    + intros Hc. contradiction Hc. reflexivity.
  - eapply step_inv; eassumption.
Qed.

(** Once every thread is joined, the shared variable holds what
    [run_threads] computes along the order in which the threads went through
    the critical section, and that order is a schedule. *)
Lemma joined_run_is_schedule log w :
  runs log w -> joined w ->
  schedule (length thread_data) log /\
  value w = run_threads start_routine thread_data log shared0.
Proof.
  intros Hr Hj. destruct (runs_inv log w Hr) as (Hval & Hnd & Hlog & _ & Hlt).
  split; [|assumption].
  apply NoDup_Permutation; [assumption | apply seq_NoDup |].
  intros i. rewrite in_seq. split.
  - intros Hin. apply Hlog in Hin. split; [lia|]. simpl.
    apply Hlt. destruct Hin as [E | E]; rewrite E; discriminate.
  - intros [_ Hi]. apply Hlog. right. apply Hj. assumption.
Qed.

(** No deadlock: as long as a thread has not returned, some thread can take
    a step. *)
Lemma runs_progress log w i :
  runs log w -> i < length thread_data -> phase_of w i <> Returned ->
  exists log' w', step (log, w) (log', w').
Proof.
  intros Hr Hi Hph. destruct (runs_inv log w Hr) as (_ & _ & _ & Hown & Hlt).
  destruct (owner w) as [j|] eqn:Ho.
  - destruct (proj1 (Hown j) eq_refl) as [Hj | Hj].
    + assert (Hjlt : j < length thread_data)
        by (apply Hlt; rewrite Hj; discriminate).
      destruct (nth_error thread_data j) as [data|] eqn:Hd.
      * eexists _, _. eapply step_update; eassumption.
      * apply nth_error_None in Hd. lia.
    + eexists _, _. eapply step_unlock; eassumption.
  - assert (Hc : phase_of w i = Created).
    { destruct (phase_of w i) eqn:E; try reflexivity.
      - assert (@None nat = Some i) by (apply Hown; left; assumption).
        discriminate.
      - assert (@None nat = Some i) by (apply Hown; right; assumption).
        discriminate.
      - contradiction Hph; reflexivity. }
    eexists _, _. eapply step_lock; eassumption.
Qed.

(** Conversely the threads can go through the critical section in any
    order. *)
Lemma runs_extend (rest pre : list nat) (w : pool S) :
  runs pre w -> owner w = None -> NoDup rest ->
  (forall i, In i rest -> phase_of w i = Created /\ i < length thread_data) ->
  exists w',
    runs (pre ++ rest) w' /\ owner w' = None /\
    (forall i, In i rest -> phase_of w' i = Returned) /\
    (forall i, ~ In i rest -> phase_of w' i = phase_of w i).
Proof.
  revert pre w; induction rest as [|i rest IH]; intros pre w Hr Ho Hnd Hc.
  - exists w. rewrite app_nil_r. repeat split; try assumption.
    intros i [].
  - destruct (Hc i (or_introl eq_refl)) as (Hci & Hlt).
    destruct (nth_error thread_data i) as [data|] eqn:Hd;
      [|apply nth_error_None in Hd; lia].
    inversion Hnd as [|x l Hnotin Hnd']; subst.
    set (w1 := lock i w).
    set (w2 := update start_routine i data w1).
    set (w3 := unlock i w2).
    assert (R1 : runs pre w1)
      by (eapply runs_step; [exact Hr | apply step_lock; assumption]).
    assert (R2 : runs (pre ++ [i]) w2).
    { eapply runs_step; [exact R1|]. apply step_update; try assumption.
      - reflexivity.
      - simpl. apply set_phase_same. }
    assert (R3 : runs (pre ++ [i]) w3).
    { eapply runs_step; [exact R2|]. apply step_unlock.
      - reflexivity.
      - simpl. apply set_phase_same. }
    assert (Hother : forall j, j <> i -> phase_of w3 j = phase_of w j).
    { intros j Hne. simpl. rewrite !set_phase_other by assumption.
      reflexivity. }
    destruct (IH (pre ++ [i]) w3 R3 eq_refl Hnd') as (w' & Rw & Ow & Hin & Hout).
    { intros j Hj. rewrite Hother by (intros ->; contradiction).
      apply Hc. right; assumption. }
    exists w'. rewrite <- app_assoc in Rw. repeat split; try assumption.
    + intros j [<- | Hj]; [|apply Hin; assumption].
      rewrite Hout by assumption. simpl. apply set_phase_same.
    + intros j Hj. rewrite Hout by (intros Hin'; apply Hj; right; assumption).
      apply Hother. intros ->. apply Hj. left; reflexivity.
Qed.

Lemma schedule_is_joined_run (order : list nat) :
  schedule (length thread_data) order ->
  exists w,
    runs order w /\ joined w /\
    value w = run_threads start_routine thread_data order shared0.
Proof.
  intros Hs.
  destruct (runs_extend order [] (pool_init shared0)) as (w & Rw & _ & Hin & _).
  - constructor.
  - reflexivity.
  - apply (Permutation_NoDup (Permutation_sym Hs)), seq_NoDup.
  - intros i Hi. split; [reflexivity|]. eapply schedule_lt; eauto.
  - exists w. simpl in Rw. split; [assumption|]. split.
    + intros i Hi. apply Hin.
      apply (Permutation_in _ (Permutation_sym Hs)), in_seq. lia.
    + apply (runs_inv _ _ Rw).
Qed.
End Interleavings.

(** The same for the threads that a creation loop over [0 .. m-1] makes. *)
Lemma joined_run_of_created_threads {D S : Type}
      (start_routine : D -> S -> option S) (mk : nat -> D) (m : nat)
      (shared0 : S) (log : list nat) (w : pool S) :
  runs start_routine (map mk (seq 0 m)) shared0 log w ->
  joined (map mk (seq 0 m)) w ->
  schedule m log /\
  value w = run_threads start_routine (map mk (seq 0 m)) log shared0.
Proof.
  intros Hr Hj.
  destruct (joined_run_is_schedule _ _ _ _ _ Hr Hj) as (Hs & Hv).
  rewrite length_map, length_seq in Hs. split; assumption.
Qed.

(** ** Buffers *)

Section BufferFacts.
Context {T : Type}.
Implicit Types (buf A : list T).

Lemma load_some buf k : k < length buf -> exists x, load buf k = Some x.
Proof.
  intros Hk. unfold load. destruct (nth_error buf k) eqn:E; [eauto|].
  apply nth_error_None in E. lia.
Qed.

Lemma load_nth buf k d : k < length buf -> load buf k = Some (nth k buf d).
Proof. intros Hk. unfold load. apply nth_error_nth'. assumption. Qed.

Lemma store_some buf k v :
  k < length buf ->
  exists buf', store buf k v = Some buf' /\ length buf' = length buf.
Proof.
  revert k; induction buf as [|x tl IH]; intros k Hk; simpl in *; [lia|].
  destruct k as [|k].
  - eexists; split; reflexivity.
  - destruct (IH k) as (tl' & E & L); [lia|].
    rewrite E. eexists; split; [reflexivity|]. simpl; congruence.
Qed.

Lemma cell_in_matrix (m n i j : nat) :
  i < m -> j < n -> i * n + j < m * n.
Proof. intros; nia. Qed.

Lemma load2_some n A m i j :
  length A = m * n -> i < m -> j < n -> exists x, load2 n A i j = Some x.
Proof.
  intros L Hi Hj. apply load_some. rewrite L. apply cell_in_matrix; assumption.
Qed.
End BufferFacts.

(** ** Every access is inside its buffer *)

Section Totality.
Context {T : Type} `{Double T}.

Lemma ofold_total {S : Type} (step : nat -> S -> option S) l s :
  (forall i s, In i l -> exists s', step i s = Some s') ->
  exists s', ofold step l s = Some s'.
Proof.
  intros Hstep.
  destruct (ofold_inv (fun _ => True) step l s) as (s' & E & _); eauto.
  intros i s0 Hi _. destruct (Hstep i s0 Hi) as (s1 & E1). eauto.
Qed.

(** The cell a row worker reads, [row * N + j], lies in the [m * n] buffer
    when the rows really have [N] elements, or when there is one row. *)
Lemma row_cell_in_buffer (N m n row j : nat) :
  m = 1 \/ n = N -> row < m -> j < n -> row * N + j < m * n.
Proof. intros [-> | ->] Hr Hj; nia. Qed.

Lemma row_cell_same (N m n row j : nat) :
  m = 1 \/ n = N -> row < m -> row * N + j = row * n + j.
Proof. intros [-> | ->] Hr; [|reflexivity]. replace row with 0 by lia. reflexivity. Qed.

Lemma compute_row_max_total (m n row : nat) (A : list T) (shared_max : T) :
  1 <= n -> row < m -> m = 1 \/ n = MaxNorm.N -> length A = m * n ->
  exists v,
    MaxNorm.compute_row_max
      {| MaxNorm.row := row; MaxNorm.n := n; MaxNorm.A := A |} shared_max
    = Some v.
Proof.
  intros Hn Hrow Hw HA. unfold MaxNorm.compute_row_max; simpl.
  assert (Hin : forall j, j < n -> exists x, load2 MaxNorm.N A row j = Some x).
  { intros j Hj. apply load_some. rewrite HA.
    apply row_cell_in_buffer; assumption. }
  destruct (Hin 0) as (a0 & ->); [lia|].
  rewrite for_loop_ofold.
  match goal with
  | |- context [ofold ?step ?l ?s] =>
      destruct (ofold_total step l s) as (v & ->)
  end.
  - intros j s Hj. apply in_seq in Hj.
    destruct (Hin j) as (x & ->); [lia|]. eauto.
  - eauto.
Qed.

Lemma max_ref_total (m n : nat) (A : list T) :
  1 <= m -> 1 <= n -> length A = m * n ->
  exists v, MaxNorm.max_ref m n A = Some v.
Proof.
  intros Hm Hn HA. unfold MaxNorm.max_ref.
  destruct (load2_some n A m 0 0) as (a00 & ->); try assumption; try lia.
  rewrite for_loop_ofold. apply ofold_total.
  intros i s Hi. apply in_seq in Hi.
  rewrite for_loop_ofold. apply ofold_total.
  intros j s' Hj. apply in_seq in Hj.
  destruct (load2_some n A m i j) as (x & ->); try assumption; try lia.
  eauto.
Qed.

Lemma compute_row_sum_total (m n row : nat) (A : list T) (shared_sum : T) :
  row < m -> m = 1 \/ n = Frobenius.N -> length A = m * n ->
  exists v,
    Frobenius.compute_row_sum
      {| Frobenius.row := row; Frobenius.n := n; Frobenius.A := A |}
      shared_sum
    = Some v.
Proof.
  intros Hrow Hw HA. unfold Frobenius.compute_row_sum; simpl.
  rewrite for_loop_ofold.
  match goal with
  | |- context [ofold ?step ?l ?s] =>
      destruct (ofold_total step l s) as (v & ->)
  end.
  - intros j s Hj. apply in_seq in Hj.
    destruct (load_some A (row * Frobenius.N + j)) as (x & E).
    { rewrite HA. apply row_cell_in_buffer; try assumption; lia. }
    unfold load2. rewrite E. eauto.
  - eauto.
Qed.

Lemma compute_block_total (start end_ : nat) (a b : list T) (shared_sum : T) :
  end_ <= length a -> end_ <= length b ->
  exists v,
    DotBlocks.compute_block
      {| DotBlocks.start := start; DotBlocks.end_ := end_;
         DotBlocks.a := a; DotBlocks.b := b |} shared_sum
    = Some v.
Proof.
  intros Ha Hb. unfold DotBlocks.compute_block; simpl.
  rewrite for_loop_ofold.
  match goal with
  | |- context [ofold ?step ?l ?s] =>
      destruct (ofold_total step l s) as (v & ->)
  end.
  - intros i s Hi. apply in_seq in Hi.
    destruct (load_some a i) as (x & ->); [lia|].
    destruct (load_some b i) as (y & ->); [lia|]. eauto.
  - eauto.
Qed.

Lemma compute_product_total (index : nat) (a b : list T) (shared_sum : T) :
  index < length a -> index < length b ->
  exists v,
    DotPairs.compute_product
      {| DotPairs.index := index; DotPairs.a := a; DotPairs.b := b |}
      shared_sum
    = Some v.
Proof.
  intros Ha Hb. unfold DotPairs.compute_product; simpl.
  destruct (load_some a index) as (x & ->); [assumption|].
  destruct (load_some b index) as (y & ->); [assumption|]. eauto.
Qed.

(** The end of block [i] is inside the arrays. *)
Lemma block_end_le (n k i : nat) : k <> 0 -> i < n / k -> (i + 1) * k <= n.
Proof.
  intros Hk Hi. pose proof (Nat.Div0.mul_div_le n k). nia.
Qed.
End Totality.

(** ** Sums and maxima over the reals *)

Section RealFolds.
Open Scope R_scope.

Lemma Rlist_sum_app l1 l2 :
  Rlist_sum (l1 ++ l2) = Rlist_sum l1 + Rlist_sum l2.
Proof.
  induction l1 as [|x l1 IH]; simpl; [lra|]. rewrite IH. lra.
Qed.

(** Addition is commutative and associative: a sum does not depend on the
    order of its terms. *)
Lemma Rlist_sum_perm l1 l2 :
  Permutation l1 l2 -> Rlist_sum l1 = Rlist_sum l2.
Proof.
  induction 1 as [|x l l' _ IH|x y l|l l' l'' _ IH1 _ IH2]; simpl.
  - reflexivity.
  - rewrite IH; reflexivity.
  - lra.
  - congruence.
Qed.

Lemma sigma_schedule (m : nat) (order : list nat) (f : nat -> R) :
  schedule m order -> Rlist_sum (map f order) = sigma 0 m f.
Proof.
  intros Hs. unfold sigma. apply Rlist_sum_perm, Permutation_map, Hs.
Qed.

Lemma sigma_0 lo f : sigma lo 0 f = 0.
Proof. reflexivity. Qed.

Lemma sigma_split lo c1 c2 f :
  sigma lo (c1 + c2) f = sigma lo c1 f + sigma (lo + c1) c2 f.
Proof. unfold sigma. rewrite seq_app, map_app, Rlist_sum_app. reflexivity. Qed.

Lemma sigma_ext lo cnt f g :
  (forall i, (lo <= i < lo + cnt)%nat -> f i = g i) ->
  sigma lo cnt f = sigma lo cnt g.
Proof.
  intros Hfg. unfold sigma. f_equal. apply map_ext_in.
  intros i Hi. apply in_seq in Hi. apply Hfg. assumption.
Qed.

Lemma sigma_shift lo cnt f :
  sigma lo cnt f = sigma 0 cnt (fun j => f (lo + j)%nat).
Proof.
  unfold sigma. revert lo f; induction cnt as [|c IH]; intros lo f.
  - reflexivity.
  - simpl. rewrite Nat.add_0_r. f_equal.
    rewrite (IH (S lo)), (IH 1%nat). f_equal. apply map_ext.
    intros j. f_equal. lia.
Qed.

(** Cutting [0 .. nb*k-1] into [nb] blocks of [k]. *)
Lemma sigma_blocks nb k f :
  sigma 0 nb (fun i => sigma (i * k) k f) = sigma 0 (nb * k) f.
Proof.
  induction nb as [|nb IH].
  - reflexivity.
  - replace (S nb) with (nb + 1)%nat by lia.
    rewrite sigma_split, IH. rewrite Nat.mul_add_distr_r, sigma_split.
    simpl. unfold sigma at 2; simpl. rewrite Nat.add_0_r. lra.
Qed.

Lemma ofold_sum (step : nat -> R -> option R) f l s :
  (forall i s, In i l -> step i s = Some (s + f i)) ->
  ofold step l s = Some (s + Rlist_sum (map f l)).
Proof.
  revert s; induction l as [|i l IH]; intros s Hstep.
  - simpl. rewrite ofold_nil. f_equal. lra.
  - rewrite ofold_cons, Hstep by (left; reflexivity).
    rewrite IH by (intros; apply Hstep; right; assumption).
    simpl. f_equal. lra.
Qed.

(** The guarded assignment [if (x > acc) acc = x;] is the maximum. *)
Lemma guarded_update_Rmax (x acc : R) :
  (if dgt x acc then x else acc) = Rmax acc x.
Proof.
  simpl. unfold Rmax.
  destruct (Rgt_dec x acc), (Rle_dec acc x); try reflexivity; lra.
Qed.

Lemma ofold_max (step : nat -> R -> option R) g l s :
  (forall i s, In i l -> step i s = Some (Rmax s (g i))) ->
  ofold step l s = Some (Rmax_fold s g l).
Proof.
  revert s; induction l as [|i l IH]; intros s Hstep.
  - reflexivity.
  - rewrite ofold_cons, Hstep by (left; reflexivity).
    rewrite IH by (intros; apply Hstep; right; assumption).
    reflexivity.
Qed.

Lemma Rmax_fold_init s g l : s <= Rmax_fold s g l.
Proof.
  revert s; induction l as [|i l IH]; intros s; simpl; [lra|].
  eapply Rle_trans; [apply (Rmax_l s (g i)) | apply IH].
Qed.

Lemma Rmax_fold_bound s g l i : In i l -> g i <= Rmax_fold s g l.
Proof.
  revert s; induction l as [|k l IH]; intros s Hi; simpl in *; [tauto|].
  destruct Hi as [-> | Hi].
  - eapply Rle_trans; [apply (Rmax_r s (g i)) | apply Rmax_fold_init].
  - apply IH; assumption.
Qed.

Lemma Rmax_fold_attained s g l :
  Rmax_fold s g l = s \/ exists i, In i l /\ Rmax_fold s g l = g i.
Proof.
  revert s; induction l as [|k l IH]; intros s; simpl; [left; reflexivity|].
  destruct (IH (Rmax s (g k))) as [E | (i & Hi & E)].
  - rewrite E. unfold Rmax. destruct (Rle_dec s (g k)).
    + right. exists k. split; [left|]; reflexivity.
    + left. reflexivity.
  - right. exists i. split; [right|]; assumption.
Qed.

(** The maximum does not depend on the order either. *)
Lemma Rmax_fold_perm s g l1 l2 :
  Permutation l1 l2 -> Rmax_fold s g l1 = Rmax_fold s g l2.
Proof.
  intros Hp; revert s.
  induction Hp as [|x l l' _ IH|x y l|l l' l'' _ IH1 _ IH2]; intros s; simpl.
  - reflexivity.
  - apply IH.
  - f_equal. rewrite <- !Rmax_assoc. f_equal. apply Rmax_comm.
  - rewrite IH1. apply IH2.
Qed.

Lemma Rmax_fold_ext s g g' l :
  (forall i, In i l -> g i = g' i) -> Rmax_fold s g l = Rmax_fold s g' l.
Proof.
  revert s; induction l as [|k l IH]; intros s Hg; simpl; [reflexivity|].
  rewrite (Hg k) by (left; reflexivity).
  apply IH. intros; apply Hg; right; assumption.
Qed.
End RealFolds.

(** ** The max-norm *)

Section MaxNormFacts.
Open Scope R_scope.

Lemma Rmax_same (x : R) : Rmax x x = x.
Proof. unfold Rmax. destruct (Rle_dec x x); reflexivity. Qed.

(** The worker, for any row width under which its reads stay in [A]. *)
Lemma compute_row_max_cells (n row : nat) (A : list R) (shared_max : R) :
  (forall j, (j < Nat.max 1 n)%nat -> (row * MaxNorm.N + j < length A)%nat) ->
  MaxNorm.compute_row_max
    {| MaxNorm.row := row; MaxNorm.n := n; MaxNorm.A := A |} shared_max
  = Some (Rmax shared_max (row_max_cells MaxNorm.N n A row)).
Proof.
  intros Hin. unfold MaxNorm.compute_row_max; simpl MaxNorm.row;
    simpl MaxNorm.n; simpl MaxNorm.A.
  unfold load2. rewrite (load_nth A _ 0) by (apply Hin; lia).
  rewrite for_loop_ofold.
  rewrite (ofold_max _ (fun j => Rabs (nth (row * MaxNorm.N + j) A 0))).
  - rewrite guarded_update_Rmax. reflexivity.
  - intros j s Hj. apply in_seq in Hj.
    rewrite (load_nth A _ 0) by (apply Hin; lia).
    rewrite guarded_update_Rmax. reflexivity.
Qed.

Lemma row_max_cells_entry (m n row : nat) (A : list R) :
  m = 1%nat \/ n = MaxNorm.N -> (row < m)%nat ->
  row_max_cells MaxNorm.N n A row = row_max_cells n n A row.
Proof.
  intros Hw Hrow. unfold row_max_cells.
  rewrite (row_cell_same MaxNorm.N m n row 0) by assumption.
  apply Rmax_fold_ext. intros j _.
  rewrite (row_cell_same MaxNorm.N m n row j) by assumption. reflexivity.
Qed.

Lemma row_max_bound (n : nat) (A : list R) (i j : nat) :
  (j < n)%nat -> Rabs (entry n A i j) <= row_max_cells n n A i.
Proof.
  intros Hj. unfold row_max_cells, entry. destruct j as [|j].
  - apply Rmax_fold_init.
  - apply (Rmax_fold_bound _ (fun j => Rabs (nth (i * n + j) A 0))).
    apply in_seq. lia.
Qed.

Lemma row_max_attained (n : nat) (A : list R) (i : nat) :
  (1 <= n)%nat ->
  exists j, (j < n)%nat /\ row_max_cells n n A i = Rabs (entry n A i j).
Proof.
  intros Hn. unfold row_max_cells, entry.
  match goal with
  | |- context [Rmax_fold ?s ?g ?l] =>
      destruct (Rmax_fold_attained s g l) as [E | (j & Hj & E)]
  end.
  - exists 0%nat. split; [lia | exact E].
  - exists j. apply in_seq in Hj. split; [lia | exact E].
Qed.

(** The parallel function as a closed expression, for any schedule. *)
Lemma max_closed (m n : nat) (A : list R) (order : list nat) :
  (1 <= m)%nat -> (1 <= n)%nat -> m = 1%nat \/ n = MaxNorm.N ->
  length A = (m * n)%nat -> schedule m order ->
  MaxNorm.max m n A order
  = Some (Rmax_fold (entry n A 0 0) (fun i => row_max_cells n n A i) order).
Proof.
  intros Hm Hn Hw HA Hs. unfold MaxNorm.max, load2.
  rewrite (load_nth A _ 0) by (rewrite HA; nia).
  rewrite run_threads_schedule by assumption.
  apply ofold_max. intros i s Hi.
  assert (Hlt : (i < m)%nat) by (eapply schedule_lt; eauto).
  rewrite compute_row_max_cells.
  - rewrite (row_max_cells_entry m) by assumption. reflexivity.
  - intros j Hj. rewrite HA. apply row_cell_in_buffer; try assumption; lia.
Qed.
End MaxNormFacts.

(** The running maximum of the row maxima, started at [A[0][0]] and taken
    over all the rows in any order, is the largest absolute value. *)
Lemma rows_maximum_is_max_abs (m n : nat) (A : list R) (order : list nat) :
  1 <= m -> 1 <= n -> schedule m order ->
  is_max_abs m n A
    (Rmax_fold (entry n A 0 0) (fun i => row_max_cells n n A i) order).
Proof.
  intros Hm Hn Hs.
  set (g := fun i => row_max_cells n n A i).
  assert (Hall : forall i, i < m -> In i order).
  { intros i Hi. apply (Permutation_in _ (Permutation_sym Hs)), in_seq. lia. }
  split.
  - intros i j Hi Hj.
    eapply Rle_trans; [apply row_max_bound; exact Hj|].
    apply (Rmax_fold_bound _ g). apply Hall; assumption.
  - destruct (Rmax_fold_attained (entry n A 0 0) g order) as [E | (i & Hi & E)].
    + exists 0, 0. split; [lia|]. split; [lia|].
      apply Rle_antisym.
      * rewrite E. apply Rle_abs.
      * eapply Rle_trans; [apply (row_max_bound n A 0 0); lia|].
        apply (Rmax_fold_bound _ g). apply Hall; lia.
    + destruct (row_max_attained n A i Hn) as (j & Hj & Ej).
      exists i, j. split; [eapply schedule_lt; eauto|]. split; [assumption|].
      rewrite E. exact Ej.
Qed.

(** Where the stride slip of the row workers does not show. For every
    matrix with at least one row and with exactly [N] = 8 columns, the row
    width that [ThreadData] gives its field [A] (or with a single row,
    whatever its width), over the reals, the parallel [max] returns the
    largest [|A[i][j]|], in whichever order the row workers update the
    shared maximum. *)
Theorem max_parallel_is_max_abs (m n : nat) (A : list R) (order : list nat) :
  1 <= m -> 1 <= n -> m = 1 \/ n = MaxNorm.N ->
  length A = m * n -> schedule m order ->
  exists v, MaxNorm.max m n A order = Some v /\ is_max_abs m n A v.
Proof.
  intros Hm Hn Hw HA Hs. rewrite max_closed by assumption.
  eexists; split; [reflexivity|].
  apply rows_maximum_is_max_abs; assumption.
Qed.

Lemma max_parallel_is_max_abs_witness :
  exists v,
    MaxNorm.max 2 8 (map IZR [1; -2; 3; -4; 5; -6; 7; -8;
                              -9; 10; -11; 12; -13; 14; -15; 16]%Z) [1; 0]
    = Some v
    /\ is_max_abs 2 8 (map IZR [1; -2; 3; -4; 5; -6; 7; -8;
                                -9; 10; -11; 12; -13; 14; -15; 16]%Z) v.
Proof.
  apply max_parallel_is_max_abs.
  - lia.
  - lia.
  - right; reflexivity.
  - reflexivity.
  - apply perm_swap.
Defined.

(** C1. The code breaks the claim by a slip. [max] takes the number of
    columns [n], hands it to each worker, and [compute_row_max] loops over
    [j < n], but indexes the matrix through [double ( *A)[N]], with rows
    [N] = 8 apart, where [max_ref] indexes with [n]. On the 2 x 9 matrix
    whose only non-zero entry is the last one, the workers read the cells
    0 .. 16 and never the cell 17: both schedules of the two row workers
    return 0, and 0 is not the largest absolute value. *)
Lemma max_parallel_wrong_on_9_columns :
  MaxNorm.max 2 9 A_2x9 [0; 1] = Some 0%R /\
  MaxNorm.max 2 9 A_2x9 [1; 0] = Some 0%R /\
  ~ is_max_abs 2 9 A_2x9 0%R.
Proof.
  assert (Hrow : forall row, row < 2 ->
            row_max_cells MaxNorm.N 9 A_2x9 row = 0%R).
  { intros row Hrow. destruct row as [|[|row]]; [| |lia];
      unfold row_max_cells; simpl; rewrite Rabs_R0, !Rmax_same; reflexivity. }
  assert (Hw : forall row s, row < 2 ->
            MaxNorm.compute_row_max
              {| MaxNorm.row := row; MaxNorm.n := 9; MaxNorm.A := A_2x9 |} s
            = Some (Rmax s 0)).
  { intros row s Hlt. rewrite compute_row_max_cells.
    - rewrite Hrow by assumption. reflexivity.
    - intros j Hj. change (length A_2x9) with 18.
      unfold MaxNorm.N. simpl in Hj. lia. }
  repeat split.
  - unfold MaxNorm.max. change (load2 9 A_2x9 0 0) with (Some 0%R).
    unfold run_threads. cbn [fold_left map seq nth_error].
    rewrite !Hw by lia. rewrite !Rmax_same. reflexivity.
  - unfold MaxNorm.max. change (load2 9 A_2x9 0 0) with (Some 0%R).
    unfold run_threads. cbn [fold_left map seq nth_error].
    rewrite !Hw by lia. rewrite !Rmax_same. reflexivity.
  - intros [Hub _]. specialize (Hub 1 8 ltac:(lia) ltac:(lia)).
    unfold entry in Hub; simpl in Hub. rewrite Rabs_R1 in Hub. lra.
Qed.

Lemma dgt_true (a b : R) : (a > b)%R -> dgt a b = true.
Proof. intros Hab. simpl. destruct (Rgt_dec a b); [reflexivity | contradiction]. Qed.

Lemma dgt_false (a b : R) : ~ (a > b)%R -> dgt a b = false.
Proof. intros Hab. simpl. destruct (Rgt_dec a b); [contradiction | reflexivity]. Qed.


Lemma Rmax_fold_Rmax (a b : R) (g : nat -> R) (l : list nat) :
  Rmax_fold (Rmax a b) g l = Rmax a (Rmax_fold b g l).
Proof.
  revert b; induction l as [|k l IH]; intros b; simpl; [reflexivity|].
  rewrite <- Rmax_assoc. apply IH.
Qed.

(** Where no entry is negative the slip of [max_ref] does not show: storing
    [A[i][j]] or [fabs(A[i][j])] is the same, and [max_ref] returns the
    largest absolute value. This is the case of the matrix [main] builds. *)
Lemma max_ref_nonneg (m n : nat) (A : list R) :
  1 <= m -> 1 <= n -> length A = m * n ->
  (forall x, In x A -> (0 <= x)%R) ->
  exists v, MaxNorm.max_ref m n A = Some v /\ is_max_abs m n A v.
Proof.
  intros Hm Hn HA Hpos.
  assert (Hentry : forall i j, i < m -> j < n ->
            load2 n A i j = Some (entry n A i j)
            /\ Rabs (entry n A i j) = entry n A i j).
  { intros i j Hi Hj.
    assert (Hlt : i * n + j < length A)
      by (rewrite HA; apply cell_in_matrix; assumption).
    split; [apply load_nth; assumption|].
    apply Rabs_right, Rle_ge, Hpos, nth_In, Hlt. }
  unfold MaxNorm.max_ref.
  rewrite (proj1 (Hentry 0 0 ltac:(lia) ltac:(lia))).
  rewrite for_loop_ofold, Nat.sub_0_r.
  rewrite (ofold_max _ (fun i => row_max_cells n n A i)).
  - eexists; split; [reflexivity|].
    apply rows_maximum_is_max_abs; try assumption. apply Permutation_refl.
  - intros i s Hi. apply in_seq in Hi.
    rewrite for_loop_ofold, Nat.sub_0_r.
    rewrite (ofold_max _ (fun j => entry n A i j)).
    + f_equal. destruct n as [|n']; [lia|]. unfold row_max_cells.
      cbn [seq Rmax_fold fold_left]. fold (Rmax_fold (Rmax s (entry (S n') A i 0))
        (fun j => entry (S n') A i j) (seq 1 n')).
      rewrite Rmax_fold_Rmax. f_equal.
      replace (S n' - 1) with n' by lia. unfold entry at 1.
      rewrite <- (proj2 (Hentry i 0 ltac:(lia) ltac:(lia))) at 1.
      apply Rmax_fold_ext. intros j Hj. apply in_seq in Hj.
      symmetry. apply Hentry; lia.
    + intros j s' Hj. apply in_seq in Hj.
      destruct (Hentry i j ltac:(lia) ltac:(lia)) as (-> & Habs).
      simpl fabs. rewrite Habs. rewrite guarded_update_Rmax. reflexivity.
Qed.

(** C2 fails on the code by a slip: [max_ref] compares [fabs(A[i][j])] with
    the running maximum but stores the signed [A[i][j]] (and starts from the
    signed [A[0][0]]). On the 1 x 2 matrix [{1, -3}] it returns -3, while the
    largest absolute value is 3, which is what the parallel [max] returns. *)
Theorem max_ref_returns_signed_entry :
  MaxNorm.max_ref 1 2 [1; -3]%R = Some (-3)%R /\
  MaxNorm.max 1 2 [1; -3]%R [0] = Some 3%R /\
  is_max_abs 1 2 [1; -3]%R 3%R.
Proof.
  split; [|split].
  - unfold MaxNorm.max_ref, for_loop, load2, load.
    cbn [iterate Nat.sub Nat.mul Nat.add nth_error].
    rewrite (dgt_false (fabs 1%R) 1%R) by Rabs_lra.
    rewrite dgt_true by Rabs_lra. reflexivity.
  - rewrite (max_closed 1 2 [1; -3]%R [0] ltac:(lia) ltac:(lia)
                         (or_introl eq_refl) eq_refl (Permutation_refl _)).
    unfold Rmax_fold, row_max_cells, Rmax_fold, entry; simpl.
    f_equal.
    replace (Rabs 1) with 1%R by Rabs_lra.
    replace (Rabs (-3)) with 3%R by Rabs_lra.
    rewrite (Rmax_right 1 3) by lra. apply Rmax_right. lra.
  - split.
    + intros i j Hi Hj. destruct i as [|i]; [|lia].
      destruct j as [|[|j]]; [| |lia]; unfold entry; Rabs_lra.
    + exists 0, 1. split; [lia|]. split; [lia|]. unfold entry. Rabs_lra.
Qed.

(** ** The dot products *)

Section DotFacts.
Open Scope R_scope.

Lemma compute_product_closed (i : nat) (a b : list R) (shared_sum : R) :
  (i < length a)%nat -> (i < length b)%nat ->
  DotPairs.compute_product
    {| DotPairs.index := i; DotPairs.a := a; DotPairs.b := b |} shared_sum
  = Some (shared_sum + nth i a 0 * nth i b 0).
Proof.
  intros Ha Hb. unfold DotPairs.compute_product; simpl.
  rewrite (load_nth a i 0), (load_nth b i 0) by assumption. reflexivity.
Qed.

Lemma dotprod_pairs_closed (n : nat) (a b : list R) (order : list nat) :
  length a = n -> length b = n -> schedule n order ->
  DotPairs.dotprod_pairs n a b order = Some (dot n a b).
Proof.
  intros Ha Hb Hs. unfold DotPairs.dotprod_pairs.
  rewrite run_threads_schedule by assumption.
  rewrite (ofold_sum _ (fun i => nth i a 0 * nth i b 0)).
  - rewrite (sigma_schedule n) by assumption. simpl. f_equal.
    unfold dot. lra.
  - intros i s Hi. apply compute_product_closed;
      [rewrite Ha | rewrite Hb]; eapply schedule_lt; eauto.
Qed.

Lemma compute_block_closed (start cnt : nat) (a b : list R) (shared_sum : R) :
  (start + cnt <= length a)%nat -> (start + cnt <= length b)%nat ->
  DotBlocks.compute_block
    {| DotBlocks.start := start; DotBlocks.end_ := start + cnt;
       DotBlocks.a := a; DotBlocks.b := b |} shared_sum
  = Some (shared_sum + sigma start cnt (fun i => nth i a 0 * nth i b 0)).
Proof.
  intros Ha Hb. unfold DotBlocks.compute_block; simpl.
  rewrite for_loop_ofold.
  replace (start + cnt - start)%nat with cnt by lia.
  rewrite (ofold_sum _ (fun i => nth i a 0 * nth i b 0)).
  - simpl. f_equal. unfold sigma. lra.
  - intros i s Hi. apply in_seq in Hi.
    rewrite (load_nth a i 0), (load_nth b i 0) by lia. reflexivity.
Qed.

(** Whatever [k >= 1], the blocks cover the indices below [n / k * k]. *)
Lemma dotprod_blocks_closed (n k : nat) (a b : list R) (order : list nat) :
  k <> 0%nat -> length a = n -> length b = n -> schedule (n / k) order ->
  DotBlocks.dotprod_blocks n k a b order = Some (dot (n / k * k) a b).
Proof.
  intros Hk Ha Hb Hs. unfold DotBlocks.dotprod_blocks.
  destruct (Nat.eqb_spec k 0) as [E | _]; [contradiction|].
  rewrite run_threads_schedule by assumption.
  rewrite (ofold_sum _ (fun i => sigma (i * k) k
                                   (fun i => nth i a 0 * nth i b 0))).
  - rewrite (sigma_schedule (n / k)) by assumption.
    rewrite sigma_blocks. simpl. f_equal. unfold dot. lra.
  - intros i s Hi.
    assert (Hlt : (i < n / k)%nat) by (eapply schedule_lt; eauto).
    pose proof (block_end_le n k i Hk Hlt) as Hend.
    replace ((i + 1) * k)%nat with (i * k + k)%nat by lia.
    apply compute_block_closed; lia.
Qed.

Lemma fold_left_sum (f : nat -> R) (l : list nat) (s : R) :
  fold_left (fun sum i => sum + f i) l s = s + Rlist_sum (map f l).
Proof.
  revert s; induction l as [|i l IH]; intros s; simpl; [lra|].
  rewrite IH. lra.
Qed.

Lemma dotprod_ref_dot (n : nat) (a b : list R) :
  dotprod_ref n a b = dot n a b.
Proof.
  unfold dotprod_ref. simpl.
  rewrite (fold_left_sum (fun i => nth i a 0 * nth i b 0)).
  unfold dot, sigma. lra.
Qed.
End DotFacts.

(** C5. For vectors [a] and [b] of length [n], over the reals, the
    per-element [dotprod_pairs] and the block [dotprod_blocks], for a block
    size [k] that divides [n], both return the sum of the [a[i] * b[i]],
    [i < n], in whichever order their workers add to the shared sum. *)
Theorem dotprod_pairs_blocks_agree
        (n k : nat) (a b : list R) (order_pairs order_blocks : list nat) :
  length a = n -> length b = n ->
  k <> 0 -> n mod k = 0 ->
  schedule n order_pairs -> schedule (n / k) order_blocks ->
  DotPairs.dotprod_pairs n a b order_pairs = Some (dot n a b) /\
  DotBlocks.dotprod_blocks n k a b order_blocks = Some (dot n a b).
Proof.
  intros Ha Hb Hk Hdiv Hsp Hsb. split.
  - apply dotprod_pairs_closed; assumption.
  - rewrite dotprod_blocks_closed by assumption.
    replace (n / k * k) with n; [reflexivity|].
    pose proof (Nat.div_mod_eq n k). lia.
Qed.

Lemma dotprod_pairs_blocks_agree_witness :
  DotPairs.dotprod_pairs 4 [1; 2; 3; 4]%R [5; 6; 7; 8]%R [2; 0; 3; 1]
  = Some (dot 4 [1; 2; 3; 4]%R [5; 6; 7; 8]%R) /\
  DotBlocks.dotprod_blocks 4 2 [1; 2; 3; 4]%R [5; 6; 7; 8]%R [1; 0]
  = Some (dot 4 [1; 2; 3; 4]%R [5; 6; 7; 8]%R).
Proof.
  apply dotprod_pairs_blocks_agree.
  - reflexivity.
  - reflexivity.
  - lia.
  - reflexivity.
  - unfold schedule; simpl.
    apply perm_trans with (l' := [0; 2; 3; 1]); [apply perm_swap|].
    apply perm_skip.
    apply perm_trans with (l' := [2; 1; 3]); [apply perm_skip, perm_swap|].
    apply perm_swap.
  - apply perm_swap.
Defined.

(** C9. For a block size [k >= 1] that does not divide [n],
    [dotprod_blocks] fails nowhere and returns the sum of the [a[i] * b[i]]
    over [i < n / k * k] only, leaving out the last [n mod k] elements; when
    [k > n] no worker exists and the result is 0. *)
Theorem dotprod_blocks_truncates
        (n k : nat) (a b : list R) (order : list nat) :
  1 <= k -> n mod k <> 0 ->
  length a = n -> length b = n -> schedule (n / k) order ->
  DotBlocks.dotprod_blocks n k a b order = Some (dot (n / k * k) a b) /\
  n / k * k = n - n mod k /\
  (n < k -> order = [] /\
            DotBlocks.dotprod_blocks n k a b order = Some 0%R).
Proof.
  intros Hk Hmod Ha Hb Hs.
  assert (Hc : DotBlocks.dotprod_blocks n k a b order
               = Some (dot (n / k * k) a b))
    by (apply dotprod_blocks_closed; try assumption; lia).
  split; [exact Hc|]. split.
  - pose proof (Nat.div_mod_eq n k). lia.
  - intros Hlt. rewrite Hc. unfold schedule in Hs.
    rewrite (Nat.div_small n k Hlt) in *. simpl in Hs.
    split; [apply Permutation_nil, Permutation_sym, Hs | reflexivity].
Qed.

Lemma dotprod_blocks_truncates_witness :
  DotBlocks.dotprod_blocks 5 2 [1; 2; 3; 4; 5]%R [1; 1; 1; 1; 1]%R [1; 0]
  = Some (dot (5 / 2 * 2) [1; 2; 3; 4; 5]%R [1; 1; 1; 1; 1]%R) /\
  5 / 2 * 2 = 5 - 5 mod 2 /\
  (5 < 2 -> [1; 0] = [] /\
            DotBlocks.dotprod_blocks 5 2 [1; 2; 3; 4; 5]%R [1; 1; 1; 1; 1]%R
                                     [1; 0] = Some 0%R).
Proof.
  apply dotprod_blocks_truncates.
  - lia.
  - simpl; lia.
  - reflexivity.
  - reflexivity.
  - apply perm_swap.
Defined.

(** ** The Frobenius norm *)

Section FrobeniusFacts.
Open Scope R_scope.

Lemma compute_row_sum_cells (n row : nat) (A : list R) (shared_sum : R) :
  (forall j, (j < n)%nat -> (row * Frobenius.N + j < length A)%nat) ->
  Frobenius.compute_row_sum
    {| Frobenius.row := row; Frobenius.n := n; Frobenius.A := A |} shared_sum
  = Some (shared_sum + row_sum_cells Frobenius.N n A row).
Proof.
  intros Hin. unfold Frobenius.compute_row_sum; simpl Frobenius.row;
    simpl Frobenius.n; simpl Frobenius.A.
  rewrite for_loop_ofold, Nat.sub_0_r.
  rewrite (ofold_sum _ (fun j => nth (row * Frobenius.N + j) A 0
                                 * nth (row * Frobenius.N + j) A 0)).
  - simpl. f_equal. unfold row_sum_cells, sigma. lra.
  - intros j s Hj. apply in_seq in Hj. unfold load2.
    rewrite (load_nth A _ 0) by (apply Hin; lia). reflexivity.
Qed.

Lemma row_sum_cells_entry (m n row : nat) (A : list R) :
  m = 1%nat \/ n = Frobenius.N -> (row < m)%nat ->
  row_sum_cells Frobenius.N n A row
  = sigma 0 n (fun j => entry n A row j * entry n A row j).
Proof.
  intros Hw Hrow. unfold row_sum_cells, entry. apply sigma_ext.
  intros j _. rewrite (row_cell_same Frobenius.N m n row j) by assumption.
  reflexivity.
Qed.

Lemma frobenius_closed (m n : nat) (A : list R) (order : list nat) :
  m = 1%nat \/ n = Frobenius.N -> length A = (m * n)%nat ->
  schedule m order ->
  Frobenius.frobenius m n A order = Some (sqrt (sum_squares m n A)).
Proof.
  intros Hw HA Hs. unfold Frobenius.frobenius.
  rewrite run_threads_schedule by assumption.
  rewrite (ofold_sum _ (fun i => row_sum_cells Frobenius.N n A i)).
  - rewrite (sigma_schedule m) by assumption. simpl. do 2 f_equal.
    rewrite Rplus_0_l. unfold sum_squares. apply sigma_ext.
    intros i Hi. apply (row_sum_cells_entry m); [assumption | lia].
  - intros i s Hi.
    assert (Hlt : (i < m)%nat) by (eapply schedule_lt; eauto).
    apply compute_row_sum_cells.
    intros j Hj. rewrite HA. apply row_cell_in_buffer; assumption.
Qed.

Lemma frobenius_ref_closed (m n : nat) (A : list R) :
  length A = (m * n)%nat ->
  Frobenius.frobenius_ref m n A = Some (sqrt (sum_squares m n A)).
Proof.
  intros HA. unfold Frobenius.frobenius_ref.
  rewrite for_loop_ofold, Nat.sub_0_r.
  rewrite (ofold_sum _ (fun i => sigma 0 n
                          (fun j => entry n A i j * entry n A i j))).
  - simpl. do 2 f_equal. unfold sum_squares, sigma. lra.
  - intros i s Hi. apply in_seq in Hi.
    rewrite for_loop_ofold, Nat.sub_0_r.
    rewrite (ofold_sum _ (fun j => entry n A i j * entry n A i j)).
    + reflexivity.
    + intros j s' Hj. apply in_seq in Hj. unfold load2.
      rewrite (load_nth A _ 0) by (rewrite HA; apply cell_in_matrix; lia).
      reflexivity.
Qed.
End FrobeniusFacts.

(** Where the stride slip of the row workers does not show. For every
    matrix with at least one row and with exactly [N] = 8 columns, the row
    width of [ThreadData]'s field [A] (or with a single row), over the
    reals, the parallel [frobenius] returns what the sequential
    [frobenius_ref] returns, the square root of the sum of the squares of
    the entries, in whichever order the row workers add their partial
    sums. *)
Theorem frobenius_parallel_eq_ref
        (m n : nat) (A : list R) (order : list nat) :
  1 <= m -> 1 <= n -> m = 1 \/ n = Frobenius.N ->
  length A = m * n -> schedule m order ->
  Frobenius.frobenius m n A order = Some (sqrt (sum_squares m n A)) /\
  Frobenius.frobenius_ref m n A = Some (sqrt (sum_squares m n A)).
Proof.
  intros _ _ Hw HA Hs. split.
  - apply frobenius_closed; assumption.
  - apply frobenius_ref_closed; assumption.
Qed.

Lemma frobenius_parallel_eq_ref_witness :
  Frobenius.frobenius 2 8 (map IZR [1; -2; 3; -4; 5; -6; 7; -8;
                                    -9; 10; -11; 12; -13; 14; -15; 16]%Z)
                      [1; 0]
  = Some (sqrt (sum_squares 2 8
                  (map IZR [1; -2; 3; -4; 5; -6; 7; -8;
                            -9; 10; -11; 12; -13; 14; -15; 16]%Z))) /\
  Frobenius.frobenius_ref 2 8 (map IZR [1; -2; 3; -4; 5; -6; 7; -8;
                                        -9; 10; -11; 12; -13; 14; -15; 16]%Z)
  = Some (sqrt (sum_squares 2 8
                  (map IZR [1; -2; 3; -4; 5; -6; 7; -8;
                            -9; 10; -11; 12; -13; 14; -15; 16]%Z))).
Proof.
  apply frobenius_parallel_eq_ref.
  - lia.
  - lia.
  - right; reflexivity.
  - reflexivity.
  - apply perm_swap.
Defined.

(** C6. The code breaks the claim by the same slip as in [max]:
    [frobenius] takes [n] and hands it to each worker, [compute_row_sum]
    loops over [j < n] but indexes through [double ( *A)[N]], where
    [frobenius_ref] indexes with [n]. On the 2 x 9 matrix whose only
    non-zero entry is the last one, the row workers never read that entry;
    for both schedules the parallel result is 0 and the sequential one
    is 1. *)
Lemma frobenius_differs_on_9_columns :
  Frobenius.frobenius 2 9 A_2x9 [0; 1] = Some 0%R /\
  Frobenius.frobenius 2 9 A_2x9 [1; 0] = Some 0%R /\
  Frobenius.frobenius_ref 2 9 A_2x9 = Some 1%R.
Proof.
  assert (Hw : forall row s, row < 2 ->
            Frobenius.compute_row_sum
              {| Frobenius.row := row; Frobenius.n := 9;
                 Frobenius.A := A_2x9 |} s
            = Some (s + 0)%R).
  { intros row s Hlt. rewrite compute_row_sum_cells.
    - f_equal. f_equal.
      destruct row as [|[|row]]; [| |lia];
        unfold row_sum_cells, sigma; simpl; lra.
    - intros j Hj. change (length A_2x9) with 18. unfold Frobenius.N. lia. }
  assert (Hz : (sqrt (0 + 0 + 0) = 0)%R)
    by (replace (0 + 0 + 0)%R with 0%R by lra; apply sqrt_0).
  repeat split.
  - unfold Frobenius.frobenius, run_threads.
    cbn [fold_left map seq nth_error]. rewrite !Hw by lia.
    simpl. rewrite Hz. reflexivity.
  - unfold Frobenius.frobenius, run_threads.
    cbn [fold_left map seq nth_error]. rewrite !Hw by lia.
    simpl. rewrite Hz. reflexivity.
  - rewrite frobenius_ref_closed by reflexivity.
    replace (sum_squares 2 9 A_2x9) with 1%R
      by (unfold sum_squares, sigma, entry; simpl; lra).
    rewrite sqrt_1. reflexivity.
Qed.

(** ** The programs run to completion *)

Section ProgramsRun.
Context {T : Type} `{Double T}.

Lemma store_app (pre rest : list T) (x v : T) :
  store (pre ++ x :: rest) (length pre) v = Some (pre ++ v :: rest).
Proof.
  induction pre as [|p pre IH]; simpl; [reflexivity|]. rewrite IH. reflexivity.
Qed.

Lemma incrementing_S (elem : T) (n : nat) :
  incrementing elem (S n) = elem :: incrementing (dadd elem dunit) n.
Proof.
  unfold incrementing. simpl. f_equal.
  rewrite <- seq_shift, map_map. apply map_ext.
  intros i. rewrite Nat.iter_succ_r. reflexivity.
Qed.

Lemma incrementing_length (elem : T) (n : nat) :
  length (incrementing elem n) = n.
Proof. unfold incrementing. rewrite length_map, length_seq. reflexivity. Qed.

(** The loop of [initArray], started at index [length pre] with [pre]
    already behind it. *)
Lemma initArray_loop (pre rest : list T) (elem : T) :
  iterate
    (fun i '(a, elem) => a' <- store a i elem ;; Some (a', dadd elem dunit))
    (length pre) (length rest) (pre ++ rest, elem)
  = Some (pre ++ incrementing elem (length rest),
          Nat.iter (length rest) (fun e => dadd e dunit) elem).
Proof.
  revert pre elem; induction rest as [|x rest IH]; intros pre elem.
  - reflexivity.
  - cbn [length iterate]. rewrite store_app.
    replace (pre ++ elem :: rest) with ((pre ++ [elem]) ++ rest)
      by (rewrite <- app_assoc; reflexivity).
    replace (S (length pre)) with (length (pre ++ [elem]))
      by (rewrite length_app; simpl; lia).
    rewrite IH, incrementing_S, <- app_assoc, Nat.iter_succ_r. reflexivity.
Qed.

(** [initArray] fills the array with the values counted up from the static
    [elem] and leaves the static [n] steps further. *)
Lemma initArray_closed (n : nat) (a : list T) (elem : T) :
  length a = n ->
  DotPairs.initArray n a elem
  = Some (incrementing elem n, Nat.iter n (fun e => dadd e dunit) elem).
Proof.
  intros <-. unfold DotPairs.initArray, for_loop. rewrite Nat.sub_0_r.
  apply (initArray_loop [] a elem).
Qed.

Lemma alloc_length (n : nat) : length (alloc (T:=T) n) = n.
Proof. apply repeat_length. Qed.

Lemma printArray_total (n : nat) (a : list T) :
  n <= length a -> exists o, DotPairs.printArray n a = Some o.
Proof.
  intros Hn. unfold DotPairs.printArray. rewrite for_loop_ofold.
  match goal with
  | |- context [ofold ?step ?l ?s] =>
      destruct (ofold_total step l s) as (o & ->)
  end; [|eauto].
  intros i s Hi. apply in_seq in Hi.
  destruct (load_some a i) as (x & ->); [lia|]. eauto.
Qed.

Lemma initMatrix_total (m n : nat) (A : list T) (elem : T) :
  length A = m * n ->
  exists A' elem',
    MaxNorm.initMatrix m n A elem = Some (A', elem') /\ length A' = m * n.
Proof.
  intros HA. unfold MaxNorm.initMatrix. rewrite for_loop_ofold.
  match goal with
  | |- context [ofold ?step ?l ?s] =>
      destruct (ofold_inv (fun st => length (fst st) = m * n) step l s)
        as ((A' & elem') & E & L)
  end.
  - intros i st Hi Hst. apply in_seq in Hi. rewrite for_loop_ofold.
    apply ofold_inv; [|assumption].
    intros j (A1 & e1) Hj L1. apply in_seq in Hj. simpl in L1.
    destruct (store_some A1 (i * n + j) e1) as (A2 & E2 & L2).
    { rewrite L1. apply cell_in_matrix; lia. }
    unfold store2. rewrite E2. eexists; split; [reflexivity|].
    simpl. congruence.
  - assumption.
  - exists A', elem'. split; assumption.
Qed.

Lemma printMatrix_total (m n : nat) (A : list T) :
  length A = m * n -> exists o, MaxNorm.printMatrix m n A = Some o.
Proof.
  intros HA. unfold MaxNorm.printMatrix. rewrite for_loop_ofold.
  apply ofold_total. intros i o Hi. apply in_seq in Hi.
  rewrite for_loop_ofold.
  match goal with
  | |- context [ofold ?step ?l ?s] =>
      destruct (ofold_total step l s) as (o' & ->)
  end; [|eauto].
  intros j s Hj. apply in_seq in Hj.
  destruct (load2_some n A m i j) as (x & ->); try assumption; try lia.
  eauto.
Qed.

Lemma max_total (m n : nat) (A : list T) (order : list nat) :
  1 <= m -> 1 <= n -> m = 1 \/ n = MaxNorm.N ->
  length A = m * n -> schedule m order ->
  exists v, MaxNorm.max m n A order = Some v.
Proof.
  intros Hm Hn Hw HA Hs. unfold MaxNorm.max.
  destruct (load2_some n A m 0 0) as (a00 & ->); try assumption; try lia.
  rewrite run_threads_schedule by assumption.
  apply ofold_total. intros i s Hi.
  apply (compute_row_max_total m); try assumption.
  eapply schedule_lt; eauto.
Qed.

Lemma frobenius_ref_total (m n : nat) (A : list T) :
  length A = m * n -> exists v, Frobenius.frobenius_ref m n A = Some v.
Proof.
  intros HA. unfold Frobenius.frobenius_ref. rewrite for_loop_ofold.
  match goal with
  | |- context [ofold ?step ?l ?s] =>
      destruct (ofold_total step l s) as (v & ->)
  end; [|eauto].
  intros i s Hi. apply in_seq in Hi.
  rewrite for_loop_ofold. apply ofold_total.
  intros j s' Hj. apply in_seq in Hj.
  destruct (load2_some n A m i j) as (x & ->); try assumption; try lia.
  eauto.
Qed.

Lemma frobenius_total (m n : nat) (A : list T) (order : list nat) :
  m = 1 \/ n = Frobenius.N -> length A = m * n -> schedule m order ->
  exists v, Frobenius.frobenius m n A order = Some v.
Proof.
  intros Hw HA Hs. unfold Frobenius.frobenius.
  rewrite run_threads_schedule by assumption.
  match goal with
  | |- context [ofold ?step ?l ?s] =>
      destruct (ofold_total step l s) as (v & ->)
  end; [|eauto].
  intros i s Hi. apply (compute_row_sum_total m); try assumption.
  eapply schedule_lt; eauto.
Qed.

Lemma dotprod_pairs_total (n : nat) (a b : list T) (order : list nat) :
  length a = n -> length b = n -> schedule n order ->
  exists v, DotPairs.dotprod_pairs n a b order = Some v.
Proof.
  intros Ha Hb Hs. unfold DotPairs.dotprod_pairs.
  rewrite run_threads_schedule by assumption.
  apply ofold_total. intros i s Hi.
  apply compute_product_total; [rewrite Ha | rewrite Hb];
    eapply schedule_lt; eauto.
Qed.

Lemma dotprod_blocks_total (n k : nat) (a b : list T) (order : list nat) :
  k <> 0 -> length a = n -> length b = n -> schedule (n / k) order ->
  exists v, DotBlocks.dotprod_blocks n k a b order = Some v.
Proof.
  intros Hk Ha Hb Hs. unfold DotBlocks.dotprod_blocks.
  destruct (Nat.eqb_spec k 0) as [E | _]; [contradiction|].
  rewrite run_threads_schedule by assumption.
  apply ofold_total. intros i s Hi.
  assert (Hlt : i < n / k) by (eapply schedule_lt; eauto).
  pose proof (block_end_le n k i Hk Hlt).
  apply compute_block_total; lia.
Qed.

(** The arrays of the two dot-product programs: the second call of
    [initArray] continues where the first one stopped. *)
Lemma pairs_main_arrays :
  DotPairs.main_arrays
  = Some (incrementing dzero 10,
          incrementing (Nat.iter 10 (fun e => dadd e dunit) dzero) 10).
Proof.
  unfold DotPairs.main_arrays, DotPairs.N.
  rewrite !initArray_closed by apply alloc_length. reflexivity.
Qed.

Lemma blocks_main_arrays :
  DotBlocks.main_arrays
  = Some (incrementing dzero 9,
          incrementing (Nat.iter 9 (fun e => dadd e dunit) dzero) 9).
Proof.
  unfold DotBlocks.main_arrays, DotBlocks.N.
  change (@DotBlocks.initArray T _) with (@DotPairs.initArray T _).
  rewrite !initArray_closed by apply alloc_length. reflexivity.
Qed.
End ProgramsRun.

(** Where the stride slip of the row workers does not show. With at least
    one row and exactly [N] = 8 columns (or a single row), and a block that
    ends inside both vectors for [compute_block], no read of
    [compute_row_max], [max_ref], [compute_row_sum] or [compute_block]
    leaves its buffer: each function returns a value, for any arithmetic.
    ([max_ref] and [compute_block] need nothing of the width:
    [max_ref_total], [compute_block_total].) *)
Theorem workers_read_in_bounds
        {T : Type} `{Double T}
        (m n row : nat) (A : list T) (shared : T)
        (start end_ : nat) (a b : list T) :
  1 <= m -> 1 <= n -> row < m -> m = 1 \/ n = 8 ->
  length A = m * n ->
  start <= end_ -> end_ <= length a -> end_ <= length b ->
  (exists v, MaxNorm.compute_row_max
               {| MaxNorm.row := row; MaxNorm.n := n; MaxNorm.A := A |} shared
             = Some v) /\
  (exists v, MaxNorm.max_ref m n A = Some v) /\
  (exists v, Frobenius.compute_row_sum
               {| Frobenius.row := row; Frobenius.n := n; Frobenius.A := A |}
               shared
             = Some v) /\
  (exists v, DotBlocks.compute_block
               {| DotBlocks.start := start; DotBlocks.end_ := end_;
                  DotBlocks.a := a; DotBlocks.b := b |} shared
             = Some v).
Proof.
  intros Hm Hn Hrow Hw HA _ Ha Hb. repeat split.
  - apply (compute_row_max_total m); assumption.
  - apply max_ref_total; assumption.
  - apply (compute_row_sum_total m); assumption.
  - apply compute_block_total; assumption.
Qed.

Lemma workers_read_in_bounds_witness :
  (exists v, MaxNorm.compute_row_max
               {| MaxNorm.row := 1; MaxNorm.n := 8;
                  MaxNorm.A := count_from 0 16 |} 0%R
             = Some v) /\
  (exists v, MaxNorm.max_ref 2 8 (count_from 0 16) = Some v) /\
  (exists v, Frobenius.compute_row_sum
               {| Frobenius.row := 1; Frobenius.n := 8;
                  Frobenius.A := count_from 0 16 |} 0%R
             = Some v) /\
  (exists v, DotBlocks.compute_block
               {| DotBlocks.start := 3; DotBlocks.end_ := 6;
                  DotBlocks.a := count_from 0 9;
                  DotBlocks.b := count_from 9 9 |} 0%R
             = Some v).
Proof.
  apply (workers_read_in_bounds 2 8 1 (count_from 0 16) 0%R
                                3 6 (count_from 0 9) (count_from 9 9)).
  - lia.
  - lia.
  - lia.
  - right; reflexivity.
  - reflexivity.
  - lia.
  - simpl; lia.
  - simpl; lia.
Defined.

(** C10. The code breaks the claim for the two row workers, by the stride
    slip of [max] and [frobenius]: they index through [double ( *A)[N]]
    whatever the number of columns. In a matrix of two rows and one column,
    the worker of row 1 reads [A[1][0]] eight cells after the start of a
    buffer of two. *)
Lemma row_workers_read_outside_narrow_matrix :
  MaxNorm.compute_row_max
    {| MaxNorm.row := 1; MaxNorm.n := 1; MaxNorm.A := [1; 5]%R |} 1%R = None /\
  Frobenius.compute_row_sum
    {| Frobenius.row := 1; Frobenius.n := 1; Frobenius.A := [1; 5]%R |} 0%R
  = None.
Proof. split; reflexivity. Qed.

(** With at least [N] columns the reads of the row workers stay inside the
    buffer (with more than [N], of the wrong cells, as [A_2x9] shows); they
    leave it only when there are at least two rows of fewer than [N]
    columns. *)
Lemma row_workers_stay_in_wide_matrix
      {T : Type} `{Double T} (m n row : nat) (A : list T) (shared : T) :
  1 <= n -> row < m -> 8 <= n -> length A = m * n ->
  (exists v, MaxNorm.compute_row_max
               {| MaxNorm.row := row; MaxNorm.n := n; MaxNorm.A := A |} shared
             = Some v) /\
  (exists v, Frobenius.compute_row_sum
               {| Frobenius.row := row; Frobenius.n := n; Frobenius.A := A |}
               shared
             = Some v).
Proof.
  intros Hn Hrow Hwide HA.
  assert (Hin : forall j, j < n -> exists x, load2 8 A row j = Some x).
  { intros j Hj. apply load_some. rewrite HA. nia. }
  split.
  - unfold MaxNorm.compute_row_max, MaxNorm.N; simpl.
    destruct (Hin 0) as (a0 & ->); [lia|].
    rewrite for_loop_ofold.
    match goal with
    | |- context [ofold ?step ?l ?s] =>
        destruct (ofold_total step l s) as (v & ->)
    end; [|eauto].
    intros j s Hj. apply in_seq in Hj.
    destruct (Hin j) as (x & ->); [lia|]. eauto.
  - unfold Frobenius.compute_row_sum, Frobenius.N; simpl.
    rewrite for_loop_ofold.
    match goal with
    | |- context [ofold ?step ?l ?s] =>
        destruct (ofold_total step l s) as (v & ->)
    end; [|eauto].
    intros j s Hj. apply in_seq in Hj.
    destruct (Hin j) as (x & ->); [lia|]. eauto.
Qed.

(** ** The checks and the exit codes of the programs *)

Lemma isClose_spec (a b threshold : R) :
  isClose a b threshold = true <-> (Rabs (a - b) < threshold)%R.
Proof.
  unfold isClose; simpl. destruct (Rlt_dec (Rabs (a - b)) threshold).
  - tauto.
  - split; [discriminate | contradiction].
Qed.

Lemma deq_spec (a b : R) : deq a b = true <-> a = b.
Proof.
  simpl. destruct (Req_dec_T a b).
  - tauto.
  - split; [discriminate | contradiction].
Qed.

(** The check of the three programs that sum. *)
Lemma tolerance_report_spec (ref res : R) :
  DotPairs.report ref res = [Str "Résultat correct : OK\n"]
  <-> (Rabs (ref - res) < 1 / 10000)%R.
Proof.
  unfold DotPairs.report.
  rewrite <- (isClose_spec ref res (1 / 10000)%R).
  change (@dtol R Double_R) with (1 / 10000)%R.
  destruct (isClose ref res (1 / 10000)%R).
  - tauto.
  - split; discriminate.
Qed.

(** C7. [isClose(a, b, threshold)] is the strict test [|a - b| < threshold];
    the Frobenius and the two dot-product programs report success exactly
    when it holds with the threshold 0.0001, whereas the max-norm program
    reports success exactly when [ref == res], with no tolerance. *)
Theorem checks_tolerance_and_equality :
  (forall a b threshold : R,
      isClose a b threshold = true <-> (Rabs (a - b) < threshold)%R) /\
  isClose 0%R (1 / 10000)%R (1 / 10000)%R = false /\
  (forall ref res : R,
      Frobenius.report ref res = [Str "Résultat correct : OK\n"]
      <-> (Rabs (ref - res) < 1 / 10000)%R) /\
  (forall ref res : R,
      DotPairs.report ref res = [Str "Résultat correct : OK\n"]
      <-> (Rabs (ref - res) < 1 / 10000)%R) /\
  (forall ref res : R,
      DotBlocks.report ref res = [Str "Résultat correct : OK\n"]
      <-> (Rabs (ref - res) < 1 / 10000)%R) /\
  (forall ref res : R, MaxNorm.report ref res = [Str "OK\n"] <-> ref = res) /\
  MaxNorm.report 0%R (1 / 100000)%R
  = [Str "ERROR: difference between ref and res is above threshold\n"].
Proof.
  pose proof tolerance_report_spec as Hrep.
  split; [exact isClose_spec|]. split.
  - destruct (isClose 0%R (1 / 10000)%R (1 / 10000)%R) eqn:E; [|reflexivity].
    apply isClose_spec in E. exfalso. revert E. Rabs_lra.
  - split; [exact Hrep|]. split; [exact Hrep|]. split; [exact Hrep|]. split.
    + intros ref res. unfold MaxNorm.report. rewrite <- deq_spec.
      destruct (deq ref res).
      * tauto.
      * split; discriminate.
    + unfold MaxNorm.report.
      destruct (deq 0%R (1 / 100000)%R) eqn:E; [|reflexivity].
      apply deq_spec in E. lra.
Qed.

Section Mains.
Context {T : Type} `{Double T}.

Lemma max_main_runs (order : list nat) :
  schedule MaxNorm.M order ->
  exists o ref res,
    MaxNorm.main order = Some (o ++ MaxNorm.report ref res, 0%Z).
Proof.
  intros Hs. unfold MaxNorm.main.
  destruct (initMatrix_total MaxNorm.M MaxNorm.N
              (alloc (MaxNorm.M * MaxNorm.N)) dzero)
    as (A & elem & -> & HA); [apply alloc_length|].
  destruct (printMatrix_total _ _ A HA) as (o & ->).
  destruct (max_ref_total MaxNorm.M MaxNorm.N A) as (ref & ->);
    [unfold MaxNorm.M; lia | unfold MaxNorm.N; lia | assumption|].
  destruct (max_total MaxNorm.M MaxNorm.N A order) as (res & ->);
    [unfold MaxNorm.M; lia | unfold MaxNorm.N; lia | right; reflexivity
    | assumption | assumption |].
  eexists _, ref, res. rewrite !app_assoc. reflexivity.
Qed.

Lemma frobenius_main_runs (order : list nat) :
  schedule Frobenius.M order ->
  exists o ref res,
    Frobenius.main order = Some (o ++ Frobenius.report ref res, 0%Z).
Proof.
  intros Hs. unfold Frobenius.main.
  change (@Frobenius.initMatrix T _) with (@MaxNorm.initMatrix T _).
  change (@Frobenius.printMatrix T) with (@MaxNorm.printMatrix T).
  destruct (initMatrix_total Frobenius.M Frobenius.N
              (alloc (Frobenius.M * Frobenius.N)) dzero)
    as (A & elem & -> & HA); [apply alloc_length|].
  destruct (printMatrix_total _ _ A HA) as (o & ->).
  destruct (frobenius_ref_total Frobenius.M Frobenius.N A HA) as (ref & ->).
  destruct (frobenius_total Frobenius.M Frobenius.N A order) as (res & ->);
    [right; reflexivity | assumption | assumption |].
  eexists _, ref, res. rewrite !app_assoc. reflexivity.
Qed.

Lemma pairs_main_runs (dotprod_ref : nat -> list T -> list T -> T)
      (order : list nat) (a b : list T) (res : T) :
  DotPairs.main_arrays = Some (a, b) ->
  length a = DotPairs.N -> length b = DotPairs.N ->
  DotPairs.dotprod_pairs DotPairs.N a b order = Some res ->
  exists o,
    DotPairs.main dotprod_ref order
    = Some (o ++ [Str "\nProduit scalaire (référence) = ";
                  Dbl (dotprod_ref DotPairs.N a b); Str "\n";
                  Str "Produit scalaire (parallèle) = "; Dbl res; Str "\n"]
              ++ DotPairs.report (dotprod_ref DotPairs.N a b) res, 0%Z).
Proof.
  intros Harr Ha Hb Hres. unfold DotPairs.main. rewrite Harr.
  destruct (printArray_total DotPairs.N a) as (oa & ->); [lia|].
  destruct (printArray_total DotPairs.N b) as (ob & ->); [lia|].
  rewrite Hres. eexists. rewrite !app_assoc. reflexivity.
Qed.

Lemma blocks_main_runs (dotprod_ref : nat -> list T -> list T -> T)
      (order : list nat) (a b : list T) (res : T) :
  DotBlocks.main_arrays = Some (a, b) ->
  length a = DotBlocks.N -> length b = DotBlocks.N ->
  DotBlocks.dotprod_blocks DotBlocks.N DotBlocks.K a b order = Some res ->
  exists o,
    DotBlocks.main dotprod_ref order
    = Some (o ++ [Str "\nProduit scalaire (référence) = ";
                  Dbl (dotprod_ref DotBlocks.N a b); Str "\n";
                  Str "Produit scalaire (parallèle) = "; Dbl res; Str "\n"]
              ++ DotBlocks.report (dotprod_ref DotBlocks.N a b) res, 0%Z).
Proof.
  intros Harr Ha Hb Hres. unfold DotBlocks.main. rewrite Harr.
  change (@DotBlocks.printArray T) with (@DotPairs.printArray T).
  destruct (printArray_total DotBlocks.N a) as (oa & ->); [lia|].
  destruct (printArray_total DotBlocks.N b) as (ob & ->); [lia|].
  rewrite Hres. eexists. rewrite !app_assoc. reflexivity.
Qed.
End Mains.

(** C8. Each of the four programs, whatever the arithmetic, whatever the
    order of its workers and whatever the linked [dotprod_ref] returns, runs
    to its [return 0]: its output ends with the line of its check, success
    or error, and its exit code is 0. *)
Theorem mains_exit_code_zero
        {T : Type} `{Double T}
        (dotprod_ref : nat -> list T -> list T -> T)
        (order_max order_frobenius order_pairs order_blocks : list nat) :
  schedule MaxNorm.M order_max ->
  schedule Frobenius.M order_frobenius ->
  schedule DotPairs.N order_pairs ->
  schedule (DotBlocks.N / DotBlocks.K) order_blocks ->
  (exists o ref res,
      MaxNorm.main order_max = Some (o ++ MaxNorm.report ref res, 0%Z)) /\
  (exists o ref res,
      Frobenius.main order_frobenius
      = Some (o ++ Frobenius.report ref res, 0%Z)) /\
  (exists o ref res,
      DotPairs.main dotprod_ref order_pairs
      = Some (o ++ DotPairs.report ref res, 0%Z)) /\
  (exists o ref res,
      DotBlocks.main dotprod_ref order_blocks
      = Some (o ++ DotBlocks.report ref res, 0%Z)).
Proof.
  intros Hmax Hfrob Hpairs Hblocks. repeat split.
  - apply max_main_runs; assumption.
  - apply frobenius_main_runs; assumption.
  - destruct (dotprod_pairs_total DotPairs.N
                (incrementing dzero 10)
                (incrementing (Nat.iter 10 (fun e => dadd e dunit) dzero) 10)
                order_pairs) as (res & Hres);
      try apply incrementing_length; try assumption.
    destruct (pairs_main_runs dotprod_ref order_pairs _ _ res
                pairs_main_arrays) as (o & E);
      try apply incrementing_length; try assumption.
    rewrite app_assoc in E. eauto.
  - destruct (dotprod_blocks_total DotBlocks.N DotBlocks.K
                (incrementing dzero 9)
                (incrementing (Nat.iter 9 (fun e => dadd e dunit) dzero) 9)
                order_blocks) as (res & Hres);
      try apply incrementing_length; try assumption;
      [unfold DotBlocks.K; lia|].
    destruct (blocks_main_runs dotprod_ref order_blocks _ _ res
                blocks_main_arrays) as (o & E);
      try apply incrementing_length; try assumption.
    rewrite app_assoc in E. eauto.
Qed.

Lemma mains_exit_code_zero_witness :
  (exists o ref res,
      MaxNorm.main (T:=R) [4; 3; 2; 1; 0]
      = Some (o ++ MaxNorm.report ref res, 0%Z)) /\
  (exists o ref res,
      Frobenius.main (T:=R) [4; 3; 2; 1; 0]
      = Some (o ++ Frobenius.report ref res, 0%Z)) /\
  (exists o ref res,
      DotPairs.main (T:=R) (fun _ _ _ => 0%R) [9; 8; 7; 6; 5; 4; 3; 2; 1; 0]
      = Some (o ++ DotPairs.report ref res, 0%Z)) /\
  (exists o ref res,
      DotBlocks.main (T:=R) (fun _ _ _ => 0%R) [2; 1; 0]
      = Some (o ++ DotBlocks.report ref res, 0%Z)).
Proof.
  apply (mains_exit_code_zero (T:=R)).
  - exact (Permutation_sym (Permutation_rev (seq 0 5))).
  - exact (Permutation_sym (Permutation_rev (seq 0 5))).
  - exact (Permutation_sym (Permutation_rev (seq 0 10))).
  - exact (Permutation_sym (Permutation_rev (seq 0 3))).
Defined.

(** ** The runs of the two dot-product programs *)

Section DotRuns.
Open Scope R_scope.

Lemma iter_incr_R (lo : Z) (n : nat) :
  Nat.iter n (fun e : R => dadd e dunit) (IZR lo) = IZR (lo + Z.of_nat n).
Proof.
  induction n as [|n IH].
  - simpl. f_equal. lia.
  - rewrite Nat.iter_succ, IH. simpl dadd. simpl dunit.
    rewrite <- (plus_IZR _ 1). f_equal. lia.
Qed.

Lemma incrementing_R (lo : Z) (n : nat) :
  incrementing (IZR lo) n = count_from lo n.
Proof.
  unfold incrementing, count_from. apply map_ext. intros i.
  apply iter_incr_R.
Qed.

(** In [main], [a] receives 0 .. 9 and [b] receives 10 .. 19. *)
Lemma pairs_arrays_R :
  DotPairs.main_arrays = Some (count_from 0 10, count_from 10 10).
Proof.
  rewrite pairs_main_arrays. change (@dzero R Double_R) with (IZR 0).
  rewrite iter_incr_R, !incrementing_R. reflexivity.
Qed.

(** In [main], [a] receives 0 .. 8 and [b] receives 9 .. 17. *)
Lemma blocks_arrays_R :
  DotBlocks.main_arrays = Some (count_from 0 9, count_from 9 9).
Proof.
  rewrite blocks_main_arrays. change (@dzero R Double_R) with (IZR 0).
  rewrite iter_incr_R, !incrementing_R. reflexivity.
Qed.

Lemma count_from_length (lo : Z) (n : nat) : length (count_from lo n) = n.
Proof. unfold count_from. rewrite length_map, length_seq. reflexivity. Qed.

Lemma pairs_dot_value : dot 10 (count_from 0 10) (count_from 10 10) = 735.
Proof. unfold dot, sigma, count_from, Rlist_sum. simpl. lra. Qed.

Lemma blocks_dot_value : dot 9 (count_from 0 9) (count_from 9 9) = 528.
Proof. unfold dot, sigma, count_from, Rlist_sum. simpl. lra. Qed.

Lemma report_equal_ok (x : R) :
  DotPairs.report x x = [Str "Résultat correct : OK\n"].
Proof.
  apply tolerance_report_spec. Rabs_lra.
Qed.
End DotRuns.

(** C3, as the code has it. In the per-element program the static counter of
    [initArray] is not reset between the two calls: [a] is 0 .. 9 and [b] is
    10 .. 19. Over the reals and for every order of the ten workers, the
    sequential reference and [dotprod_pairs] both give 735, and the program
    prints both values, then its success line, and returns 0. *)
Theorem pairs_program_run (order : list nat) :
  schedule DotPairs.N order ->
  DotPairs.main_arrays = Some (count_from 0 10, count_from 10 10) /\
  dotprod_ref DotPairs.N (count_from 0 10) (count_from 10 10) = 735%R /\
  DotPairs.dotprod_pairs DotPairs.N (count_from 0 10) (count_from 10 10) order
  = Some 735%R /\
  exists o,
    DotPairs.main dotprod_ref order
    = Some (o ++ [Str "\nProduit scalaire (référence) = "; Dbl 735%R;
                  Str "\n";
                  Str "Produit scalaire (parallèle) = "; Dbl 735%R;
                  Str "\n";
                  Str "Résultat correct : OK\n"], 0%Z).
Proof.
  intros Hs.
  assert (Hres : DotPairs.dotprod_pairs DotPairs.N (count_from 0 10)
                   (count_from 10 10) order = Some 735%R).
  { rewrite dotprod_pairs_closed; try apply count_from_length; try assumption.
    unfold DotPairs.N. rewrite pairs_dot_value. reflexivity. }
  assert (Href : dotprod_ref DotPairs.N (count_from 0 10) (count_from 10 10)
                 = 735%R).
  { rewrite dotprod_ref_dot. apply pairs_dot_value. }
  split; [apply pairs_arrays_R|]. split; [exact Href|]. split; [exact Hres|].
  destruct (pairs_main_runs dotprod_ref order _ _ _ pairs_arrays_R
              (count_from_length _ _) (count_from_length _ _) Hres)
    as (o & E).
  rewrite Href, report_equal_ok in E.
  exists o. rewrite E. reflexivity.
Qed.

Lemma pairs_program_run_witness :
  DotPairs.main_arrays = Some (count_from 0 10, count_from 10 10) /\
  dotprod_ref DotPairs.N (count_from 0 10) (count_from 10 10) = 735%R /\
  DotPairs.dotprod_pairs DotPairs.N (count_from 0 10) (count_from 10 10)
                         [9; 8; 7; 6; 5; 4; 3; 2; 1; 0]
  = Some 735%R /\
  exists o,
    DotPairs.main dotprod_ref [9; 8; 7; 6; 5; 4; 3; 2; 1; 0]
    = Some (o ++ [Str "\nProduit scalaire (référence) = "; Dbl 735%R;
                  Str "\n";
                  Str "Produit scalaire (parallèle) = "; Dbl 735%R;
                  Str "\n";
                  Str "Résultat correct : OK\n"], 0%Z).
Proof.
  apply pairs_program_run.
  exact (Permutation_sym (Permutation_rev (seq 0 10))).
Defined.

(** C3 as stated fails: after [main]'s two calls of [initArray] the array [b]
    is not 0 .. 9, and the parallel dot product, here with the workers in
    creation order, is 735 and not 285. *)
Lemma pairs_program_not_285 :
  DotPairs.main_arrays = Some (count_from 0 10, count_from 10 10) /\
  count_from 10 10 <> count_from 0 10 /\
  DotPairs.dotprod_pairs DotPairs.N (count_from 0 10) (count_from 10 10)
                         (seq 0 10)
  = Some 735%R /\
  735%R <> 285%R.
Proof.
  split; [apply pairs_arrays_R|]. split; [|split].
  - intros E. injection E as E0 _. apply eq_IZR in E0. discriminate.
  - rewrite dotprod_pairs_closed; try apply count_from_length;
      [|apply Permutation_refl].
    unfold DotPairs.N. rewrite pairs_dot_value. reflexivity.
  - lra.
Qed.

(** C4, as the code has it. In the block program, [n = 9] and [k = 3], the
    static counter gives [a] = 0 .. 8 and [b] = 9 .. 17. Over the reals and
    for every order of the three workers, [dotprod_blocks] returns 528, the
    value of the sequential reference. *)
Theorem blocks_program_run (order : list nat) :
  schedule (DotBlocks.N / DotBlocks.K) order ->
  DotBlocks.main_arrays = Some (count_from 0 9, count_from 9 9) /\
  DotBlocks.dotprod_blocks DotBlocks.N DotBlocks.K
                           (count_from 0 9) (count_from 9 9) order
  = Some 528%R /\
  dotprod_ref DotBlocks.N (count_from 0 9) (count_from 9 9) = 528%R /\
  exists o,
    DotBlocks.main dotprod_ref order
    = Some (o ++ [Str "\nProduit scalaire (référence) = "; Dbl 528%R;
                  Str "\n";
                  Str "Produit scalaire (parallèle) = "; Dbl 528%R;
                  Str "\n";
                  Str "Résultat correct : OK\n"], 0%Z).
Proof.
  intros Hs.
  assert (Hres : DotBlocks.dotprod_blocks DotBlocks.N DotBlocks.K
                   (count_from 0 9) (count_from 9 9) order = Some 528%R).
  { rewrite dotprod_blocks_closed; try apply count_from_length;
      try assumption; [|unfold DotBlocks.K; lia].
    change (DotBlocks.N / DotBlocks.K * DotBlocks.K) with 9.
    rewrite blocks_dot_value. reflexivity. }
  assert (Href : dotprod_ref DotBlocks.N (count_from 0 9) (count_from 9 9)
                 = 528%R).
  { rewrite dotprod_ref_dot. apply blocks_dot_value. }
  split; [apply blocks_arrays_R|]. split; [exact Hres|]. split; [exact Href|].
  destruct (blocks_main_runs dotprod_ref order _ _ _ blocks_arrays_R
              (count_from_length _ _) (count_from_length _ _) Hres)
    as (o & E).
  change (@DotBlocks.report R Double_R) with (@DotPairs.report R Double_R) in E.
  rewrite Href, report_equal_ok in E.
  exists o. rewrite E. reflexivity.
Qed.

Lemma blocks_program_run_witness :
  DotBlocks.main_arrays = Some (count_from 0 9, count_from 9 9) /\
  DotBlocks.dotprod_blocks DotBlocks.N DotBlocks.K
                           (count_from 0 9) (count_from 9 9) [1; 2; 0]
  = Some 528%R /\
  dotprod_ref DotBlocks.N (count_from 0 9) (count_from 9 9) = 528%R /\
  exists o,
    DotBlocks.main dotprod_ref [1; 2; 0]
    = Some (o ++ [Str "\nProduit scalaire (référence) = "; Dbl 528%R;
                  Str "\n";
                  Str "Produit scalaire (parallèle) = "; Dbl 528%R;
                  Str "\n";
                  Str "Résultat correct : OK\n"], 0%Z).
Proof.
  apply blocks_program_run.
  change (Permutation [1; 2; 0] [0; 1; 2]).
  apply perm_trans with (l' := [1; 0; 2]); [apply perm_skip|]; apply perm_swap.
Defined.

(** C4 as stated fails: the array [b] of the block program is 9 .. 17, not
    0 .. 8, and [dotprod_blocks], here with the workers in creation order,
    returns 528 and not 204. *)
Lemma blocks_program_not_204 :
  DotBlocks.main_arrays = Some (count_from 0 9, count_from 9 9) /\
  count_from 9 9 <> count_from 0 9 /\
  DotBlocks.dotprod_blocks DotBlocks.N DotBlocks.K
                           (count_from 0 9) (count_from 9 9) (seq 0 3)
  = Some 528%R /\
  528%R <> 204%R.
Proof.
  split; [apply blocks_arrays_R|]. split; [|split].
  - intros E. injection E as E0 _. apply eq_IZR in E0. discriminate.
  - rewrite dotprod_blocks_closed; try apply count_from_length;
      [| unfold DotBlocks.K; lia | apply Permutation_refl].
    change (DotBlocks.N / DotBlocks.K * DotBlocks.K) with 9.
    rewrite blocks_dot_value. reflexivity.
  - lra.
Qed.

(** With five elements in blocks of two, the fifth is left out: the result
    is 10 where the dot product is 15; with blocks larger than the vectors
    there is no worker at all. *)
Lemma dotprod_blocks_drops_tail :
  DotBlocks.dotprod_blocks 5 2 [1; 2; 3; 4; 5]%R [1; 1; 1; 1; 1]%R [1; 0]
  = Some 10%R /\
  dot 5 [1; 2; 3; 4; 5]%R [1; 1; 1; 1; 1]%R = 15%R /\
  DotBlocks.dotprod_blocks 2 3 [1; 2]%R [1; 2]%R [] = Some 0%R.
Proof.
  split; [|split].
  - rewrite dotprod_blocks_closed; try reflexivity; [|lia|apply perm_swap].
    f_equal. unfold dot, sigma, Rlist_sum. simpl. lra.
  - unfold dot, sigma, Rlist_sum. simpl. lra.
  - reflexivity.
Qed.

(** * Further properties of the programs *)

(** ** The initialisers *)

Section Initialisers.
Context {T : Type} `{Double T}.

(** A fold fails as soon as one of its indices always fails, in the states
    that the steps before it can produce. *)
Lemma ofold_fails {S : Type} (P : S -> Prop) (step : nat -> S -> option S)
      (i : nat) (l : list nat) (s : S) :
  P s ->
  (forall k s s', P s -> step k s = Some s' -> P s') ->
  (forall s, P s -> step i s = None) ->
  In i l -> ofold step l s = None.
Proof.
  intros Hs Hpres Hfail. revert s Hs.
  induction l as [|k l IH]; intros s Hs Hin; [destruct Hin|].
  rewrite ofold_cons. destruct (step k s) as [s'|] eqn:E; [|reflexivity].
  destruct Hin as [-> | Hin].
  - rewrite (Hfail s Hs) in E. discriminate.
  - apply IH; [eapply Hpres; eassumption | assumption].
Qed.

Lemma store_none (buf : list T) (k : nat) (v : T) :
  length buf <= k -> store buf k v = None.
Proof.
  revert k; induction buf as [|x tl IH]; intros k Hk; [reflexivity|].
  destruct k as [|k]; simpl in *; [lia|]. rewrite IH by lia. reflexivity.
Qed.

Lemma store_length (buf buf' : list T) (k : nat) (v : T) :
  store buf k v = Some buf' -> length buf' = length buf.
Proof.
  revert k buf'; induction buf as [|x tl IH]; intros k buf' E;
    [discriminate|].
  destruct k as [|k]; simpl in E.
  - injection E as <-. reflexivity.
  - destruct (store tl k v) as [tl'|] eqn:E'; [|discriminate].
    injection E as <-. simpl. f_equal. eapply IH; eassumption.
Qed.

Lemma incrementing_app (elem : T) (n1 n2 : nat) :
  incrementing elem (n1 + n2)
  = incrementing elem n1
    ++ incrementing (Nat.iter n1 (fun e => dadd e dunit) elem) n2.
Proof.
  revert elem; induction n1 as [|n1 IH]; intros elem; [reflexivity|].
  cbn [Nat.add]. rewrite !incrementing_S, IH, Nat.iter_succ_r. reflexivity.
Qed.

(** X1. [initArray] called with an array of [n] cells overwrites all of
    them, whatever they held, with the [n] values counted up from the static
    [elem], and leaves the static [n] increments further; this holds for
    the [initArray] of both dot-product programs and for any arithmetic. *)
Theorem initArray_counts_up (n : nat) (a a' : list T) (elem : T) :
  length a = n -> length a' = n ->
  DotPairs.initArray n a elem
  = Some (incrementing elem n, Nat.iter n (fun e => dadd e dunit) elem) /\
  DotBlocks.initArray n a elem = DotPairs.initArray n a elem /\
  DotPairs.initArray n a' elem = DotPairs.initArray n a elem /\
  length (incrementing elem n) = n.
Proof.
  intros Ha Ha'. split; [|split; [|split]].
  - apply initArray_closed; assumption.
  - reflexivity.
  - rewrite !initArray_closed by assumption. reflexivity.
  - apply incrementing_length.
Qed.

(** X2. Two calls of [initArray] in a row continue one count: the second
    array starts where the first stopped, so the two arrays together hold
    the [n1 + n2] values counted up from the static's first value. *)
Theorem initArray_twice_continues (n1 n2 : nat) (a b : list T) (elem : T) :
  length a = n1 -> length b = n2 ->
  exists a1 elem1 b1 elem2,
    DotPairs.initArray n1 a elem = Some (a1, elem1) /\
    DotPairs.initArray n2 b elem1 = Some (b1, elem2) /\
    a1 ++ b1 = incrementing elem (n1 + n2) /\
    elem2 = Nat.iter (n1 + n2) (fun e => dadd e dunit) elem.
Proof.
  intros Ha Hb.
  exists (incrementing elem n1), (Nat.iter n1 (fun e => dadd e dunit) elem).
  exists (incrementing (Nat.iter n1 (fun e => dadd e dunit) elem) n2).
  exists (Nat.iter n2 (fun e => dadd e dunit)
            (Nat.iter n1 (fun e => dadd e dunit) elem)).
  split; [apply initArray_closed; assumption|].
  split; [apply initArray_closed; assumption|].
  split; [symmetry; apply incrementing_app|].
  rewrite (Nat.add_comm n1 n2). symmetry. apply Nat.iter_add.
Qed.

(** X3. [initArray] asked for more cells than the array has writes past its
    end: the write at index [length a] is outside the buffer. *)
Theorem initArray_short_array (n : nat) (a : list T) (elem : T) :
  length a < n ->
  DotPairs.initArray n a elem = None /\ store a (length a) elem = None.
Proof.
  intros Hlt. split; [|apply store_none; lia].
  unfold DotPairs.initArray. rewrite for_loop_ofold, Nat.sub_0_r.
  apply (ofold_fails (fun st => length (fst st) = length a) _ (length a)).
  - reflexivity.
  - intros k (a0 & e0) (a1 & e1) L E. simpl in *.
    destruct (store a0 k e0) as [a2|] eqn:E2; [|discriminate].
    injection E as <- _. rewrite (store_length _ _ _ _ E2). assumption.
  - intros (a0 & e0) L. simpl in L.
    rewrite store_none by lia. reflexivity.
  - apply in_seq. lia.
Qed.

(** The inner loop of [initMatrix] on row [i], with [pre] before the row
    and [post] after it. *)
Lemma initMatrix_row_loop (n i : nat) (pre row post : list T) (elem : T) :
  length pre = i * n -> length row = n ->
  for_loop 0 n
    (fun j '(A, elem) =>
       A' <- store2 n A i j elem ;; Some (A', dadd elem dunit))
    (pre ++ row ++ post, elem)
  = Some (pre ++ incrementing elem n ++ post,
          Nat.iter n (fun e => dadd e dunit) elem).
Proof.
  intros Hpre Hrow. unfold for_loop. rewrite Nat.sub_0_r.
  assert (G : forall (row done : list T) (elem : T),
             length done + length row = n ->
             iterate
               (fun j '(A, elem) =>
                  A' <- store2 n A i j elem ;; Some (A', dadd elem dunit))
               (length done) (length row)
               ((pre ++ done) ++ row ++ post, elem)
             = Some ((pre ++ done) ++ incrementing elem (length row) ++ post,
                     Nat.iter (length row) (fun e => dadd e dunit) elem)).
  { clear row Hrow elem. intros row.
    induction row as [|x row IH]; intros done elem Hlen; [reflexivity|].
    cbn [length iterate]. unfold store2.
    replace (i * n + length done) with (length (pre ++ done))
      by (rewrite length_app; lia).
    cbn [app]. rewrite store_app.
    replace ((pre ++ done) ++ elem :: row ++ post)
      with ((pre ++ done ++ [elem]) ++ row ++ post)
      by (rewrite <- !app_assoc; reflexivity).
    replace (S (length done)) with (length (done ++ [elem]))
      by (rewrite length_app; simpl; lia).
    rewrite IH by (rewrite length_app; simpl in *; lia).
    rewrite incrementing_S, Nat.iter_succ_r. f_equal. f_equal.
    rewrite <- !app_assoc. reflexivity. }
  specialize (G row [] elem). rewrite app_nil_r, Hrow in G.
  apply G. simpl. lia.
Qed.

Lemma initMatrix_closed (m n : nat) (A : list T) (elem : T) :
  length A = m * n ->
  MaxNorm.initMatrix m n A elem
  = Some (incrementing elem (m * n),
          Nat.iter (m * n) (fun e => dadd e dunit) elem).
Proof.
  intros HA.
  unfold MaxNorm.initMatrix. unfold for_loop at 1. rewrite Nat.sub_0_r.
  assert (G : forall (cnt : nat) (pre rest : list T) (i : nat) (elem : T),
             length pre = i * n -> length rest = cnt * n ->
             iterate
               (fun i st =>
                  for_loop 0 n
                    (fun j '(A, elem) =>
                       A' <- store2 n A i j elem ;;
                       Some (A', dadd elem dunit)) st)
               i cnt (pre ++ rest, elem)
             = Some (pre ++ incrementing elem (cnt * n),
                     Nat.iter (cnt * n) (fun e => dadd e dunit) elem)).
  { induction cnt as [|cnt IH]; intros pre rest i e Hpre Hrest.
    - destruct rest; [|discriminate]. reflexivity.
    - cbn [iterate].
      rewrite <- (firstn_skipn n rest).
      rewrite (initMatrix_row_loop n i pre (firstn n rest) (skipn n rest) e)
        by (try assumption; rewrite length_firstn; simpl in Hrest; lia).
      rewrite app_assoc.
      rewrite IH.
      + cbn [Nat.mul]. rewrite incrementing_app, app_assoc.
        f_equal. f_equal. symmetry.
        rewrite (Nat.add_comm n (cnt * n)). apply Nat.iter_add.
      + rewrite length_app, incrementing_length. simpl. lia.
      + rewrite length_skipn. simpl in Hrest. lia. }
  apply (G m [] A 0 elem); [reflexivity | assumption].
Qed.

(** X4. [initMatrix] fills the [m * n] cells in row-major order with one
    count: the matrix it leaves is the array [initArray] leaves in a buffer
    of [m * n] cells, so [A[i][j]] is the static's value incremented
    [i * n + j] times. *)
Theorem initMatrix_row_major (m n : nat) (A : list T) (elem : T) :
  length A = m * n ->
  MaxNorm.initMatrix m n A elem
  = Some (incrementing elem (m * n),
          Nat.iter (m * n) (fun e => dadd e dunit) elem) /\
  Frobenius.initMatrix m n A elem = MaxNorm.initMatrix m n A elem /\
  MaxNorm.initMatrix m n A elem = DotPairs.initArray (m * n) A elem.
Proof.
  intros HA. pose proof (initMatrix_closed m n A elem HA) as E.
  split; [exact E|]. split; [reflexivity|].
  rewrite E. symmetry. apply initArray_closed. assumption.
Qed.
End Initialisers.

Lemma initArray_counts_up_witness :
  DotPairs.initArray 3 [7; 7; 7]%R 4%R
  = Some (incrementing 4%R 3, Nat.iter 3 (fun e => dadd e dunit) 4%R) /\
  DotBlocks.initArray 3 [7; 7; 7]%R 4%R = DotPairs.initArray 3 [7; 7; 7]%R 4%R /\
  DotPairs.initArray 3 [0; 1; 2]%R 4%R = DotPairs.initArray 3 [7; 7; 7]%R 4%R /\
  length (incrementing 4%R 3) = 3.
Proof.
  apply (initArray_counts_up 3 [7; 7; 7]%R [0; 1; 2]%R 4%R); reflexivity.
Defined.

Lemma initArray_twice_continues_witness :
  exists a1 elem1 b1 elem2,
    DotPairs.initArray 2 [7; 7]%R 0%R = Some (a1, elem1) /\
    DotPairs.initArray 3 [7; 7; 7]%R elem1 = Some (b1, elem2) /\
    a1 ++ b1 = incrementing 0%R (2 + 3) /\
    elem2 = Nat.iter (2 + 3) (fun e => dadd e dunit) 0%R.
Proof.
  apply (initArray_twice_continues 2 3 [7; 7]%R [7; 7; 7]%R 0%R); reflexivity.
Defined.

Lemma initArray_short_array_witness :
  DotPairs.initArray 3 [7; 7]%R 0%R = None /\
  store [7; 7]%R (length [7; 7]%R) 0%R = None.
Proof.
  apply (initArray_short_array 3 [7; 7]%R 0%R). simpl; lia.
Defined.

Lemma initMatrix_row_major_witness :
  MaxNorm.initMatrix 2 3 (alloc 6) 0%R
  = Some (incrementing 0%R (2 * 3),
          Nat.iter (2 * 3) (fun e => dadd e dunit) 0%R) /\
  Frobenius.initMatrix 2 3 (alloc 6) 0%R = MaxNorm.initMatrix 2 3 (alloc 6) 0%R /\
  MaxNorm.initMatrix 2 3 (alloc 6) 0%R = DotPairs.initArray (2 * 3) (alloc 6) 0%R.
Proof.
  apply (initMatrix_row_major 2 3 (alloc 6) 0%R). reflexivity.
Defined.

(** ** Printing *)

Section Printing.
Context {T : Type} `{Double T}.

Lemma ofold_append {X : Type} (step : nat -> list X -> option (list X))
      (f : nat -> list X) (l : list nat) (o : list X) :
  (forall i o, In i l -> step i o = Some (o ++ f i)) ->
  ofold step l o = Some (o ++ concat (map f l)).
Proof.
  revert o; induction l as [|i l IH]; intros o Hstep.
  - simpl. rewrite app_nil_r. reflexivity.
  - rewrite ofold_cons, Hstep by (left; reflexivity).
    rewrite IH by (intros; apply Hstep; right; assumption).
    simpl. rewrite <- app_assoc. reflexivity.
Qed.

Lemma map_nth_seq (a : list T) (n : nat) (d : T) :
  n <= length a -> map (fun i => nth i a d) (seq 0 n) = firstn n a.
Proof.
  revert a; induction n as [|n IH]; intros a Hn; [reflexivity|].
  destruct a as [|x a]; simpl in Hn; [lia|].
  cbn [seq map firstn nth]. f_equal.
  rewrite <- seq_shift, map_map. apply IH. lia.
Qed.

(** The loop that prints [n] cells of [a], started after [o]. *)
Lemma print_loop (n : nat) (a : list T) (o : list (out T)) :
  n <= length a ->
  for_loop 0 n (fun i o => x <- load a i ;; Some (o ++ [Dbl x; Str " "])) o
  = Some (o ++ printed (firstn n a)).
Proof.
  intros Hn. rewrite for_loop_ofold, Nat.sub_0_r.
  rewrite (ofold_append _ (fun i => [Dbl (nth i a dzero); Str " "])).
  - unfold printed. rewrite <- (map_nth_seq a n dzero Hn), map_map.
    reflexivity.
  - intros i o' Hi. apply in_seq in Hi.
    rewrite (load_nth a i dzero) by lia. reflexivity.
Qed.

(** X5. [printArray(n, a)] writes the first [n] values of [a] in order,
    each followed by a space, then a newline; asked for more values than
    [a] has, it reads past the end of the array. The [printArray] of the
    two dot-product programs are the same function. *)
Theorem printArray_prints_prefix (n : nat) (a : list T) :
  DotPairs.printArray n a
  = (if n <=? length a
     then Some (printed (firstn n a) ++ [Str "\n"])
     else None) /\
  DotBlocks.printArray n a = DotPairs.printArray n a.
Proof.
  split; [|reflexivity].
  unfold DotPairs.printArray. destruct (Nat.leb_spec n (length a)) as [Hle | Hgt].
  - rewrite print_loop by assumption. reflexivity.
  - rewrite for_loop_ofold, Nat.sub_0_r.
    rewrite (ofold_fails (fun _ => True) _ (length a)); auto.
    + intros o _. unfold load.
      rewrite (proj2 (nth_error_None a (length a))) by lia. reflexivity.
    + apply in_seq. lia.
Qed.

Lemma matrix_row_length (m n i : nat) (A : list T) :
  length A = m * n -> i < m -> length (matrix_row n A i) = n.
Proof.
  intros HA Hi. unfold matrix_row.
  rewrite length_firstn, length_skipn, HA. nia.
Qed.

(** X6. [printMatrix] writes the matrix row by row: for each row in turn,
    exactly what [printArray] writes for the [n] values of that row. *)
Theorem printMatrix_prints_rows (m n : nat) (A : list T) :
  length A = m * n ->
  MaxNorm.printMatrix m n A
  = Some (concat (map (fun i => printed (matrix_row n A i) ++ [Str "\n"])
                      (seq 0 m))) /\
  Frobenius.printMatrix m n A = MaxNorm.printMatrix m n A /\
  forall i, i < m ->
    DotPairs.printArray n (matrix_row n A i)
    = Some (printed (matrix_row n A i) ++ [Str "\n"]).
Proof.
  intros HA. split; [|split; [reflexivity|]].
  - unfold MaxNorm.printMatrix. rewrite for_loop_ofold, Nat.sub_0_r.
    rewrite (ofold_append _
               (fun i => printed (matrix_row n A i) ++ [Str "\n"])).
    + reflexivity.
    + intros i o Hi. apply in_seq in Hi.
      rewrite for_loop_ofold, Nat.sub_0_r.
      rewrite (ofold_append _
                 (fun j => [Dbl (nth j (matrix_row n A i) dzero); Str " "])).
      * assert (Hrow : map (fun j => nth j (matrix_row n A i) dzero) (seq 0 n)
                       = matrix_row n A i).
        { rewrite map_nth_seq by (rewrite (matrix_row_length m); lia).
          apply firstn_all2. rewrite (matrix_row_length m); lia. }
        assert (Hp : printed (matrix_row n A i)
                     = concat (map (fun j => [Dbl (nth j (matrix_row n A i)
                                                       dzero); Str " "])
                                   (seq 0 n))).
        { unfold printed. rewrite <- Hrow at 1. rewrite map_map.
          reflexivity. }
        rewrite Hp, <- app_assoc. reflexivity.
      * intros j o' Hj. apply in_seq in Hj. unfold load2.
        rewrite (load_nth A _ dzero)
          by (rewrite HA; apply cell_in_matrix; lia).
        unfold matrix_row.
        rewrite nth_firstn, nth_skipn.
        destruct (Nat.ltb_spec j n); [reflexivity | lia].
  - intros i Hi. unfold DotPairs.printArray.
    rewrite print_loop by (rewrite (matrix_row_length m); lia).
    rewrite firstn_all2 by (rewrite (matrix_row_length m); lia).
    reflexivity.
Qed.
End Printing.

Lemma printMatrix_prints_rows_witness :
  MaxNorm.printMatrix 2 3 (count_from 0 6)
  = Some (concat (map (fun i => printed (matrix_row 3 (count_from 0 6) i)
                                  ++ [Str "\n"])
                      (seq 0 2))) /\
  Frobenius.printMatrix 2 3 (count_from 0 6)
  = MaxNorm.printMatrix 2 3 (count_from 0 6) /\
  forall i, i < 2 ->
    DotPairs.printArray 3 (matrix_row 3 (count_from 0 6) i)
    = Some (printed (matrix_row 3 (count_from 0 6) i) ++ [Str "\n"]).
Proof.
  apply (printMatrix_prints_rows 2 3 (count_from 0 6)). reflexivity.
Defined.

(** ** Runs and schedules *)

(** X10. The runs of the threads created for [0 .. m-1] that reach the join
    are exactly the schedules: such a run that leaves [v] in the shared
    variable, its critical sections having been executed in the order
    [log], exists if and only if [log] is a permutation of [0 .. m-1] and
    [run_threads] along [log] gives [v]. *)
Theorem joined_runs_are_schedules {D S : Type}
        (start_routine : D -> S -> option S) (mk : nat -> D) (m : nat)
        (shared0 : S) (log : list nat) (v : option S) :
  (exists w,
      runs start_routine (map mk (seq 0 m)) shared0 log w /\
      joined (map mk (seq 0 m)) w /\ value w = v)
  <->
  (schedule m log /\
   run_threads start_routine (map mk (seq 0 m)) log shared0 = v).
Proof.
  split.
  - intros (w & Hr & Hj & Hv).
    destruct (joined_run_of_created_threads _ _ _ _ _ _ Hr Hj) as (Hs & E).
    split; [assumption | congruence].
  - intros (Hs & Hv).
    destruct (schedule_is_joined_run start_routine (map mk (seq 0 m))
                shared0 log) as (w & Hr & Hj & E).
    { rewrite length_map, length_seq. assumption. }
    exists w. split; [assumption|]. split; [assumption | congruence].
Qed.

(** ** The reductions, interleaving by interleaving *)

(** X11. However the lock, update and unlock steps of the row workers of
    [max] interleave, once all of them are joined the shared maximum,
    started at [A[0][0]], holds the largest [|A[i][j]|]; as for the
    function, the matrix has [N] = 8 columns or one row. *)
Theorem max_any_interleaving
        (m n : nat) (A : list R) (log : list nat) (w : pool R) :
  1 <= m -> 1 <= n -> m = 1 \/ n = MaxNorm.N -> length A = m * n ->
  runs MaxNorm.compute_row_max
       (map (fun i => {| MaxNorm.row := i; MaxNorm.n := n; MaxNorm.A := A |})
            (seq 0 m))
       (entry n A 0 0) log w ->
  joined (map (fun i => {| MaxNorm.row := i; MaxNorm.n := n;
                           MaxNorm.A := A |}) (seq 0 m)) w ->
  exists v, value w = Some v /\ is_max_abs m n A v.
Proof.
  intros Hm Hn Hw HA Hr Hj.
  destruct (joined_run_of_created_threads _ _ _ _ _ _ Hr Hj) as (Hs & Hv).
  pose proof (max_closed m n A log Hm Hn Hw HA Hs) as E.
  unfold MaxNorm.max, load2 in E.
  rewrite (load_nth A _ 0%R) in E by (rewrite HA; nia).
  fold (entry n A 0 0) in E. rewrite Hv, E.
  eexists; split; [reflexivity|].
  apply rows_maximum_is_max_abs; assumption.
Qed.

Lemma max_any_interleaving_witness :
  exists v,
    value
      (unlock 0
         (update MaxNorm.compute_row_max 0
            {| MaxNorm.row := 0; MaxNorm.n := 8;
               MaxNorm.A := count_from (-8) 16 |}
            (lock 0
               (unlock 1
                  (update MaxNorm.compute_row_max 1
                     {| MaxNorm.row := 1; MaxNorm.n := 8;
                        MaxNorm.A := count_from (-8) 16 |}
                     (lock 1
                        (pool_init (entry 8 (count_from (-8) 16) 0 0))))))))
    = Some v
    /\ is_max_abs 2 8 (count_from (-8) 16) v.
Proof.
  apply (max_any_interleaving 2 8 (count_from (-8) 16) [1; 0]).
  - lia.
  - lia.
  - right; reflexivity.
  - reflexivity.
  - eapply runs_step;
      [eapply runs_step;
       [eapply runs_step;
        [eapply runs_step;
         [eapply runs_step; [eapply runs_step; [apply runs_init|]|]|]|]|]|].
    + apply (step_lock _ _ [] _ 1); [reflexivity | reflexivity | simpl; lia].
    + apply (step_update _ _ [] _ 1); reflexivity.
    + apply (step_unlock _ _ [1] _ 1); reflexivity.
    + apply (step_lock _ _ [1] _ 0); [reflexivity | reflexivity | simpl; lia].
    + apply (step_update _ _ [1] _ 0); reflexivity.
    + apply (step_unlock _ _ [1; 0] _ 0); reflexivity.
  - intros i Hi. destruct i as [|[|i]]; [reflexivity | reflexivity |].
    simpl in Hi. lia.
Defined.

(** X12. However the steps of the per-element workers of [dotprod_pairs]
    interleave, once all of them are joined the shared sum, started at 0,
    holds the sum of the [a[i] * b[i]], [i < n]. *)
Theorem dotprod_pairs_any_interleaving
        (n : nat) (a b : list R) (log : list nat) (w : pool R) :
  length a = n -> length b = n ->
  runs DotPairs.compute_product
       (map (fun i => {| DotPairs.index := i; DotPairs.a := a;
                         DotPairs.b := b |}) (seq 0 n))
       0%R log w ->
  joined (map (fun i => {| DotPairs.index := i; DotPairs.a := a;
                           DotPairs.b := b |}) (seq 0 n)) w ->
  value w = Some (dot n a b).
Proof.
  intros Ha Hb Hr Hj.
  destruct (joined_run_of_created_threads _ _ _ _ _ _ Hr Hj) as (Hs & Hv).
  rewrite Hv. apply (dotprod_pairs_closed n a b log Ha Hb Hs).
Qed.

Lemma dotprod_pairs_any_interleaving_witness :
  value
    (unlock 1
       (update DotPairs.compute_product 1
          {| DotPairs.index := 1; DotPairs.a := [2; 3; 4]%R;
             DotPairs.b := [5; 6; 7]%R |}
          (lock 1
             (unlock 0
                (update DotPairs.compute_product 0
                   {| DotPairs.index := 0; DotPairs.a := [2; 3; 4]%R;
                      DotPairs.b := [5; 6; 7]%R |}
                   (lock 0
                      (unlock 2
                         (update DotPairs.compute_product 2
                            {| DotPairs.index := 2; DotPairs.a := [2; 3; 4]%R;
                               DotPairs.b := [5; 6; 7]%R |}
                            (lock 2 (pool_init 0%R))))))))))
  = Some (dot 3 [2; 3; 4]%R [5; 6; 7]%R).
Proof.
  apply (dotprod_pairs_any_interleaving 3 [2; 3; 4]%R [5; 6; 7]%R [2; 0; 1]).
  - reflexivity.
  - reflexivity.
  - eapply runs_step;
      [eapply runs_step;
       [eapply runs_step;
        [eapply runs_step;
         [eapply runs_step;
          [eapply runs_step;
           [eapply runs_step;
            [eapply runs_step;
             [eapply runs_step; [apply runs_init|]|]|]|]|]|]|]|]|].
    + apply (step_lock _ _ [] _ 2); [reflexivity | reflexivity | simpl; lia].
    + apply (step_update _ _ [] _ 2); reflexivity.
    + apply (step_unlock _ _ [2] _ 2); reflexivity.
    + apply (step_lock _ _ [2] _ 0); [reflexivity | reflexivity | simpl; lia].
    + apply (step_update _ _ [2] _ 0); reflexivity.
    + apply (step_unlock _ _ [2; 0] _ 0); reflexivity.
    + apply (step_lock _ _ [2; 0] _ 1);
        [reflexivity | reflexivity | simpl; lia].
    + apply (step_update _ _ [2; 0] _ 1); reflexivity.
    + apply (step_unlock _ _ [2; 0; 1] _ 1); reflexivity.
  - intros i Hi. destruct i as [|[|[|i]]]; try reflexivity.
    simpl in Hi. lia.
Defined.

(** ** What the two max functions can return *)

Section MaxValues.
Context {T : Type} `{Double T}.

Lemma ofold_preserves {S : Type} (P : S -> Prop)
      (step : nat -> S -> option S) (l : list nat) (s s' : S) :
  (forall i s s', P s -> step i s = Some s' -> P s') ->
  P s -> ofold step l s = Some s' -> P s'.
Proof.
  intros Hpres. revert s; induction l as [|i l IH]; intros s Hs E.
  - rewrite ofold_nil in E. injection E as <-. assumption.
  - rewrite ofold_cons in E. destruct (step i s) as [s1|] eqn:E1;
      [|discriminate].
    eapply IH; [eapply Hpres; eassumption | eassumption].
Qed.

(** X13. Whatever the matrix and the arithmetic, the value [max_ref]
    returns is one of the entries of the matrix, sign included: it starts
    from [A[0][0]] and only ever stores an [A[i][j]]. *)
Theorem max_ref_returns_an_entry (m n : nat) (A : list T) (v : T) :
  MaxNorm.max_ref m n A = Some v -> In v A.
Proof.
  unfold MaxNorm.max_ref, load2. intros E.
  destruct (load A (0 * n + 0)) as [a00|] eqn:E0; [|discriminate].
  rewrite for_loop_ofold in E.
  apply (ofold_preserves (fun s => In s A)) in E;
    [assumption | | apply (nth_error_In _ _ E0)].
  intros i s s' Hs Ei. rewrite for_loop_ofold in Ei.
  apply (ofold_preserves (fun s => In s A)) in Ei; [assumption | | assumption].
  intros j s1 s2 Hs1 Ej.
  destruct (load A (i * n + j)) as [x|] eqn:Ex; [|discriminate].
  injection Ej as <-. destruct (dgt (fabs x) s1); [|assumption].
  apply (nth_error_In _ _ Ex).
Qed.

(** X14. Whatever the matrix, the schedule and the arithmetic, the value
    the parallel [max] returns is [A[0][0]] itself or the absolute value
    of a cell of the buffer. *)
Theorem max_returns_a_cell (m n : nat) (A : list T) (order : list nat) (v : T) :
  MaxNorm.max m n A order = Some v ->
  load2 n A 0 0 = Some v \/ exists x, In x A /\ v = fabs x.
Proof.
  unfold MaxNorm.max. intros E.
  destruct (load2 n A 0 0) as [a00|] eqn:E0; [|discriminate].
  rewrite run_threads_ofold in E.
  apply (ofold_preserves
           (fun s => Some a00 = Some s \/ exists x, In x A /\ s = fabs x))
    in E; [assumption | | left; reflexivity].
  intros i s s' Hs Ei.
  destruct (nth_error _ i) as [data|] eqn:Ed; [|discriminate].
  apply nth_error_In, in_map_iff in Ed. destruct Ed as (k & <- & _).
  unfold MaxNorm.compute_row_max in Ei; simpl in Ei.
  destruct (load2 MaxNorm.N A k 0) as [a0|] eqn:Ea; [|discriminate].
  rewrite for_loop_ofold in Ei.
  match type of Ei with
  | context [ofold ?step ?l ?s0] =>
      destruct (ofold step l s0) as [local|] eqn:El; [|discriminate]
  end.
  apply (ofold_preserves (fun s => exists x, In x A /\ s = fabs x)) in El.
  - injection Ei as <-. destruct (dgt local s); [right|]; assumption.
  - intros j s1 s2 Hs1 Ej.
    destruct (load2 MaxNorm.N A k j) as [x|] eqn:Ex; [|discriminate].
    injection Ej as <-. destruct (dgt (fabs x) s1); [|assumption].
    exists x. split; [apply (nth_error_In _ _ Ex) | reflexivity].
  - exists a0. split; [apply (nth_error_In _ _ Ea) | reflexivity].
Qed.
End MaxValues.

Lemma max_ref_returns_an_entry_witness : In (-3)%R [1; -3]%R.
Proof.
  apply (max_ref_returns_an_entry 1 2 [1; -3]%R (-3)%R).
  unfold MaxNorm.max_ref, for_loop, load2, load.
  cbn [iterate Nat.sub Nat.mul Nat.add nth_error].
  rewrite (dgt_false (fabs 1%R) 1%R) by Rabs_lra.
  rewrite dgt_true by Rabs_lra. reflexivity.
Defined.

Lemma max_returns_a_cell_witness :
  load2 2 [5; 2]%R 0 0 = Some 5%R \/ exists x, In x [5; 2]%R /\ 5%R = fabs x.
Proof.
  apply (max_returns_a_cell 1 2 [5; 2]%R [0] 5%R).
  rewrite (max_closed 1 2 [5; 2]%R [0] ltac:(lia) ltac:(lia)
             (or_introl eq_refl) eq_refl (Permutation_refl _)).
  unfold Rmax_fold, row_max_cells, Rmax_fold, entry; simpl. f_equal.
  replace (Rabs 5) with 5%R by Rabs_lra.
  replace (Rabs 2) with 2%R by Rabs_lra.
  rewrite (Rmax_left 5 2) by lra. apply Rmax_left. lra.
Defined.

Lemma is_max_abs_unique (m n : nat) (A : list R) (v v' : R) :
  is_max_abs m n A v -> is_max_abs m n A v' -> v = v'.
Proof.
  intros (Hub & i & j & Hi & Hj & ->) (Hub' & i' & j' & Hi' & Hj' & ->).
  apply Rle_antisym; [apply Hub' | apply Hub]; assumption.
Qed.

(** X15. On a matrix with [N] = 8 columns (or one row) and no negative
    entry, the slip of [max_ref] does not show: for every schedule the
    parallel [max] and [max_ref] return the same value, the largest entry,
    and the check [ref == res] of the program succeeds. *)
Theorem max_agrees_with_ref_on_nonneg
        (m n : nat) (A : list R) (order : list nat) :
  1 <= m -> 1 <= n -> m = 1 \/ n = MaxNorm.N -> length A = m * n ->
  (forall x, In x A -> (0 <= x)%R) -> schedule m order ->
  exists v,
    MaxNorm.max_ref m n A = Some v /\ MaxNorm.max m n A order = Some v /\
    is_max_abs m n A v /\ MaxNorm.report v v = [Str "OK\n"].
Proof.
  intros Hm Hn Hw HA Hpos Hs.
  destruct (max_ref_nonneg m n A Hm Hn HA Hpos) as (v & Eref & Hv).
  exists v. split; [assumption|].
  rewrite max_closed by assumption.
  assert (Hv' := rows_maximum_is_max_abs m n A order Hm Hn Hs).
  rewrite <- (is_max_abs_unique m n A _ _ Hv Hv').
  split; [reflexivity|]. split; [assumption|].
  unfold MaxNorm.report.
  destruct (deq v v) eqn:E; [reflexivity|].
  assert (deq v v = true) by (apply deq_spec; reflexivity). congruence.
Qed.

Lemma max_agrees_with_ref_on_nonneg_witness :
  exists v,
    MaxNorm.max_ref 2 8 (count_from 0 16) = Some v /\
    MaxNorm.max 2 8 (count_from 0 16) [1; 0] = Some v /\
    is_max_abs 2 8 (count_from 0 16) v /\ MaxNorm.report v v = [Str "OK\n"].
Proof.
  apply (max_agrees_with_ref_on_nonneg 2 8 (count_from 0 16) [1; 0]).
  - lia.
  - lia.
  - right; reflexivity.
  - reflexivity.
  - intros x Hx. unfold count_from in Hx. apply in_map_iff in Hx.
    destruct Hx as (i & <- & _). apply IZR_le. lia.
  - apply perm_swap.
Defined.

(** ** The workers as updates of the shared variable *)

Section WorkersAlgebra.
Open Scope R_scope.

(** A worker of [max] reads its row, then replaces the shared value by its
    maximum with what it read. *)
Lemma compute_row_max_factors (data : MaxNorm.ThreadData (T:=R)) :
  exists local : option R,
    forall s, MaxNorm.compute_row_max data s
              = (l <- local ;; Some (Rmax s l)).
Proof.
  unfold MaxNorm.compute_row_max.
  destruct (load2 MaxNorm.N (MaxNorm.A data) (MaxNorm.row data) 0)
    as [a0|]; [|exists None; reflexivity].
  match goal with
  | |- context [for_loop ?lo ?hi ?body ?s0] =>
      destruct (for_loop lo hi body s0) as [local|]
  end.
  - exists (Some local). intros s. rewrite guarded_update_Rmax. reflexivity.
  - exists None. reflexivity.
Qed.




(** X16. Two workers of [max], over the reals, can update the shared
    maximum in either order with the same outcome, an out-of-bounds read
    included, and a worker that updates twice changes nothing the second
    time. *)
Theorem max_workers_commute_idempotent
        (d1 d2 : MaxNorm.ThreadData (T:=R)) (s : R) :
  (s1 <- MaxNorm.compute_row_max d1 s ;; MaxNorm.compute_row_max d2 s1)
  = (s2 <- MaxNorm.compute_row_max d2 s ;; MaxNorm.compute_row_max d1 s2) /\
  (s1 <- MaxNorm.compute_row_max d1 s ;; MaxNorm.compute_row_max d1 s1)
  = MaxNorm.compute_row_max d1 s.
Proof.
  destruct (compute_row_max_factors d1) as (l1 & E1).
  destruct (compute_row_max_factors d2) as (l2 & E2).
  rewrite !E1, !E2. split.
  - destruct l1 as [x|], l2 as [y|]; cbn; rewrite ?E1, ?E2; cbn;
      try reflexivity.
    f_equal. rewrite <- !Rmax_assoc. f_equal. apply Rmax_comm.
  - destruct l1 as [x|]; cbn; [|reflexivity].
    rewrite E1. cbn. f_equal. rewrite <- Rmax_assoc, Rmax_same. reflexivity.
Qed.

End WorkersAlgebra.

(** ** The results as norms *)

Section Norms.
Open Scope R_scope.

Lemma sum_sq_nonneg (A : list R) : 0 <= sum_sq A.
Proof.
  unfold sum_sq. induction A as [|x A IH]; simpl; [lra|]. nra.
Qed.

Lemma sum_sq_term (A : list R) (x : R) : In x A -> x * x <= sum_sq A.
Proof.
  unfold sum_sq. induction A as [|y A IH]; intros Hx; [destruct Hx|].
  simpl. pose proof (sum_sq_nonneg A) as Hn. unfold sum_sq in Hn.
  destruct Hx as [-> | Hx]; [lra|]. specialize (IH Hx). nra.
Qed.

Lemma sum_sq_zero (A : list R) :
  sum_sq A = 0 <-> (forall x, In x A -> x = 0).
Proof.
  split.
  - intros Hz x Hx. pose proof (sum_sq_term A x Hx). nra.
  - intros Hall. unfold sum_sq. induction A as [|y A IH]; [reflexivity|].
    simpl. rewrite IH by (intros; apply Hall; right; assumption).
    rewrite (Hall y) by (left; reflexivity). lra.
Qed.

Lemma sum_sq_bound (A : list R) (c : R) :
  (forall x, In x A -> x * x <= c) -> sum_sq A <= INR (length A) * c.
Proof.
  unfold sum_sq. induction A as [|y A IH]; intros Hall.
  - simpl. lra.
  - cbn [map Rlist_sum fold_right length]. rewrite S_INR.
    assert (H1 : y * y <= c) by (apply Hall; left; reflexivity).
    assert (H2 := IH (fun x Hx => Hall x (or_intror Hx))).
    unfold Rlist_sum in H2. lra.
Qed.

Lemma sigma_over_buffer (A : list R) (g : R -> R) :
  sigma 0 (length A) (fun k => g (nth k A 0)) = Rlist_sum (map g A).
Proof.
  unfold sigma. f_equal.
  rewrite <- (map_map (fun k => nth k A 0) g).
  rewrite (map_nth_seq (T:=R) A (length A) 0) by lia.
  rewrite firstn_all. reflexivity.
Qed.

(** Summing row by row is summing the buffer. *)
Lemma sum_squares_flat (m n : nat) (A : list R) :
  length A = (m * n)%nat -> sum_squares m n A = sum_sq A.
Proof.
  intros HA. unfold sum_squares, sum_sq, entry.
  rewrite <- (sigma_over_buffer A (fun x => x * x)), HA.
  rewrite <- (sigma_blocks m n (fun k => nth k A 0 * nth k A 0)).
  apply sigma_ext. intros i _. symmetry. apply sigma_shift.
Qed.

Lemma cell_is_entry (m n : nat) (A : list R) (x : R) :
  length A = (m * n)%nat -> In x A ->
  exists i j, (i < m)%nat /\ (j < n)%nat /\ x = entry n A i j.
Proof.
  intros HA Hx. destruct (In_nth A x 0 Hx) as (k & Hk & <-).
  assert (Hn : n <> 0%nat) by (intros ->; lia).
  exists (k / n)%nat, (k mod n)%nat.
  split; [apply Nat.Div0.div_lt_upper_bound; lia|].
  split; [apply Nat.mod_upper_bound; assumption|].
  unfold entry. f_equal. pose proof (Nat.div_mod_eq k n). lia.
Qed.

Lemma entry_is_cell (m n : nat) (A : list R) (i j : nat) :
  length A = (m * n)%nat -> (i < m)%nat -> (j < n)%nat ->
  In (entry n A i j) A.
Proof.
  intros HA Hi Hj. unfold entry. apply nth_In. rewrite HA.
  apply cell_in_matrix; assumption.
Qed.

Lemma Rabs_sqrt_square (x : R) : Rabs x = sqrt (x * x).
Proof. symmetry. apply (sqrt_Rsqr_abs x). Qed.

(** X18. Over the reals, on a matrix with [N] = 8 columns (or one row) and
    for every schedule, [frobenius] returns the square root of the sum of
    the squares of all the cells; the result is never negative, and it is 0
    exactly when every entry is 0. *)
Theorem frobenius_is_definite (m n : nat) (A : list R) (order : list nat) :
  m = 1%nat \/ n = Frobenius.N -> length A = (m * n)%nat ->
  schedule m order ->
  Frobenius.frobenius m n A order = Some (sqrt (sum_sq A)) /\
  0 <= sqrt (sum_sq A) /\
  (sqrt (sum_sq A) = 0 <-> forall x, In x A -> x = 0).
Proof.
  intros Hw HA Hs. split; [|split].
  - rewrite frobenius_closed, sum_squares_flat by assumption. reflexivity.
  - apply sqrt_pos.
  - rewrite <- sum_sq_zero. split.
    + apply sqrt_eq_0, sum_sq_nonneg.
    + intros ->. apply sqrt_0.
Qed.

(** X19. Over the reals, on a matrix with at least one row and [N] = 8
    columns (or one row), for any two schedules, the value of [max] is at
    most the value of [frobenius], which is at most the square root of the
    number of entries times the value of [max]. *)
Theorem max_norm_le_frobenius_norm
        (m n : nat) (A : list R) (order_max order_frobenius : list nat) :
  (1 <= m)%nat -> (1 <= n)%nat -> m = 1%nat \/ n = 8%nat ->
  length A = (m * n)%nat ->
  schedule m order_max -> schedule m order_frobenius ->
  exists vmax vfro,
    MaxNorm.max m n A order_max = Some vmax /\
    Frobenius.frobenius m n A order_frobenius = Some vfro /\
    vmax <= vfro /\ vfro <= sqrt (INR (m * n)) * vmax.
Proof.
  intros Hm Hn Hw HA Hsm Hsf.
  rewrite (max_closed m n A order_max) by assumption.
  rewrite (frobenius_closed m n A order_frobenius) by assumption.
  rewrite sum_squares_flat by assumption.
  destruct (rows_maximum_is_max_abs m n A order_max Hm Hn Hsm)
    as (Hub & i & j & Hi & Hj & Hv).
  eexists _, _. split; [reflexivity|]. split; [reflexivity|].
  set (v := Rmax_fold (entry n A 0 0) (fun i => row_max_cells n n A i)
                      order_max) in *.
  assert (Hv0 : 0 <= v) by (rewrite Hv; apply Rabs_pos).
  split.
  - rewrite Hv, Rabs_sqrt_square. apply sqrt_le_1_alt, sum_sq_term.
    apply (entry_is_cell m); assumption.
  - rewrite <- (sqrt_square v Hv0) at 1. rewrite <- sqrt_mult.
    + apply sqrt_le_1_alt. rewrite <- HA. apply sum_sq_bound.
      intros x Hx. destruct (cell_is_entry m n A x HA Hx)
        as (i' & j' & Hi' & Hj' & ->).
      specialize (Hub i' j' Hi' Hj'). unfold Rabs in Hub.
      destruct (Rcase_abs (entry n A i' j')); nra.
    + apply pos_INR.
    + nra.
Qed.

Lemma sigma_nonneg (lo cnt : nat) (f : nat -> R) :
  (forall i, 0 <= f i) -> 0 <= sigma lo cnt f.
Proof.
  intros Hf. unfold sigma. revert lo; induction cnt as [|cnt IH]; intros lo.
  - simpl. lra.
  - simpl. specialize (IH (S lo)). specialize (Hf lo). lra.
Qed.

(** X20. Over the reals, the Frobenius norm of a vector, as a matrix of one
    row, is the square root of its dot product with itself, which is never
    negative: [frobenius(1, n, a)] is [sqrt(dotprod_pairs(n, a, a))]. *)
Theorem frobenius_of_a_row_is_sqrt_dot (n : nat) (a : list R) (order : list nat) :
  length a = n -> schedule n order ->
  exists d,
    DotPairs.dotprod_pairs n a a order = Some d /\ 0 <= d /\
    Frobenius.frobenius 1 n a [0%nat] = Some (sqrt d).
Proof.
  intros Ha Hs. exists (dot n a a).
  split; [apply dotprod_pairs_closed; assumption|].
  split; [apply sigma_nonneg; intros i; nra|].
  rewrite frobenius_closed;
    [| left; reflexivity | rewrite Ha; lia | apply Permutation_refl].
  do 2 f_equal. unfold sum_squares, sigma at 1, entry. simpl.
  rewrite Rplus_0_r. reflexivity.
Qed.

Lemma dot_sym (n : nat) (a b : list R) : dot n a b = dot n b a.
Proof. unfold dot. apply sigma_ext. intros i _. ring. Qed.

Lemma Rlist_sum_scale (c : R) (l : list R) :
  Rlist_sum (map (Rmult c) l) = c * Rlist_sum l.
Proof. induction l as [|x l IH]; simpl; [ring|]. rewrite IH. ring. Qed.

Lemma dot_scale (n : nat) (c : R) (a b : list R) :
  dot n (map (Rmult c) a) b = c * dot n a b.
Proof.
  unfold dot, sigma. rewrite <- Rlist_sum_scale, map_map. f_equal.
  apply map_ext. intros i.
  replace 0 with (c * 0) at 1 by ring. rewrite map_nth. ring.
Qed.

(** X21. Over the reals and for any schedules, the dot product is symmetric
    and homogeneous: [dotprod_pairs(n, a, b)] is [dotprod_pairs(n, b, a)],
    and multiplying every element of [a] by [c] multiplies the result by
    [c]. *)
Theorem dotprod_pairs_symmetric_homogeneous
        (n : nat) (c : R) (a b : list R) (order order' : list nat) :
  length a = n -> length b = n -> schedule n order -> schedule n order' ->
  DotPairs.dotprod_pairs n a b order = DotPairs.dotprod_pairs n b a order' /\
  DotPairs.dotprod_pairs n (map (Rmult c) a) b order
  = option_map (Rmult c) (DotPairs.dotprod_pairs n a b order').
Proof.
  intros Ha Hb Hs Hs'. split.
  - rewrite !dotprod_pairs_closed by assumption. f_equal. apply dot_sym.
  - rewrite !dotprod_pairs_closed by (try rewrite length_map; assumption).
    simpl. f_equal. apply dot_scale.
Qed.
End Norms.

Lemma frobenius_is_definite_witness :
  Frobenius.frobenius 2 8 (count_from 0 16) [1; 0]
  = Some (sqrt (sum_sq (count_from 0 16))) /\
  (0 <= sqrt (sum_sq (count_from 0 16)))%R /\
  (sqrt (sum_sq (count_from 0 16)) = 0%R
   <-> forall x, In x (count_from 0 16) -> x = 0%R).
Proof.
  apply (frobenius_is_definite 2 8 (count_from 0 16) [1; 0]).
  - right; reflexivity.
  - reflexivity.
  - apply perm_swap.
Defined.

Lemma max_norm_le_frobenius_norm_witness :
  exists vmax vfro,
    MaxNorm.max 2 8 (count_from 0 16) [1; 0] = Some vmax /\
    Frobenius.frobenius 2 8 (count_from 0 16) [0; 1] = Some vfro /\
    (vmax <= vfro)%R /\ (vfro <= sqrt (INR (2 * 8)) * vmax)%R.
Proof.
  apply (max_norm_le_frobenius_norm 2 8 (count_from 0 16) [1; 0] [0; 1]).
  - lia.
  - lia.
  - right; reflexivity.
  - reflexivity.
  - apply perm_swap.
  - apply Permutation_refl.
Defined.

Lemma frobenius_of_a_row_is_sqrt_dot_witness :
  exists d,
    DotPairs.dotprod_pairs 3 [3; 0; 4]%R [3; 0; 4]%R [2; 1; 0] = Some d /\
    (0 <= d)%R /\
    Frobenius.frobenius 1 3 [3; 0; 4]%R [0] = Some (sqrt d).
Proof.
  apply (frobenius_of_a_row_is_sqrt_dot 3 [3; 0; 4]%R [2; 1; 0]).
  - reflexivity.
  - exact (Permutation_sym (Permutation_rev (seq 0 3))).
Defined.

Lemma dotprod_pairs_symmetric_homogeneous_witness :
  DotPairs.dotprod_pairs 2 [1; 2]%R [3; 4]%R [1; 0]
  = DotPairs.dotprod_pairs 2 [3; 4]%R [1; 2]%R [0; 1] /\
  DotPairs.dotprod_pairs 2 (map (Rmult 5) [1; 2]%R) [3; 4]%R [1; 0]
  = option_map (Rmult 5) (DotPairs.dotprod_pairs 2 [1; 2]%R [3; 4]%R [0; 1]).
Proof.
  apply (dotprod_pairs_symmetric_homogeneous 2 5%R [1; 2]%R [3; 4]%R
                                             [1; 0] [0; 1]).
  - reflexivity.
  - reflexivity.
  - apply perm_swap.
  - apply Permutation_refl.
Defined.

(** ** Vectors too short, matrices without entries *)

(** X22. If one of the two vectors has fewer than [n] elements, every run
    of [dotprod_pairs(n, a, b)], whatever the schedule and the arithmetic,
    reads outside that vector: some worker has an index past its end. *)
Theorem dotprod_pairs_short_vector
        {T : Type} `{Double T} (n : nat) (a b : list T) (order : list nat) :
  length a < n \/ length b < n -> schedule n order ->
  DotPairs.dotprod_pairs n a b order = None.
Proof.
  intros Hshort Hs. unfold DotPairs.dotprod_pairs.
  rewrite run_threads_schedule by assumption.
  assert (Hin : forall i, i < n -> In i order).
  { intros i Hi. apply (Permutation_in _ (Permutation_sym Hs)), in_seq. lia. }
  destruct (Nat.lt_ge_cases (length a) n) as [Ha | Ha].
  - apply (ofold_fails (fun _ => True) _ (length a)); auto.
    intros s _. unfold DotPairs.compute_product, load; simpl.
    rewrite (proj2 (nth_error_None a (length a))) by lia. reflexivity.
  - assert (Hb : length b < n) by (destruct Hshort; [lia | assumption]).
    apply (ofold_fails (fun _ => True) _ (length b)); auto.
    intros s _. unfold DotPairs.compute_product, load; simpl.
    destruct (nth_error a (length b)); [|reflexivity].
    rewrite (proj2 (nth_error_None b (length b))) by lia. reflexivity.
Qed.

Lemma dotprod_pairs_short_vector_witness :
  DotPairs.dotprod_pairs 3 [1; 2; 3]%R [1; 2]%R [2; 1; 0] = None.
Proof.
  apply (dotprod_pairs_short_vector 3 [1; 2; 3]%R [1; 2]%R [2; 1; 0]).
  - right. simpl. lia.
  - exact (Permutation_sym (Permutation_rev (seq 0 3))).
Defined.

Lemma Rlist_sum_zeros (l : list nat) :
  Rlist_sum (map (fun _ => 0%R) l) = 0%R.
Proof. induction l as [|i l IH]; simpl; [reflexivity|]. rewrite IH. lra. Qed.

(** X23. On a matrix without entries ([m = 0] or [n = 0]) the two max
    functions read [A[0][0]] outside the empty buffer, whatever the
    schedule, while over the reals [frobenius], for every schedule, and
    [frobenius_ref] read nothing and return 0. *)
Theorem empty_matrix (m n : nat) (order order' : list nat) :
  m * n = 0 -> schedule m order ->
  MaxNorm.max_ref (T:=R) m n [] = None /\
  MaxNorm.max (T:=R) m n [] order' = None /\
  Frobenius.frobenius m n [] order = Some 0%R /\
  Frobenius.frobenius_ref m n [] = Some 0%R.
Proof.
  intros Hmn Hs. split; [reflexivity|]. split; [reflexivity|]. split.
  - unfold Frobenius.frobenius.
    rewrite run_threads_schedule by assumption.
    rewrite (ofold_sum _ (fun _ => 0%R)).
    + rewrite Rlist_sum_zeros. simpl. rewrite Rplus_0_r, sqrt_0. reflexivity.
    + intros i s Hi.
      assert (Hi' : i < m) by (eapply schedule_lt; eauto).
      assert (n = 0) by nia. subst n.
      rewrite compute_row_sum_cells by (intros j Hj; lia).
      reflexivity.
  - rewrite frobenius_ref_closed by (simpl; lia).
    rewrite sum_squares_flat by (simpl; lia).
    unfold sum_sq. simpl. rewrite sqrt_0. reflexivity.
Qed.

Lemma empty_matrix_witness :
  MaxNorm.max_ref (T:=R) 3 0 [] = None /\
  MaxNorm.max (T:=R) 3 0 [] [0; 1; 2] = None /\
  Frobenius.frobenius 3 0 [] [2; 1; 0] = Some 0%R /\
  Frobenius.frobenius_ref 3 0 [] = Some 0%R.
Proof.
  apply (empty_matrix 3 0 [2; 1; 0] [0; 1; 2]).
  - reflexivity.
  - exact (Permutation_sym (Permutation_rev (seq 0 3))).
Defined.

(** ** The tolerance test *)

(** X24. Over the reals [isClose] is symmetric in the two values; it holds
    of a value and itself exactly when the threshold is positive and never
    holds with a threshold that is not; it is kept by a larger threshold;
    and two values close to a third are close within the sum of the two
    thresholds. *)
Theorem isClose_properties :
  (forall a b t : R, isClose a b t = isClose b a t) /\
  (forall a t : R, isClose a a t = true <-> (0 < t)%R) /\
  (forall a b t : R, (t <= 0)%R -> isClose a b t = false) /\
  (forall a b t t' : R,
      isClose a b t = true -> (t <= t')%R -> isClose a b t' = true) /\
  (forall a b c t t' : R,
      isClose a b t = true -> isClose b c t' = true ->
      isClose a c (t + t')%R = true).
Proof.
  split; [|split; [|split; [|split]]].
  - intros a b t. destruct (isClose b a t) eqn:E.
    + apply isClose_spec. apply isClose_spec in E.
      rewrite Rabs_minus_sym. assumption.
    + destruct (isClose a b t) eqn:E'; [|reflexivity].
      apply isClose_spec in E'. rewrite Rabs_minus_sym in E'.
      apply isClose_spec in E'. congruence.
  - intros a t. rewrite isClose_spec.
    replace (a - a)%R with 0%R by ring. rewrite Rabs_R0. tauto.
  - intros a b t Ht. destruct (isClose a b t) eqn:E; [|reflexivity].
    apply isClose_spec in E. pose proof (Rabs_pos (a - b)). lra.
  - intros a b t t' E Ht. apply isClose_spec. apply isClose_spec in E. lra.
  - intros a b c t t' E E'. apply isClose_spec.
    apply isClose_spec in E. apply isClose_spec in E'.
    replace (a - c)%R with ((a - b) + (b - c))%R by ring.
    eapply Rle_lt_trans; [apply Rabs_triang | lra].
Qed.

(** ** The runs of the two matrix programs *)

Section MatrixRuns.
Open Scope R_scope.


(** The matrix of the two programs: 0 .. 39, row by row. *)
Lemma matrix_of_main :
  MaxNorm.initMatrix 5 8 (alloc (5 * 8)) 0
  = Some (count_from 0 40, IZR 40).
Proof.
  rewrite initMatrix_closed by apply alloc_length.
  change 0 with (IZR 0). rewrite iter_incr_R, incrementing_R. reflexivity.
Qed.



Lemma matrix_of_main_sum_sq : sum_sq (count_from 0 40) = 20540.
Proof. unfold sum_sq, count_from, Rlist_sum. simpl. lra. Qed.


(** X26. The Frobenius program, over the reals: for every order of the
    five row workers, [frobenius_ref] and [frobenius] both return the
    square root of 20540, the sum of the squares of 0 .. 39, and the
    program prints the two values, then its success line, and returns 0. *)
Theorem frobenius_program_run (order : list nat) :
  schedule Frobenius.M order ->
  Frobenius.frobenius_ref 5 8 (count_from 0 40) = Some (sqrt 20540) /\
  Frobenius.frobenius 5 8 (count_from 0 40) order = Some (sqrt 20540) /\
  exists o,
    Frobenius.main order
    = Some (o ++ [Str "\nNorme de Frobenius (référence) = ";
                  Dbl (sqrt 20540); Str "\n";
                  Str "Norme de Frobenius (parallèle) = ";
                  Dbl (sqrt 20540); Str "\n";
                  Str "Résultat correct : OK\n"], 0%Z).
Proof.
  intros Hs.
  assert (Eref : Frobenius.frobenius_ref 5 8 (count_from 0 40)
                 = Some (sqrt 20540)).
  { rewrite frobenius_ref_closed, sum_squares_flat by reflexivity.
    rewrite matrix_of_main_sum_sq. reflexivity. }
  assert (Eres : Frobenius.frobenius 5 8 (count_from 0 40) order
                 = Some (sqrt 20540)).
  { rewrite frobenius_closed;
      [| right; reflexivity | reflexivity | assumption].
    rewrite sum_squares_flat by reflexivity.
    rewrite matrix_of_main_sum_sq. reflexivity. }
  split; [exact Eref|]. split; [exact Eres|].
  unfold Frobenius.main, Frobenius.M, Frobenius.N.
  change (@Frobenius.initMatrix R Double_R) with (@MaxNorm.initMatrix R Double_R).
  change (@Frobenius.printMatrix R) with (@MaxNorm.printMatrix R).
  change (@dzero R Double_R) with 0. rewrite matrix_of_main.
  destruct (printMatrix_total 5 8 (count_from 0 40) eq_refl) as (o & ->).
  rewrite Eref, Eres.
  change (@Frobenius.report R Double_R) with (@DotPairs.report R Double_R).
  rewrite report_equal_ok.
  exists ([Str "Matrice A =\n"] ++ o). rewrite <- !app_assoc. reflexivity.
Qed.
End MatrixRuns.


Lemma frobenius_program_run_witness :
  Frobenius.frobenius_ref 5 8 (count_from 0 40) = Some (sqrt 20540) /\
  Frobenius.frobenius 5 8 (count_from 0 40) [4; 3; 2; 1; 0]
  = Some (sqrt 20540) /\
  exists o,
    Frobenius.main [4; 3; 2; 1; 0]
    = Some (o ++ [Str "\nNorme de Frobenius (référence) = ";
                  Dbl (sqrt 20540); Str "\n";
                  Str "Norme de Frobenius (parallèle) = ";
                  Dbl (sqrt 20540); Str "\n";
                  Str "Résultat correct : OK\n"], 0%Z).
Proof.
  apply (frobenius_program_run [4; 3; 2; 1; 0]).
  exact (Permutation_sym (Permutation_rev (seq 0 5))).
Defined.

(** ** The critical section, instruction by instruction *)

Section CriticalSection.
Context {V : Type}.
Implicit Types (fs : list (V -> option V)) (w : machine V) (log : list nat).

Lemma set_at_same {X : Type} (i : nat) (x : X) (f : nat -> X) :
  set_at i x f i = x.
Proof. unfold set_at. rewrite Nat.eqb_refl. reflexivity. Qed.

Lemma set_at_other {X : Type} (i j : nat) (x : X) (f : nat -> X) :
  j <> i -> set_at i x f j = f j.
Proof.
  intros Hne. unfold set_at.
  destruct (Nat.eqb_spec j i); [contradiction | reflexivity].
Qed.

(** The code of thread [i] and where each instruction stands in it. *)
Lemma code_of fs (i : nat) (p : list (instr V)) :
  nth_error (map worker_code fs) i = Some p ->
  exists f, nth_error fs i = Some f /\ p = worker_code f /\ i < length fs.
Proof.
  intros E. rewrite nth_error_map in E.
  destruct (nth_error fs i) as [f|] eqn:Ef; [|discriminate].
  injection E as <-. exists f. split; [reflexivity|]. split; [reflexivity|].
  apply nth_error_Some. congruence.
Qed.

Lemma code_at (f : V -> option V) (k : nat) (ins : instr V) :
  nth_error (worker_code f) k = Some ins ->
  match ins with
  | Local => k = 0
  | Lock => k = 1
  | Load => k = 2
  | Store g => k = 3 /\ g = f
  | Unlock => k = 4
  end.
Proof.
  intros E.
  destruct k as [|[|[|[|[|k]]]]]; simpl in E;
    try (injection E as <-; auto; fail).
  destruct k; discriminate.
Qed.

Lemma replay_snoc fs log (i : nat) (f : V -> option V) (s0 : V) :
  nth_error fs i = Some f ->
  replay fs (log ++ [i]) s0 = stored f (replay fs log s0).
Proof.
  intros Ef. unfold replay. rewrite fold_left_app. simpl. rewrite Ef.
  reflexivity.
Qed.

Ltac per_thread Hpc Hmtx Hreg Hlog i j :=
  pose proof (Hpc j); pose proof (Hpc i);
  pose proof (Hmtx j); pose proof (Hmtx i);
  pose proof (Hreg j); pose proof (Hreg i);
  pose proof (Hlog j); pose proof (Hlog i);
  unfold inside, do_local, do_lock, do_load, do_store, do_unlock, next in *;
  simpl;
  destruct (Nat.eq_dec j i) as [-> | ?];
  rewrite ?set_at_same, ?set_at_other by assumption;
  intuition (try congruence; try lia;
             try solve [match goal with H : _ |- _ => apply H; lia end]).

Lemma istep_inv fs (s0 : V) log w log' w' :
  istep (map worker_code fs) (log, w) (log', w') ->
  machine_inv fs s0 log w -> machine_inv fs s0 log' w'.
Proof.
  intros Hstep (Hpc & Hmtx & Hreg & Hcell & Hnd & Hlog).
  inversion Hstep as
      [l0 w0 i p Hp Hins | l0 w0 i p Hp Hins Hfree | l0 w0 i p Hp Hins
      | l0 w0 i p g t Hp Hins Ht | l0 w0 i p Hp Hins Hheld];
    subst; clear Hstep;
    destruct (code_of fs i p Hp) as (f & Ef & -> & Hi);
    apply code_at in Hins.
  - (* Local *)
    split; [|split; [|split; [|split; [|split]]]];
      try assumption; intros j; per_thread Hpc Hmtx Hreg Hlog i j.
  - (* Lock *)
    split; [|split; [|split; [|split; [|split]]]];
      try assumption; intros j; per_thread Hpc Hmtx Hreg Hlog i j.
  - (* Load *)
    split; [|split; [|split; [|split; [|split]]]];
      try assumption; intros j; per_thread Hpc Hmtx Hreg Hlog i j.
  - (* Store *)
    destruct Hins as (Hins & ->).
    assert (Et : t = cell w)
      by (pose proof (Hreg i Hins); congruence).
    assert (Hnot : ~ In i log) by (rewrite Hlog; lia).
    split; [|split; [|split; [|split; [|split]]]].
    + intros j; per_thread Hpc Hmtx Hreg Hlog i j.
    + intros j; per_thread Hpc Hmtx Hreg Hlog i j.
    + (* no other thread is at its store: the mutex is held by [i] *)
      intros j Hj. unfold do_store, next in Hj; simpl in Hj.
      destruct (Nat.eq_dec j i) as [-> | Hne].
      * rewrite set_at_same in Hj. lia.
      * rewrite set_at_other in Hj by assumption.
        assert (mtx w = Some j) by (apply Hmtx; unfold inside; lia).
        assert (mtx w = Some i) by (apply Hmtx; unfold inside; lia).
        congruence.
    + simpl. rewrite (replay_snoc fs log i f s0 Ef), <- Hcell, Et.
      reflexivity.
    + apply NoDup_app; [assumption | repeat constructor; intros [] |].
      intros x Hx [<- | []]. contradiction.
    + intros j. rewrite in_app_iff. simpl.
      per_thread Hpc Hmtx Hreg Hlog i j.
  - (* Unlock *)
    split; [|split; [|split; [|split; [|split]]]];
      try assumption; intros j; per_thread Hpc Hmtx Hreg Hlog i j.
Qed.

Lemma iruns_inv fs (s0 : V) log w :
  iruns (map worker_code fs) s0 log w -> machine_inv fs s0 log w.
Proof.
  induction 1 as [|log w log' w' _ IH Hstep].
  - unfold machine_inv, inside; simpl.
    split; [intros i; split; [lia | reflexivity]|].
    split; [intros i; split; [discriminate | lia]|].
    split; [intros i; discriminate|].
    split; [reflexivity|]. split; [constructor|].
    intros i; split; [intros [] | lia].
  - eapply istep_inv; eassumption.
Qed.
(** [fire] is the step relation, as a function of the thread that moves. *)
Lemma fire_istep (progs : list (list (instr V))) (i : nat)
      (c c' : list nat * machine V) :
  fire progs i c = Some c' -> istep progs c c'.
Proof.
  destruct c as [log w]. unfold fire.
  destruct (nth_error progs i) as [p|] eqn:Ep; [|discriminate].
  destruct (nth_error p (pc_of w i)) as [[| | |f|]|] eqn:Ei;
    try discriminate.
  - intros [= <-]. eapply istep_local; eassumption.
  - destruct (mtx w) eqn:Em; [discriminate|].
    intros [= <-]. eapply istep_lock; eassumption.
  - intros [= <-]. eapply istep_load; eassumption.
  - destruct (reg_of w i) as [t|] eqn:Er; [|discriminate].
    intros [= <-]. eapply istep_store; eassumption.
  - destruct (mtx w) as [j|] eqn:Em; [|discriminate].
    destruct (Nat.eqb_spec j i) as [-> |]; [|discriminate].
    intros [= <-]. eapply istep_unlock; eassumption.
Qed.

Lemma istep_fire (progs : list (list (instr V)))
      (c c' : list nat * machine V) :
  istep progs c c' -> exists i, fire progs i c = Some c'.
Proof.
  intros [l w i p Hp Hins | l w i p Hp Hins Hfree | l w i p Hp Hins
         | l w i p g t Hp Hins Ht | l w i p Hp Hins Hheld];
    exists i; unfold fire; rewrite Hp, Hins;
    rewrite ?Hfree, ?Ht, ?Hheld, ?Nat.eqb_refl; reflexivity.
Qed.

Lemma exec_snoc (progs : list (list (instr V))) (sched : list nat) (i : nat)
      (c : list nat * machine V) :
  exec progs (sched ++ [i]) c =
  match exec progs sched c with Some c' => fire progs i c' | None => None end.
Proof. unfold exec. rewrite fold_left_app. reflexivity. Qed.

Lemma exec_iruns (progs : list (list (instr V))) (s0 : V) (sched : list nat) :
  forall log w,
    exec progs sched ([], machine_init s0) = Some (log, w) ->
    iruns progs s0 log w.
Proof.
  induction sched as [|i sched IH] using rev_ind; intros log w E.
  - injection E as <- <-. constructor.
  - rewrite exec_snoc in E.
    destruct (exec progs sched ([], machine_init s0)) as [[l0 w0]|];
      [|discriminate].
    eapply iruns_step; [apply IH; reflexivity | apply (fire_istep _ i), E].
Qed.

Lemma iruns_exec (progs : list (list (instr V))) (s0 : V) log w :
  iruns progs s0 log w ->
  exists sched, exec progs sched ([], machine_init s0) = Some (log, w).
Proof.
  induction 1 as [|log w log' w' _ (sched & E) Hstep].
  - exists []. reflexivity.
  - destruct (istep_fire _ _ _ Hstep) as (i & Ei).
    exists (sched ++ [i]). rewrite exec_snoc, E. exact Ei.
Qed.

(** What thread [i] does next, read off its program counter. *)
Lemma fire_at fs (i : nat) (f : V -> option V) log w :
  nth_error fs i = Some f ->
  fire (map worker_code fs) i (log, w) =
  match pc_of w i with
  | 0 => Some (log, do_local i w)
  | 1 => match mtx w with
         | None => Some (log, do_lock i w)
         | Some _ => None
         end
  | 2 => Some (log, do_load i w)
  | 3 => match reg_of w i with
         | Some t => Some (log ++ [i], do_store i f t w)
         | None => None
         end
  | 4 => match mtx w with
         | Some j => if j =? i then Some (log, do_unlock i w) else None
         | None => None
         end
  | _ => None
  end.
Proof.
  intros Ef. unfold fire. rewrite nth_error_map, Ef. simpl.
  destruct (pc_of w i) as [|[|[|[|[|k]]]]]; try reflexivity.
  destruct k; reflexivity.
Qed.

(** The thread that holds the mutex can always execute its next
    instruction. *)
Lemma holder_fires fs (s0 : V) log w (j : nat) :
  machine_inv fs s0 log w -> mtx w = Some j ->
  j < length fs /\ inside w j /\
  fire (map worker_code fs) j (log, w) <> None.
Proof.
  intros (Hpc & Hmtx & Hreg & _) Hj.
  assert (Hin : inside w j) by (apply Hmtx, Hj).
  assert (Hlt : j < length fs).
  { destruct (Nat.lt_ge_cases j (length fs)) as [|Hge]; [assumption|].
    apply (proj2 (Hpc j)) in Hge. unfold inside in Hin. lia. }
  split; [assumption|]. split; [assumption|].
  destruct (nth_error fs j) as [f|] eqn:Ef;
    [|apply nth_error_None in Ef; lia].
  rewrite (fire_at fs j f log w Ef). unfold inside in Hin.
  destruct (pc_of w j) as [|[|[|[|[|k]]]]] eqn:Ek; try lia.
  - discriminate.
  - rewrite (Hreg j Ek). discriminate.
  - rewrite Hj, Nat.eqb_refl. discriminate.
Qed.

(** A thread that has not returned executes its next instruction, unless it
    is at its [Lock] and another thread, which can run, holds the mutex. *)
Lemma fires_or_waits fs (s0 : V) log w (i : nat) :
  machine_inv fs s0 log w -> i < length fs -> pc_of w i < 5 ->
  fire (map worker_code fs) i (log, w) <> None \/
  (pc_of w i = 1 /\
   exists j, j <> i /\ mtx w = Some j /\ inside w j /\
             fire (map worker_code fs) j (log, w) <> None).
Proof.
  intros Hinv Hi Hpc5.
  pose proof Hinv as (Hpc & Hmtx & Hreg & _).
  destruct (nth_error fs i) as [f|] eqn:Ef;
    [|apply nth_error_None in Ef; lia].
  destruct (pc_of w i) as [|[|k]] eqn:Ek.
  - left. rewrite (fire_at fs i f log w Ef), Ek. discriminate.
  - destruct (mtx w) as [j|] eqn:Ej.
    + right. split; [reflexivity|]. exists j.
      destruct (holder_fires fs s0 log w j Hinv Ej) as (_ & Hin & Hf).
      split; [|split; [reflexivity | split; assumption]].
      intros ->. unfold inside in Hin. lia.
    + left. rewrite (fire_at fs i f log w Ef), Ek, Ej. discriminate.
  - left. apply (holder_fires fs s0 log w i Hinv).
    apply Hmtx. unfold inside. lia.
Qed.

(** *** Counting the instructions *)

Lemma sum_set_at_out (f : nat -> nat) (i x m : nat) :
  forall lo, i < lo ->
    map (set_at i x f) (seq lo m) = map f (seq lo m).
Proof.
  intros lo Hlo. apply map_ext_in. intros j Hj. apply in_seq in Hj.
  apply set_at_other. lia.
Qed.

Lemma sum_set_at (f : nat -> nat) (i x m : nat) :
  forall lo, lo <= i < lo + m ->
    list_sum (map (set_at i x f) (seq lo m)) + f i =
    list_sum (map f (seq lo m)) + x.
Proof.
  induction m as [|m IH]; intros lo Hi; [lia|].
  simpl. destruct (Nat.eq_dec i lo) as [-> | Hne].
  - rewrite set_at_same, sum_set_at_out by lia. lia.
  - rewrite set_at_other by lia.
    specialize (IH (Datatypes.S lo) ltac:(lia)). lia.
Qed.

Lemma sum_bounded (f : nat -> nat) (b m : nat) :
  (forall i, f i <= b) ->
  forall lo, list_sum (map f (seq lo m)) <= b * m.
Proof.
  intros Hb. induction m as [|m IH]; intros lo; simpl; [lia|].
  specialize (IH (Datatypes.S lo)). specialize (Hb lo).
  rewrite Nat.mul_succ_r. lia.
Qed.

Lemma sum_full (f : nat -> nat) (b m : nat) :
  (forall i, f i <= b) ->
  forall lo, list_sum (map f (seq lo m)) = b * m ->
             forall i, lo <= i < lo + m -> f i = b.
Proof.
  intros Hb. induction m as [|m IH]; intros lo E i Hi; [lia|].
  simpl in E. rewrite Nat.mul_succ_r in E.
  pose proof (sum_bounded f b m Hb (Datatypes.S lo)) as Hrest.
  pose proof (Hb lo) as Hlo.
  destruct (Nat.eq_dec i lo) as [-> | Hne]; [lia|].
  apply (IH (Datatypes.S lo)); lia.
Qed.

Lemma work_init (m : nat) (s0 : V) : work m (machine_init s0) = 0.
Proof.
  unfold work. simpl.
  pose proof (sum_bounded (fun _ => 0) 0 m (fun _ => le_n 0) 0). lia.
Qed.

(** Each instruction executed counts for one. *)
Lemma work_step fs log w log' w' :
  istep (map worker_code fs) (log, w) (log', w') ->
  work (length fs) w' = Datatypes.S (work (length fs) w).
Proof.
  intros Hstep.
  inversion Hstep as
      [l0 w0 i p Hp Hins | l0 w0 i p Hp Hins Hfree | l0 w0 i p Hp Hins
      | l0 w0 i p g t Hp Hins Ht | l0 w0 i p Hp Hins Hheld];
    subst; clear Hstep;
    destruct (code_of fs i p Hp) as (f & Ef & -> & Hi);
    unfold work; simpl; unfold next;
    pose proof (sum_set_at (pc_of w) i (Datatypes.S (pc_of w i))
                           (length fs) 0 ltac:(lia));
    lia.
Qed.

Lemma work_exec fs (s0 : V) (sched : list nat) :
  forall log w,
    exec (map worker_code fs) sched ([], machine_init s0) = Some (log, w) ->
    work (length fs) w = length sched.
Proof.
  induction sched as [|i sched IH] using rev_ind; intros log w E.
  - injection E as <- <-. apply work_init.
  - rewrite exec_snoc in E.
    destruct (exec (map worker_code fs) sched ([], machine_init s0))
      as [[l0 w0]|] eqn:E0; [|discriminate].
    apply fire_istep, work_step in E.
    rewrite E, (IH l0 w0 eq_refl), length_app. simpl. lia.
Qed.

Lemma work_bound fs (s0 : V) log w :
  machine_inv fs s0 log w -> work (length fs) w <= 5 * length fs.
Proof.
  intros (Hpc & _). apply sum_bounded. intros i. apply Hpc.
Qed.

Lemma work_full fs (s0 : V) log w :
  machine_inv fs s0 log w ->
  work (length fs) w = 5 * length fs ->
  finished (map worker_code fs) w.
Proof.
  intros (Hpc & _) E i p Hp.
  destruct (code_of fs i p Hp) as (f & _ & -> & Hi).
  apply (sum_full (pc_of w) 5 (length fs) (fun j => proj1 (Hpc j)) 0 E).
  lia.
Qed.

Lemma work_short fs (s0 : V) log w :
  machine_inv fs s0 log w ->
  work (length fs) w < 5 * length fs ->
  exists i, i < length fs /\ pc_of w i < 5.
Proof.
  intros (Hpc & _). unfold work.
  assert (Hgen : forall m lo,
             list_sum (map (pc_of w) (seq lo m)) < 5 * m ->
             exists i, lo <= i < lo + m /\ pc_of w i < 5).
  { induction m as [|m IH]; intros lo Hlt; [simpl in Hlt; lia|].
    rewrite Nat.mul_succ_r in Hlt.
    change (seq lo (Datatypes.S m)) with (lo :: seq (Datatypes.S lo) m) in Hlt.
    cbn [map list_sum fold_right] in Hlt.
    change (fold_right Init.Nat.add 0) with list_sum in Hlt.
    destruct (Nat.lt_ge_cases (pc_of w lo) 5) as [Hlo | Hlo].
    - exists lo. lia.
    - destruct (IH (Datatypes.S lo)) as (i & Hi & Hp); [lia|].
      exists i. lia. }
  intros Hlt. destruct (Hgen (length fs) 0 Hlt) as (i & Hi & Hp).
  exists i. split; [lia | assumption].
Qed.

(** *** Finished runs and the sequential model *)

Lemma Forall2_nth_error {X Y : Type} (P : X -> Y -> Prop) (l : list X)
      (l' : list Y) :
  Forall2 P l l' ->
  forall i x, nth_error l i = Some x ->
              exists y, nth_error l' i = Some y /\ P x y.
Proof.
  induction 1 as [|x0 y0 l l' HP _ IH]; intros i x E.
  - destruct i; discriminate.
  - destruct i as [|i]; simpl in E.
    + injection E as <-. exists y0. split; [reflexivity | assumption].
    + apply IH, E.
Qed.

(** With one critical section after the other, in the order of the log, the
    workers leave what [run_threads] computes. *)
Lemma run_threads_replay {D : Type} (start_routine : D -> V -> option V)
      (td : list D) fs :
  Forall2 (fun data f => forall s, start_routine data s = Some (stored f s))
          td fs ->
  forall log s,
    (forall i, In i log -> i < length td) ->
    run_threads start_routine td log s = Some (replay fs log s).
Proof.
  intros Hcode. unfold run_threads, replay.
  induction log as [|i log IH]; intros s Hlog; [reflexivity|].
  simpl.
  destruct (nth_error td i) as [data|] eqn:Ed.
  - destruct (Forall2_nth_error _ _ _ Hcode i data Ed) as (f & Ef & Hf).
    rewrite Ef, Hf. apply IH. intros j Hj. apply Hlog. right. exact Hj.
  - apply nth_error_None in Ed.
    specialize (Hlog i (or_introl eq_refl)). lia.
Qed.

Lemma finished_log fs (s0 : V) log w :
  machine_inv fs s0 log w -> finished (map worker_code fs) w ->
  schedule (length fs) log.
Proof.
  intros (Hpc & _ & _ & _ & Hnd & Hlog) Hfin.
  apply NoDup_Permutation; [assumption | apply seq_NoDup|].
  intros i. rewrite Hlog, in_seq. split.
  - intros H4. destruct (Nat.lt_ge_cases i (length fs)) as [|Hge]; [lia|].
    apply (proj2 (Hpc i)) in Hge. lia.
  - intros (_ & Hi). simpl in Hi.
    destruct (nth_error fs i) as [f|] eqn:Ef;
      [|apply nth_error_None in Ef; lia].
    rewrite (Hfin i (worker_code f)); [simpl; lia|].
    rewrite nth_error_map, Ef. reflexivity.
Qed.
End CriticalSection.

(** *** The four workers as [Local; Lock; Load; Store f; Unlock]

    Each worker computes its local result from data no thread writes, and
    then, between its lock and its unlock, replaces the shared variable by a
    function of it: [max_store] of the local maximum for [compute_row_max],
    [sum_store] of the local sum for the three others. *)

Lemma compute_row_max_code {T} `{Double T}
      (data : MaxNorm.ThreadData (T:=T)) (s v : T) :
  MaxNorm.compute_row_max data s = Some v ->
  exists local_max,
    forall s', MaxNorm.compute_row_max data s'
               = Some (stored (max_store local_max) s').
Proof.
  unfold MaxNorm.compute_row_max.
  destruct (load2 MaxNorm.N (MaxNorm.A data) (MaxNorm.row data) 0)
    as [a0|]; [|discriminate].
  match goal with
  | |- context [for_loop ?lo ?hi ?body ?s0] =>
      destruct (for_loop lo hi body s0) as [local_max|]
  end; [|discriminate].
  intros _. exists local_max. intros s'.
  unfold stored, max_store. destruct (dgt local_max s'); reflexivity.
Qed.

Lemma compute_row_sum_code {T} `{Double T}
      (data : Frobenius.ThreadData (T:=T)) (s v : T) :
  Frobenius.compute_row_sum data s = Some v ->
  exists row_sum,
    forall s', Frobenius.compute_row_sum data s'
               = Some (stored (sum_store row_sum) s').
Proof.
  unfold Frobenius.compute_row_sum.
  match goal with
  | |- context [for_loop ?lo ?hi ?body ?s0] =>
      destruct (for_loop lo hi body s0) as [row_sum|]
  end; [|discriminate].
  intros _. exists row_sum. reflexivity.
Qed.

Lemma compute_product_code {T} `{Double T}
      (data : DotPairs.ThreadData (T:=T)) (s v : T) :
  DotPairs.compute_product data s = Some v ->
  exists product,
    forall s', DotPairs.compute_product data s'
               = Some (stored (sum_store product) s').
Proof.
  unfold DotPairs.compute_product.
  destruct (load (DotPairs.a data) (DotPairs.index data)) as [x|];
    [|discriminate].
  destruct (load (DotPairs.b data) (DotPairs.index data)) as [y|];
    [|discriminate].
  intros _. exists (dmul x y). reflexivity.
Qed.

Lemma compute_block_code {T} `{Double T}
      (data : DotBlocks.ThreadData (T:=T)) (s v : T) :
  DotBlocks.compute_block data s = Some v ->
  exists block_sum,
    forall s', DotBlocks.compute_block data s'
               = Some (stored (sum_store block_sum) s').
Proof.
  unfold DotBlocks.compute_block.
  match goal with
  | |- context [for_loop ?lo ?hi ?body ?s0] =>
      destruct (for_loop lo hi body s0) as [block_sum|]
  end; [|discriminate].
  intros _. exists block_sum. reflexivity.
Qed.

(** The stores of a list of workers that all return. *)
Lemma workers_code {D V : Type} (start_routine : D -> V -> option V)
      (td : list D) :
  (forall data, In data td ->
     exists f, forall s, start_routine data s = Some (stored f s)) ->
  exists fs,
    Forall2 (fun data f => forall s, start_routine data s = Some (stored f s))
            td fs.
Proof.
  induction td as [|data td IH]; intros Hall.
  - exists []. constructor.
  - destruct (Hall data (or_introl eq_refl)) as (f & Hf).
    destruct IH as (fs & Hfs);
      [intros d Hd; apply Hall; right; exact Hd|].
    exists (f :: fs). constructor; assumption.
Qed.

(** *** What the lock and the unlock are for

    The same machine runs workers that do not lock, or do not unlock: the
    properties below are those of the calls in the code, not of the
    machine. *)

(** Two workers that add 1 without locking: both read 0, both write 1, and
    one addition is lost. *)
Lemma without_lock_an_update_is_lost :
  let progs := [[Local; Load; Store (sum_store 1%R)];
                [Local; Load; Store (sum_store 1%R)]] in
  exists log w,
    iruns progs 0%R log w /\ finished progs w /\
    cell w = 1%R /\
    replay [sum_store 1%R; sum_store 1%R] log 0%R = 2%R.
Proof.
  intros progs. eexists; eexists.
  split; [apply (exec_iruns progs 0%R [0; 1; 0; 1; 0; 1]); reflexivity|].
  split.
  { intros i p Hp. destruct i as [|[|i]]; simpl in Hp.
    - injection Hp as <-. reflexivity.
    - injection Hp as <-. reflexivity.
    - destruct i; discriminate. }
  split; simpl; unfold stored, sum_store; simpl; lra.
Qed.

(** Two workers that lock and never unlock: once the first has returned the
    second waits at its lock for ever. *)
Lemma without_unlock_a_worker_blocks (f : R -> option R) :
  let progs := [[Local; Lock; Load; Store f]; [Local; Lock; Load; Store f]] in
  exists log w,
    iruns progs 0%R log w /\ ~ finished progs w /\
    pc_of w 0 = 4 /\ pc_of w 1 = 1 /\
    forall c', ~ istep progs (log, w) c'.
Proof.
  intros progs. eexists; eexists.
  split; [apply (exec_iruns progs 0%R [0; 0; 0; 0; 1]); reflexivity|].
  split.
  { intros Hfin. specialize (Hfin 1 _ eq_refl). discriminate Hfin. }
  split; [reflexivity|]. split; [reflexivity|].
  intros c' Hstep. apply istep_fire in Hstep. destruct Hstep as (i & Hi).
  destruct i as [|[|i]]; [discriminate Hi | discriminate Hi |].
  unfold fire in Hi. destruct i; discriminate Hi.
Qed.

(** X7. The critical sections of the workers exclude each other, and their
    read-modify-write of the shared variable is atomic. The workers are run
    as the instructions [Local; Lock; Load; Store f; Unlock], where any
    thread may load and store at any time and only [Lock] waits. In every
    state the threads can reach, however their instructions interleave, at
    most one thread is between its [pthread_mutex_lock] and the end of its
    [pthread_mutex_unlock], and a thread about to write the shared variable
    has read the value the variable still holds: no other thread wrote in
    between. (Workers that do not lock lose an update on the same machine:
    [without_lock_an_update_is_lost].) *)
Theorem critical_section_is_exclusive {V : Type} (fs : list (V -> option V))
        (s0 : V) (log : list nat) (w : machine V) :
  iruns (map worker_code fs) s0 log w ->
  (forall i j, inside w i -> inside w j -> i = j) /\
  (forall i, pc_of w i = 3 -> reg_of w i = Some (cell w)).
Proof.
  intros Hrun.
  destruct (iruns_inv fs s0 log w Hrun) as (_ & Hmtx & Hreg & _).
  split; [|exact Hreg].
  intros i j Hi Hj. apply Hmtx in Hi, Hj. congruence.
Qed.

(** Two row workers of [max] with local maxima 3 and 7 and the shared
    maximum at 1: both have run their loops, then the first has locked and
    read. *)
Lemma critical_section_is_exclusive_witness :
  exists log w,
    exec (map worker_code [max_store 3%R; max_store 7%R]) [0; 1; 0; 0]
         ([], machine_init 1%R) = Some (log, w) /\
    pc_of w 0 = 3 /\ pc_of w 1 = 1 /\
    (forall i j, inside w i -> inside w j -> i = j) /\
    (forall i, pc_of w i = 3 -> reg_of w i = Some (cell w)).
Proof.
  eexists; eexists.
  split; [reflexivity|]. split; [reflexivity|]. split; [reflexivity|].
  eapply (critical_section_is_exclusive [max_store 3%R; max_store 7%R] 1%R).
  apply (exec_iruns _ _ [0; 1; 0; 0]). reflexivity.
Defined.

(** X8. A worker waits only for the mutex, and never for a thread that is
    stuck. In every state the threads can reach, a worker that has not
    returned and cannot execute its next instruction is at its
    [pthread_mutex_lock], and the mutex is held by another worker, which is
    inside its critical section and can execute its next instruction: the
    load, the store and the unlock never wait or fail.
    ([without_unlock_a_worker_blocks] shows a worker waiting for a thread
    that has returned when the unlock is left out.) *)
Theorem workers_wait_only_for_the_mutex {V : Type}
        (fs : list (V -> option V)) (s0 : V) (log : list nat)
        (w : machine V) (i : nat) :
  iruns (map worker_code fs) s0 log w ->
  i < length fs -> pc_of w i < 5 ->
  fire (map worker_code fs) i (log, w) = None ->
  pc_of w i = 1 /\
  exists j, j <> i /\ mtx w = Some j /\ inside w j /\
            fire (map worker_code fs) j (log, w) <> None.
Proof.
  intros Hrun Hi Hpc Hwait.
  destruct (fires_or_waits fs s0 log w i (iruns_inv fs s0 log w Hrun) Hi Hpc)
    as [Hf | Hw]; [contradiction | exact Hw].
Qed.

(** The first worker has locked; the second has run its loop and waits. *)
Lemma workers_wait_only_for_the_mutex_witness :
  exists log w,
    exec (map worker_code [sum_store 10%R; sum_store 18%R]) [0; 0; 1]
         ([], machine_init 0%R) = Some (log, w) /\
    pc_of w 1 = 1 /\
    exists j, j <> 1 /\ mtx w = Some j /\ inside w j /\
              fire (map worker_code [sum_store 10%R; sum_store 18%R]) j
                   (log, w) <> None.
Proof.
  eexists; eexists. split; [reflexivity|].
  eapply (workers_wait_only_for_the_mutex
            [sum_store 10%R; sum_store 18%R] 0%R _ _ 1).
  - apply (exec_iruns _ _ [0; 0; 1]). reflexivity.
  - simpl. lia.
  - lazy. lia.
  - reflexivity.
Defined.

(** X9. The workers all return, after five instructions each. Whatever the
    order [sched] in which [m] workers have executed their instructions,
    they have executed at most [5 * m]; when they have executed [5 * m]
    every worker has returned (so that each [pthread_join] returns), and
    before that some worker can execute its next instruction: no run
    deadlocks, and none goes on for ever. Every run of the step relation is
    such an execution ([iruns_exec]). *)
Theorem workers_reach_join {V : Type} (fs : list (V -> option V)) (s0 : V)
        (sched log : list nat) (w : machine V) :
  exec (map worker_code fs) sched ([], machine_init s0) = Some (log, w) ->
  length sched <= 5 * length fs /\
  (length sched = 5 * length fs -> finished (map worker_code fs) w) /\
  (length sched < 5 * length fs ->
   exists i, i < length fs /\ fire (map worker_code fs) i (log, w) <> None).
Proof.
  intros E.
  pose proof (iruns_inv fs s0 log w (exec_iruns _ _ _ _ _ E)) as Hinv.
  pose proof (work_exec fs s0 sched log w E) as Hwork.
  rewrite <- Hwork.
  split; [apply (work_bound fs s0 log w Hinv)|].
  split; [apply (work_full fs s0 log w Hinv)|].
  intros Hlt.
  destruct (work_short fs s0 log w Hinv Hlt) as (i & Hi & Hpc).
  destruct (fires_or_waits fs s0 log w i Hinv Hi Hpc)
    as [Hf | (_ & j & _ & Hj & _ & Hf)].
  - exists i. split; assumption.
  - exists j. split; [|assumption].
    apply (holder_fires fs s0 log w j Hinv Hj).
Qed.

(** Two workers of a sum, the second overtaking the first between its loop
    and its lock: ten instructions, and both have returned. *)
Lemma workers_reach_join_witness :
  exists log w,
    exec (map worker_code [sum_store 10%R; sum_store 18%R])
         [0; 1; 1; 1; 1; 1; 0; 0; 0; 0] ([], machine_init 0%R)
    = Some (log, w) /\
    finished (map worker_code [sum_store 10%R; sum_store 18%R]) w.
Proof.
  eexists; eexists. split; [reflexivity|].
  refine (proj1 (proj2 (workers_reach_join
                          [sum_store 10%R; sum_store 18%R] 0%R
                          [0; 1; 1; 1; 1; 1; 0; 0; 0; 0] _ _ _)) _);
    reflexivity.
Defined.

(** X30. The critical sections are serialized. Take workers whose routine
    [start_routine] replaces the shared variable by a function of it (the
    four workers of the programs do, [compute_row_max_code] and the three
    lemmas after it), and run them instruction by instruction. However the
    instructions interleave, once every worker has returned the order in
    which they wrote the shared variable is a schedule (each worker once),
    and the variable holds what [run_threads], which runs the workers one
    after the other, computes for that order. *)
Theorem finished_runs_are_serial {D V : Type}
        (start_routine : D -> V -> option V) (td : list D)
        (fs : list (V -> option V)) (s0 : V) (log : list nat)
        (w : machine V) :
  Forall2 (fun data f => forall s, start_routine data s = Some (stored f s))
          td fs ->
  iruns (map worker_code fs) s0 log w ->
  finished (map worker_code fs) w ->
  schedule (length td) log /\
  run_threads start_routine td log s0 = Some (cell w).
Proof.
  intros Hcode Hrun Hfin.
  pose proof (iruns_inv fs s0 log w Hrun) as Hinv.
  pose proof (finished_log fs s0 log w Hinv Hfin) as Hsched.
  rewrite (Forall2_length Hcode).
  split; [assumption|].
  destruct Hinv as (_ & _ & _ & -> & _).
  apply run_threads_replay; [assumption|].
  intros i Hi. rewrite (Forall2_length Hcode).
  apply (Permutation_in _ Hsched), in_seq in Hi. lia.
Qed.

(** The per-element workers of [dotprod_pairs] on [a = {2, 3}] and
    [b = {5, 6}]: the second worker runs between the product and the lock of
    the first, and writes first. *)
Lemma finished_runs_are_serial_witness :
  exists w,
    exec (map worker_code [sum_store (2 * 5)%R; sum_store (3 * 6)%R])
         [0; 1; 1; 1; 1; 1; 0; 0; 0; 0] ([], machine_init 0%R)
    = Some ([1; 0], w) /\
    schedule 2 [1; 0] /\
    run_threads DotPairs.compute_product
      (map (fun i => {| DotPairs.index := i; DotPairs.a := [2; 3]%R;
                        DotPairs.b := [5; 6]%R |}) (seq 0 2))
      [1; 0] 0%R = Some (cell w).
Proof.
  eexists. split; [reflexivity|].
  eapply (finished_runs_are_serial
           DotPairs.compute_product
           (map (fun i => {| DotPairs.index := i; DotPairs.a := [2; 3]%R;
                             DotPairs.b := [5; 6]%R |}) (seq 0 2))
           [sum_store (2 * 5)%R; sum_store (3 * 6)%R] 0%R).
  - simpl map. constructor; [intros s; reflexivity|].
    constructor; [intros s; reflexivity | constructor].
  - apply (exec_iruns _ _ [0; 1; 1; 1; 1; 1; 0; 0; 0; 0]). reflexivity.
  - intros i p Hp. destruct i as [|[|i]]; simpl in Hp.
    + injection Hp as <-. reflexivity.
    + injection Hp as <-. reflexivity.
    + destruct i; discriminate.
Defined.

(** ** The programs on binary64

    The same definitions at the instance of IEEE doubles, evaluated. Every
    value met in these runs is an integer below 2^53 or the square root of
    one, so the sums are exact and the results do not depend on the order of
    the workers. *)

Module B64Runs.
Import Floats.
Import B64.

(** max.c: the matrix holds 0 .. 39; both results are 39 and the program
    prints [OK]. *)
Example max_program :
  run_end 6 (MaxNorm.main (T:=float) [3; 0; 4; 1; 2])
  = Some ([Str "\nref="; Dbl 39%float; Str " res="; Dbl 39%float;
           Str "\n"; Str "OK\n"], 0%Z).
Proof. vm_compute. reflexivity. Qed.

(** frobenius.c: both results are the square root of 20540. *)
Example frobenius_program :
  run_end 7 (Frobenius.main (T:=float) [3; 0; 4; 1; 2])
  = Some ([Str "\nNorme de Frobenius (référence) = ";
           Dbl (PrimFloat.sqrt 20540); Str "\n";
           Str "Norme de Frobenius (parallèle) = ";
           Dbl (PrimFloat.sqrt 20540); Str "\n";
           Str "Résultat correct : OK\n"], 0%Z).
Proof. vm_compute. reflexivity. Qed.

(** The per-element program: [b] starts at 10 and the results are 735. *)
Example pairs_program :
  DotPairs.main_arrays (T:=float)
  = Some ([0; 1; 2; 3; 4; 5; 6; 7; 8; 9]%float,
          [10; 11; 12; 13; 14; 15; 16; 17; 18; 19]%float) /\
  run_end 7 (DotPairs.main (T:=float) dotprod_ref
                           [7; 2; 9; 0; 4; 1; 8; 3; 6; 5])
  = Some ([Str "\nProduit scalaire (référence) = "; Dbl 735%float;
           Str "\n";
           Str "Produit scalaire (parallèle) = "; Dbl 735%float;
           Str "\n";
           Str "Résultat correct : OK\n"], 0%Z).
Proof. split; vm_compute; reflexivity. Qed.

(** The block program: [b] starts at 9 and the results are 528. *)
Example blocks_program :
  DotBlocks.main_arrays (T:=float)
  = Some ([0; 1; 2; 3; 4; 5; 6; 7; 8]%float,
          [9; 10; 11; 12; 13; 14; 15; 16; 17]%float) /\
  run_end 7 (DotBlocks.main (T:=float) dotprod_ref [2; 0; 1])
  = Some ([Str "\nProduit scalaire (référence) = "; Dbl 528%float;
           Str "\n";
           Str "Produit scalaire (parallèle) = "; Dbl 528%float;
           Str "\n";
           Str "Résultat correct : OK\n"], 0%Z).
Proof. split; vm_compute; reflexivity. Qed.

(** A reference that disagrees sends the program to its error line, and
    the exit code is still 0. *)
Example pairs_program_mismatch :
  run_end 1 (DotPairs.main (T:=float) (fun _ _ _ => 0%float) (seq 0 10))
  = Some ([Str "Erreur : différence entre les résultats supérieure au seuil\n"],
          0%Z).
Proof. vm_compute. reflexivity. Qed.

(** [max_ref] on the matrix [{1, -3}]: -3, where [max] gives 3. *)
Example max_ref_signed :
  MaxNorm.max_ref 1 2 [1; -3]%float = Some (-3)%float /\
  MaxNorm.max 1 2 [1; -3]%float [0] = Some 3%float.
Proof. split; vm_compute; reflexivity. Qed.

(** Two rows of nine columns, the last entry alone being 1: the row
    workers, reading rows of eight, never see it. *)
Example nine_columns :
  MaxNorm.max 2 9 (repeat 0%float 17 ++ [1%float]) [0; 1] = Some 0%float /\
  MaxNorm.max_ref 2 9 (repeat 0%float 17 ++ [1%float]) = Some 1%float /\
  Frobenius.frobenius 2 9 (repeat 0%float 17 ++ [1%float]) [0; 1]
  = Some 0%float /\
  Frobenius.frobenius_ref 2 9 (repeat 0%float 17 ++ [1%float])
  = Some 1%float.
Proof. repeat split; vm_compute; reflexivity. Qed.

(** Blocks of three over ten elements: the tenth is left out. *)
Example ten_by_three :
  DotBlocks.dotprod_blocks 10 3 [1; 2; 3; 4; 5; 6; 7; 8; 9; 10]%float
                           [1; 2; 3; 4; 5; 6; 7; 8; 9; 10]%float [2; 0; 1]
  = Some 285%float /\
  dotprod_ref 10 [1; 2; 3; 4; 5; 6; 7; 8; 9; 10]%float
              [1; 2; 3; 4; 5; 6; 7; 8; 9; 10]%float
  = 385%float.
Proof. split; vm_compute; reflexivity. Qed.

(** A comparison with NaN is false. *)
Lemma ltb_nan_l (x : float) : PrimFloat.ltb nan x = false.
Proof.
  rewrite ltb_spec.
  replace (Prim2SF nan) with S754_nan by (vm_compute; reflexivity).
  reflexivity.
Qed.

Lemma ltb_nan_r (x : float) : PrimFloat.ltb x nan = false.
Proof.
  rewrite ltb_spec.
  replace (Prim2SF nan) with S754_nan by (vm_compute; reflexivity).
  unfold SFltb, SFcompare. destruct (Prim2SF x) as [[|]|[|]| |[|] ? ?];
    reflexivity.
Qed.

(** X27. On binary64 the result of [dotprod_pairs] depends on the order of
    the workers, and by more than the tolerance of the check: for
    [a = {1e16, 1, 1}] and [b = {1, 1, 1}] the creation order gives 1e16,
    as does the sequential reference, while the order 1, 2, 0 gives
    1e16 + 2, and [isClose] with 0.0001 rejects the pair. *)
Theorem dotprod_pairs_order_matters :
  DotPairs.dotprod_pairs 3 [1e16; 1; 1]%float [1; 1; 1]%float [0; 1; 2]
  = Some 1e16%float /\
  DotPairs.dotprod_pairs 3 [1e16; 1; 1]%float [1; 1; 1]%float [1; 2; 0]
  = Some 10000000000000002%float /\
  dotprod_ref 3 [1e16; 1; 1]%float [1; 1; 1]%float = 1e16%float /\
  DotPairs.report 1e16%float 10000000000000002%float
  = [Str "Erreur : différence entre les résultats supérieure au seuil\n"].
Proof. repeat split; vm_compute; reflexivity. Qed.

(** X28. On binary64, when [A[0][0]] is NaN, the parallel [max], for every
    schedule, and [max_ref] return NaN if they return at all, whatever the
    other entries: no comparison with the NaN accumulator succeeds. The
    program's check [ref == res] then fails although both results are the
    same. *)
Theorem nan_first_entry (m n : nat) (A : list float) (order : list nat) :
  load2 n A 0 0 = Some nan ->
  (forall v, MaxNorm.max m n A order = Some v -> v = nan) /\
  (forall v, MaxNorm.max_ref m n A = Some v -> v = nan) /\
  MaxNorm.report nan nan
  = [Str "ERROR: difference between ref and res is above threshold\n"].
Proof.
  intros E0. split; [|split].
  - intros v E. unfold MaxNorm.max in E. rewrite E0 in E.
    rewrite run_threads_ofold in E.
    apply (ofold_preserves (fun s => s = nan)) in E; [assumption | | reflexivity].
    intros i s s' -> Ei.
    destruct (nth_error _ i) as [data|]; [|discriminate].
    unfold MaxNorm.compute_row_max in Ei.
    destruct (load2 MaxNorm.N (MaxNorm.A data) (MaxNorm.row data) 0);
      [|discriminate].
    match type of Ei with
    | context [for_loop ?lo ?hi ?body ?s0] =>
        destruct (for_loop lo hi body s0) as [local|]; [|discriminate]
    end.
    injection Ei as <-. simpl. rewrite ltb_nan_l. reflexivity.
  - intros v E. unfold MaxNorm.max_ref in E. rewrite E0 in E.
    rewrite for_loop_ofold in E.
    apply (ofold_preserves (fun s => s = nan)) in E; [assumption | | reflexivity].
    intros i s s' -> Ei. rewrite for_loop_ofold in Ei.
    apply (ofold_preserves (fun s => s = nan)) in Ei;
      [assumption | | reflexivity].
    intros j s1 s2 -> Ej.
    destruct (load2 n A i j); [|discriminate].
    injection Ej as <-. simpl. rewrite ltb_nan_l. reflexivity.
  - vm_compute. reflexivity.
Qed.

Lemma nan_first_entry_witness :
  (forall v, MaxNorm.max 1 2 [nan; 7%float] [0] = Some v -> v = nan) /\
  (forall v, MaxNorm.max_ref 1 2 [nan; 7%float] = Some v -> v = nan) /\
  MaxNorm.report nan nan
  = [Str "ERROR: difference between ref and res is above threshold\n"].
Proof.
  apply (nan_first_entry 1 2 [nan; 7%float] [0]). reflexivity.
Defined.

(** X29. On binary64 a row of the matrix whose first entry is NaN
    contributes nothing to the parallel [max]: its worker keeps NaN as local
    maximum through the whole row and leaves the shared maximum as it was,
    however large the other entries of the row. *)
Theorem nan_masks_its_row (data : MaxNorm.ThreadData) (shared_max v : float) :
  load2 MaxNorm.N (MaxNorm.A data) (MaxNorm.row data) 0 = Some nan ->
  MaxNorm.compute_row_max data shared_max = Some v ->
  v = shared_max.
Proof.
  intros E0 E. unfold MaxNorm.compute_row_max in E. rewrite E0 in E.
  rewrite for_loop_ofold in E.
  match type of E with
  | context [ofold ?step ?l ?s0] =>
      destruct (ofold step l s0) as [local|] eqn:El; [|discriminate]
  end.
  apply (ofold_preserves (fun s => s = nan)) in El.
  - subst local. injection E as <-. simpl. rewrite ltb_nan_r. reflexivity.
  - intros j s1 s2 -> Ej.
    destruct (load2 MaxNorm.N (MaxNorm.A data) (MaxNorm.row data) j);
      [|discriminate].
    injection Ej as <-. simpl. rewrite ltb_nan_l. reflexivity.
  - reflexivity.
Qed.

Lemma nan_masks_its_row_witness : 2%float = 2%float.
Proof.
  apply (nan_masks_its_row
           {| MaxNorm.row := 0; MaxNorm.n := 2;
              MaxNorm.A := [nan; 100%float] |} 2%float 2%float).
  - reflexivity.
  - vm_compute. reflexivity.
Defined.

End B64Runs.
